(** * StRingBuffer: a ring buffer of strings (package stRingBuffer)

    A shallow embedding of the two revisions of the Go package that the
    repository carries, and the proofs of the laws its specification
    states about them.

    - [RingA] embeds src/stRingBuffer/stRingBuffer.go: [Push] advances
      [end] and then writes, [Pop] reads and then retracts [end].
    - [RingB] embeds the later revision (the one with [Slice] and
      [Unslice]): [Push] writes and then advances [end], [Pop] retracts
      [end] and then reads.

    A Go run-time panic (integer division by zero, index or slice bounds
    out of range, a refused allocation) is the result [None].

    [RingA_Laws] and [RingB_Laws] prove the laws of the specification;
    [RingA_More] and [RingB_More] add what else the code shows (the
    window kept on overflow, the invariant of the cursors, the cleared
    slots, aliasing of storage, the refinement of a list model), and
    [Revisions] compares the two revisions. *)

From Stdlib Require Import ZArith Lia.
From stdpp Require Import base option list strings relations.

Local Open Scope Z_scope.

(** ** Go's [int]

    [int] is taken at its 64-bit width (amd64, arm64).  Sums and
    differences wrap around; [%] truncates toward zero and panics on a
    zero divisor. *)

Definition wrap (x : Z) : Z := (x + 2 ^ 63) mod 2 ^ 64 - 2 ^ 63.

Definition int_add (x y : Z) : Z := wrap (x + y).
Definition int_sub (x y : Z) : Z := wrap (x - y).

Definition int_rem (x y : Z) : option Z :=
  if y =? 0 then None else Some (Z.rem x y).

(** The longest [[]string] the runtime hands out: [make] panics beyond
    maxAlloc bytes (2^48 on linux/amd64), and a string header takes 16.
    The proofs only use that twice this length is still an [int]. *)
Definition max_len : Z := 2 ^ 44.

(** [len] of a slice, as an [int]. *)
Definition len {A} (l : list A) : Z := Z.of_nat (length l).

(** ** Closures

    The functions handed to [Map] and [MapR] are Go closures: they may
    read and write variables they captured (the test suite's counter).
    A closure over an environment [W] is a function that threads [W]. *)

Definition closure (W : Type) : Type := string → W → string * W.

(** A closure that captured nothing it writes to. *)
Definition pure_fn {W} (f : string → string) : closure W := λ x w, (f x, w).

(** [mkId]: run [f] for its effect and hand the argument back. *)
Definition mkId {W} (f : string → W → W) : closure W := λ s w, (s, f s w).

(** What "apply [f] to [x1 .. xn] in this order" means: the environment
    is threaded from [x1] to [xn]. *)
Fixpoint thread {W} (f : closure W) (xs : list string) (w : W)
  : list string * W :=
  match xs with
  | [] => ([], w)
  | x :: xs' =>
      let '(y, w1) := f x w in
      let '(ys, w2) := thread f xs' w1 in
      (y :: ys, w2)
  end.

(** The same elements visited from [xn] down to [x1], results kept at
    their positions. *)
Definition thread_rev {W} (f : closure W) (xs : list string) (w : W)
  : list string * W :=
  let '(ys, w') := thread f (reverse xs) w in (reverse ys, w').

(** The closures of the test suite (TestMapEach): [f] counts its calls
    and appends the count, [g] appends what it is given to [sum].
    [itoa] stands for [strconv.Itoa] on the counts the test reaches, which
    have one digit. *)
Definition itoa (n : nat) : string :=
  String (Ascii.ascii_of_nat (48 + n)) EmptyString.

Definition count_and_append : closure nat :=
  λ s c, ((s +:+ itoa (S c))%string, S c).

Definition sum_up : string → string → string :=
  λ s sum, (sum +:+ s)%string.

(** ** The window a bounded buffer keeps

    Of a sequence longer than the capacity, appending keeps the last
    [c] elements and prepending keeps the first [c]. *)
Definition keep_last (c : nat) (l : list string) : list string :=
  drop (length l - c) l.

Definition keep_first (c : nat) (l : list string) : list string :=
  take c l.

(** ** The bounded deque, as a list

    What a client sees of a buffer of capacity [c]: the list of its live
    elements, front to back.  A command is a call of a method; it yields
    what the call returns ([Pop] and [Shift] return a string, the other
    methods the buffer itself) and the new list, or a panic. *)
Inductive cmd : Type :=
| CPush (vs : list string)
| CPop
| CUnshift (vs : list string)
| CShift
| CMap (f : string → string)
| CMapR (f : string → string).

Definition deque_step (c : nat) (k : cmd) (xs : list string)
  : option (list string * list string) :=
  match k with
  | CPush [] | CUnshift [] => Some ([], xs)
  | CPush vs =>
      match c with
      | O => None
      | _ => Some ([], keep_last c (xs ++ vs))
      end
  | CUnshift vs =>
      match c with
      | O => None
      | _ => Some ([], keep_first c (reverse vs ++ xs))
      end
  | CPop => Some ([default "" (last xs)], take (length xs - 1) xs)
  | CShift => Some ([default "" (head xs)], drop 1 xs)
  | CMap f | CMapR f => Some ([], f <$> xs)
  end.

Fixpoint deque_run (c : nat) (ks : list cmd) (xs : list string)
  : option (list string * list string) :=
  match ks with
  | [] => Some ([], xs)
  | k :: ks' =>
      '(o, xs1) ← deque_step c k xs;
      '(os, xs2) ← deque_run c ks' xs1;
      Some (o ++ os, xs2)
  end.

(** ** Reading a ring

    [ring l b n]: the [n] slots of [l] met walking forward from index
    [b], modulo the length of [l]. *)

Definition slot {A} (l : list A) (i : Z) : nat := Z.to_nat (i mod len l).

Definition ring (l : list string) (b : Z) (n : nat) : list string :=
  (λ i : nat, default "" (l !! slot l (b + Z.of_nat i))) <$> seq 0 n.

(** * Revision A: src/stRingBuffer/stRingBuffer.go

    This revision allocates its storage itself and never hands it out
    (no [Slice], no [Unslice], the field is not exported): nothing else
    can hold the backing array, and [lines] is the list of its slots. *)

Module RingA.

(** [end] and [length] carry an underscore: the first is a keyword, the
    second is the length of lists. *)
Record StRingBuffer := mk {
  start : Z;
  end_ : Z;
  lines : list string;
  length_ : Z
}.

Definition set_start (v : Z) (s : StRingBuffer) :=
  mk v (end_ s) (lines s) (length_ s).
Definition set_end (v : Z) (s : StRingBuffer) :=
  mk (start s) v (lines s) (length_ s).
Definition set_lines (v : list string) (s : StRingBuffer) :=
  mk (start s) (end_ s) v (length_ s).
Definition set_length (v : Z) (s : StRingBuffer) :=
  mk (start s) (end_ s) (lines s) v.

(** [make([]string, size)] *)
Definition make (size : Z) : option (list string) :=
  if (0 <=? size) && (size <=? max_len)
  then Some (replicate (Z.to_nat size) "")
  else None.

(** [l[i]] *)
Definition load (l : list string) (i : Z) : option string :=
  if (0 <=? i) && (i <? len l) then l !! Z.to_nat i else None.

(** [l[i] = v] *)
Definition store (l : list string) (i : Z) (v : string)
  : option (list string) :=
  if (0 <=? i) && (i <? len l) then Some (<[Z.to_nat i := v]> l) else None.

Definition NewStRingBuffer (size : Z) : option StRingBuffer :=
  l ← make size; Some (mk 0 0 l 0).

Definition Full (s : StRingBuffer) : bool := length_ s =? len (lines s).
Definition Empty (s : StRingBuffer) : bool := length_ s =? 0.
Definition Length (s : StRingBuffer) : Z := length_ s.
Definition Capacity (s : StRingBuffer) : Z := len (lines s).

(** [s.mod(x)]: [(x + l) % l] with [l := len(s.lines)]. *)
Definition mod_ (s : StRingBuffer) (x : Z) : option Z :=
  let l := len (lines s) in
  int_rem (int_add x l) l.

(** The body of the loop of [Push], for one [line]. *)
Definition Push1 (line : string) (s : StRingBuffer) : option StRingBuffer :=
  s1 ← (if Full s
        then st ← mod_ s (int_add (start s) 1); Some (set_start st s)
        else Some (set_length (int_add (length_ s) 1) s));
  e ← mod_ s1 (int_add (end_ s1) 1);
  let s2 := set_end e s1 in
  l ← store (lines s2) (end_ s2) line;
  Some (set_lines l s2).

Fixpoint Push (lines : list string) (s : StRingBuffer)
  : option StRingBuffer :=
  match lines with
  | [] => Some s
  | line :: rest => s' ← Push1 line s; Push rest s'
  end.

Definition Pop (s : StRingBuffer) : option (string * StRingBuffer) :=
  if Empty s then Some ("", s)
  else
    let s1 := set_length (int_sub (length_ s) 1) s in
    ret ← load (lines s1) (end_ s1);
    l ← store (lines s1) (end_ s1) "";
    let s2 := set_lines l s1 in
    e ← mod_ s2 (int_sub (end_ s2) 1);
    Some (ret, set_end e s2).

(** The body of the loop of [Unshift], for one [line]. *)
Definition Unshift1 (line : string) (s : StRingBuffer)
  : option StRingBuffer :=
  s1 ← (if Full s
        then e ← mod_ s (int_sub (end_ s) 1); Some (set_end e s)
        else Some (set_length (int_add (length_ s) 1) s));
  l ← store (lines s1) (start s1) line;
  let s2 := set_lines l s1 in
  st ← mod_ s2 (int_sub (start s2) 1);
  Some (set_start st s2).

Fixpoint Unshift (lines : list string) (s : StRingBuffer)
  : option StRingBuffer :=
  match lines with
  | [] => Some s
  | line :: rest => s' ← Unshift1 line s; Unshift rest s'
  end.

Definition Shift (s : StRingBuffer) : option (string * StRingBuffer) :=
  if Empty s then Some ("", s)
  else
    let s1 := set_length (int_sub (length_ s) 1) s in
    st ← mod_ s1 (int_add (start s1) 1);
    let s2 := set_start st s1 in
    ret ← load (lines s2) (start s2);
    l ← store (lines s2) (start s2) "";
    Some (ret, set_lines l s2).

(** [for i := 0; i < l; i++ { s.Push(f(s.Shift())) }], [l] turns left. *)
Fixpoint Map_loop {W} (f : closure W) (l : nat) (w : W) (s : StRingBuffer)
  : option (W * StRingBuffer) :=
  match l with
  | O => Some (w, s)
  | S l' =>
      '(x, s1) ← Shift s;
      let '(y, w1) := f x w in
      s2 ← Push [y] s1;
      Map_loop f l' w1 s2
  end.

Definition Map {W} (f : closure W) (w : W) (s : StRingBuffer)
  : option (W * StRingBuffer) :=
  Map_loop f (Z.to_nat (Length s)) w s.

Fixpoint MapR_loop {W} (f : closure W) (l : nat) (w : W) (s : StRingBuffer)
  : option (W * StRingBuffer) :=
  match l with
  | O => Some (w, s)
  | S l' =>
      '(x, s1) ← Pop s;
      let '(y, w1) := f x w in
      s2 ← Unshift [y] s1;
      MapR_loop f l' w1 s2
  end.

Definition MapR {W} (f : closure W) (w : W) (s : StRingBuffer)
  : option (W * StRingBuffer) :=
  MapR_loop f (Z.to_nat (Length s)) w s.

Definition Each {W} (f : string → W → W) := Map (mkId f).
Definition EachR {W} (f : string → W → W) := MapR (mkId f).

(** Calling [Shift()] (or [Pop()]) [n] times in a row, collecting what
    the calls return in call order. *)
Fixpoint Shift_n (n : nat) (s : StRingBuffer)
  : option (list string * StRingBuffer) :=
  match n with
  | O => Some ([], s)
  | S n' =>
      '(x, s1) ← Shift s;
      '(xs, s2) ← Shift_n n' s1;
      Some (x :: xs, s2)
  end.

Fixpoint Pop_n (n : nat) (s : StRingBuffer)
  : option (list string * StRingBuffer) :=
  match n with
  | O => Some ([], s)
  | S n' =>
      '(x, s1) ← Pop s;
      '(xs, s2) ← Pop_n n' s1;
      Some (x :: xs, s2)
  end.

(** The live elements, front to back: the [length] slots that follow
    [start]. *)
Definition live (s : StRingBuffer) : list string :=
  ring (lines s) (start s + 1) (Z.to_nat (length_ s)).

(** ** Representation

    The invariant of the cursors, the abstraction to the list of live
    elements, and the buffers a client can reach. *)

(** What every buffer built by [NewStRingBuffer] and the methods
    satisfies: [start] is a slot, and [end] lies [length] slots after
    it. *)
Record Inv (s : StRingBuffer) : Prop := {
  inv_cap : len (lines s) <= max_len;
  inv_length : 0 <= length_ s <= len (lines s);
  inv_start : 0 <= start s < len (lines s) ∨ len (lines s) = 0;
  inv_end : end_ s = (start s + length_ s) mod len (lines s)
}.

(** [Rep s c xs]: [s] is a well-formed buffer of capacity [c] whose live
    elements, front to back, are [xs]. *)
Definition Rep (s : StRingBuffer) (c : Z) (xs : list string) : Prop :=
  Inv s ∧ len (lines s) = c ∧ live s = xs.

(** The buffers a client can hold: built by [NewStRingBuffer] and
    changed by the exported methods only ([Each] and [EachR] are [Map]
    and [MapR] of a closure). *)
Inductive reachable : StRingBuffer → Prop :=
| reach_New size s :
    NewStRingBuffer size = Some s → reachable s
| reach_Push vs s s' :
    reachable s → Push vs s = Some s' → reachable s'
| reach_Pop s r s' :
    reachable s → Pop s = Some (r, s') → reachable s'
| reach_Unshift vs s s' :
    reachable s → Unshift vs s = Some s' → reachable s'
| reach_Shift s r s' :
    reachable s → Shift s = Some (r, s') → reachable s'
| reach_Map (W : Type) (f : closure W) w s w' s' :
    reachable s → Map f w s = Some (w', s') → reachable s'
| reach_MapR (W : Type) (f : closure W) w s w' s' :
    reachable s → MapR f w s = Some (w', s') → reachable s'.

(** A command as a method call, and a sequence of calls; the strings
    returned are collected in call order. *)
Definition step_cmd (k : cmd) (s : StRingBuffer)
  : option (list string * StRingBuffer) :=
  match k with
  | CPush vs => s' ← Push vs s; Some ([], s')
  | CPop => '(r, s') ← Pop s; Some ([r], s')
  | CUnshift vs => s' ← Unshift vs s; Some ([], s')
  | CShift => '(r, s') ← Shift s; Some ([r], s')
  | CMap f => '(_, s') ← Map (pure_fn f) () s; Some ([], s')
  | CMapR f => '(_, s') ← MapR (pure_fn f) () s; Some ([], s')
  end.

Fixpoint run (ks : list cmd) (s : StRingBuffer)
  : option (list string * StRingBuffer) :=
  match ks with
  | [] => Some ([], s)
  | k :: ks' =>
      '(o, s1) ← step_cmd k s;
      '(os, s2) ← run ks' s1;
      Some (o ++ os, s2)
  end.

(** The whole storage, read one full turn from the front slot on: the
    live elements first, then the slots that hold none. *)
Definition walk (s : StRingBuffer) : list string :=
  ring (lines s) (start s + 1) (length (lines s)).

(** Every slot that holds no live element holds the empty string. *)
Definition Clean (s : StRingBuffer) : Prop :=
  walk s
  = live s ++ replicate (length (lines s) - Z.to_nat (length_ s)) "".

Definition Canon (s : StRingBuffer) (c : Z) (xs : list string) : Prop :=
  Rep s c xs ∧ Clean s.

(** One call of an exported method that changes the buffer, from the
    state before to the state after. *)
Inductive call : StRingBuffer → StRingBuffer → Prop :=
| call_Push vs s s' : Push vs s = Some s' → call s s'
| call_Pop s r s' : Pop s = Some (r, s') → call s s'
| call_Unshift vs s s' : Unshift vs s = Some s' → call s s'
| call_Shift s r s' : Shift s = Some (r, s') → call s s'
| call_Map (W : Type) (f : closure W) w s w' s' :
    Map f w s = Some (w', s') → call s s'
| call_MapR (W : Type) (f : closure W) w s w' s' :
    MapR f w s = Some (w', s') → call s s'.

(** ** A statement and a closure the laws refer to *)

(** The Unshift/Shift law in the order the specification's list of
    properties words it: the values come back as [v1, v2, .., vn]. *)
Definition Unshift_Shift_argument_order : Prop :=
  ∀ (c : Z) (vs : list string) (s0 : StRingBuffer),
    NewStRingBuffer c = Some s0 → len vs <= c →
    ∃ s1 s2, Unshift vs s0 = Some s1 ∧
             Shift_n (length vs) s1 = Some (vs, s2).

(** A closure with an effect, in the manner of the test suite's
    counter: it appends a mark to the element and logs what it was called
    on. *)
Definition mark_and_log : closure (list string) :=
  λ x log, ((x +:+ "!")%string, log ++ [x]).

End RingA.

(** * Revision B: the revision with [Slice] and [Unslice]

    [Unslice] keeps the slice its caller hands in as the storage of the
    buffer, and [Slice] hands out a slice of its own making: the backing
    arrays live in a store, and a slice is a window on one of them. *)

Module RingB.

(** A slice header: the backing array, where the window starts in it,
    [len] and [cap]. *)
Record slice := mkslice {
  arr : nat;
  off : nat;
  slen : nat;
  scap : nat
}.

(** The backing arrays, by address; allocation takes the next address. *)
Abbreviation heap := (list (list string)).

(** [len(sl)] *)
Definition slice_len (sl : slice) : Z := Z.of_nat (slen sl).

(** The elements of a slice. *)
Definition read (h : heap) (sl : slice) : list string :=
  take (slen sl) (drop (off sl) (default [] (h !! arr sl))).

(** [make([]string, size)] *)
Definition make (size : Z) (h : heap) : option (slice * heap) :=
  if (0 <=? size) && (size <=? max_len)
  then Some (mkslice (length h) 0 (Z.to_nat size) (Z.to_nat size),
             h ++ [replicate (Z.to_nat size) ""])
  else None.

(** [sl[i]] *)
Definition index (sl : slice) (i : Z) (h : heap) : option string :=
  if (0 <=? i) && (i <? slice_len sl)
  then read h sl !! Z.to_nat i
  else None.

(** [sl[i] = v] *)
Definition assign (sl : slice) (i : Z) (v : string) (h : heap)
  : option heap :=
  if (0 <=? i) && (i <? slice_len sl)
  then Some (alter (λ a, <[(off sl + Z.to_nat i)%nat := v]> a) (arr sl) h)
  else None.

(** [sl[lo:hi]] *)
Definition reslice (sl : slice) (lo hi : Z) : option slice :=
  if (0 <=? lo) && (lo <=? hi) && (hi <=? Z.of_nat (scap sl))
  then Some (mkslice (arr sl) (off sl + Z.to_nat lo)
               (Z.to_nat (hi - lo)) (scap sl - Z.to_nat lo))
  else None.

(** [sl[lo:]] *)
Definition reslice_from (sl : slice) (lo : Z) : option slice :=
  if (0 <=? lo) && (lo <=? slice_len sl)
  then Some (mkslice (arr sl) (off sl + Z.to_nat lo)
               (slen sl - Z.to_nat lo) (scap sl - Z.to_nat lo))
  else None.

(** [copy(dst, src)]: the first [min(len(dst), len(src))] elements of
    [src], as they are before the call, overwrite those of [dst]. *)
Definition copy (dst src : slice) (h : heap) : Z * heap :=
  let n := (slen dst `min` slen src)%nat in
  let vs := take n (read h src) in
  (Z.of_nat n, alter (list_inserts (off dst) vs) (arr dst) h).

Record StRingBuffer := mk {
  start : Z;
  end_ : Z;
  lines : slice;
  length_ : Z
}.

Definition set_start (v : Z) (s : StRingBuffer) :=
  mk v (end_ s) (lines s) (length_ s).
Definition set_end (v : Z) (s : StRingBuffer) :=
  mk (start s) v (lines s) (length_ s).
Definition set_length (v : Z) (s : StRingBuffer) :=
  mk (start s) (end_ s) (lines s) v.

Definition NewStRingBuffer (size : Z) (h : heap)
  : option (StRingBuffer * heap) :=
  '(l, h') ← make size h; Some (mk 0 0 l 0, h').

Definition Full (s : StRingBuffer) : bool := length_ s =? slice_len (lines s).
Definition Empty (s : StRingBuffer) : bool := length_ s =? 0.
Definition Length (s : StRingBuffer) : Z := length_ s.
Definition Capacity (s : StRingBuffer) : Z := slice_len (lines s).

(** [s.mod(x)]: [(x + l) % l] with [l := len(s.lines)]. *)
Definition mod_ (s : StRingBuffer) (x : Z) : option Z :=
  let l := slice_len (lines s) in
  int_rem (int_add x l) l.

(** The body of the loop of [Push], for one [line]. *)
Definition Push1 (line : string) (s : StRingBuffer) (h : heap)
  : option (StRingBuffer * heap) :=
  s1 ← (if Full s
        then st ← mod_ s (int_add (start s) 1); Some (set_start st s)
        else Some (set_length (int_add (length_ s) 1) s));
  h' ← assign (lines s1) (end_ s1) line h;
  e ← mod_ s1 (int_add (end_ s1) 1);
  Some (set_end e s1, h').

Fixpoint Push (lines : list string) (s : StRingBuffer) (h : heap)
  : option (StRingBuffer * heap) :=
  match lines with
  | [] => Some (s, h)
  | line :: rest => '(s', h') ← Push1 line s h; Push rest s' h'
  end.

Definition Pop (s : StRingBuffer) (h : heap)
  : option (string * StRingBuffer * heap) :=
  if Empty s then Some ("", s, h)
  else
    let s1 := set_length (int_sub (length_ s) 1) s in
    e ← mod_ s1 (int_sub (end_ s1) 1);
    let s2 := set_end e s1 in
    ret ← index (lines s2) (end_ s2) h;
    h' ← assign (lines s2) (end_ s2) "" h;
    Some (ret, s2, h').

(** The body of the loop of [Unshift], for one [line]. *)
Definition Unshift1 (line : string) (s : StRingBuffer) (h : heap)
  : option (StRingBuffer * heap) :=
  s1 ← (if Full s
        then e ← mod_ s (int_sub (end_ s) 1); Some (set_end e s)
        else Some (set_length (int_add (length_ s) 1) s));
  st ← mod_ s1 (int_sub (start s1) 1);
  let s2 := set_start st s1 in
  h' ← assign (lines s2) (start s2) line h;
  Some (s2, h').

Fixpoint Unshift (lines : list string) (s : StRingBuffer) (h : heap)
  : option (StRingBuffer * heap) :=
  match lines with
  | [] => Some (s, h)
  | line :: rest => '(s', h') ← Unshift1 line s h; Unshift rest s' h'
  end.

Definition Shift (s : StRingBuffer) (h : heap)
  : option (string * StRingBuffer * heap) :=
  if Empty s then Some ("", s, h)
  else
    let s1 := set_length (int_sub (length_ s) 1) s in
    ret ← index (lines s1) (start s1) h;
    h' ← assign (lines s1) (start s1) "" h;
    st ← mod_ s1 (int_add (start s1) 1);
    Some (ret, set_start st s1, h').

(** [for i := 0; i < l; i++ { s.Push(f(s.Shift())) }], [l] turns left. *)
Fixpoint Map_loop {W} (f : closure W) (l : nat) (w : W)
    (s : StRingBuffer) (h : heap) : option (W * StRingBuffer * heap) :=
  match l with
  | O => Some (w, s, h)
  | S l' =>
      '(x, s1, h1) ← Shift s h;
      let '(y, w1) := f x w in
      '(s2, h2) ← Push [y] s1 h1;
      Map_loop f l' w1 s2 h2
  end.

Definition Map {W} (f : closure W) (w : W) (s : StRingBuffer) (h : heap)
  : option (W * StRingBuffer * heap) :=
  Map_loop f (Z.to_nat (Length s)) w s h.

Fixpoint MapR_loop {W} (f : closure W) (l : nat) (w : W)
    (s : StRingBuffer) (h : heap) : option (W * StRingBuffer * heap) :=
  match l with
  | O => Some (w, s, h)
  | S l' =>
      '(x, s1, h1) ← Pop s h;
      let '(y, w1) := f x w in
      '(s2, h2) ← Unshift [y] s1 h1;
      MapR_loop f l' w1 s2 h2
  end.

Definition MapR {W} (f : closure W) (w : W) (s : StRingBuffer) (h : heap)
  : option (W * StRingBuffer * heap) :=
  MapR_loop f (Z.to_nat (Length s)) w s h.

Definition Each {W} (f : string → W → W) := Map (mkId f).
Definition EachR {W} (f : string → W → W) := MapR (mkId f).

(** [Slice] assigns to no field of [s]: it returns the new slice and
    the store. *)
Definition Slice (s : StRingBuffer) (h : heap) : option (slice * heap) :=
  '(sl, h1) ← make (Length s) h;
  if negb (Empty s) then
    if start s <? end_ s then
      let e := int_add (end_ s) 1 in
      src ← reslice (lines s) (start s) e;
      Some (sl, (copy sl src h1).2)
    else
      part1 ← reslice_from (lines s) (start s);
      part2 ← reslice (lines s) 0 (end_ s);
      let h2 := (copy sl part1 h1).2 in
      dst ← reslice_from sl (slice_len part1);
      Some (sl, (copy dst part2 h2).2)
  else Some (sl, h1).

(** [Unslice] allocates nothing: the buffer's storage is the caller's
    slice. *)
Definition Unslice (lines : slice) : option StRingBuffer :=
  let srb := mk 0 0 lines (slice_len lines) in
  e ← mod_ srb (length_ srb);
  Some (set_end e srb).

(** Calling [Shift()] (or [Pop()]) [n] times in a row, collecting what
    the calls return in call order. *)
Fixpoint Shift_n (n : nat) (s : StRingBuffer) (h : heap)
  : option (list string * StRingBuffer * heap) :=
  match n with
  | O => Some ([], s, h)
  | S n' =>
      '(x, s1, h1) ← Shift s h;
      '(xs, s2, h2) ← Shift_n n' s1 h1;
      Some (x :: xs, s2, h2)
  end.

(** The live elements, front to back: the [length] slots from [start]
    on. *)
Definition live (s : StRingBuffer) (h : heap) : list string :=
  ring (read h (lines s)) (start s) (Z.to_nat (length_ s)).

(** ** Representation *)

(** A slice the store can hold: its window lies inside its backing
    array, and it is no longer than the runtime allows. *)
Definition valid (h : heap) (sl : slice) : Prop :=
  ∃ a, h !! arr sl = Some a ∧ (off sl + scap sl <= length a)%nat ∧
       (slen sl <= scap sl)%nat ∧ slice_len sl <= max_len.

Record Inv (s : StRingBuffer) (h : heap) : Prop := {
  inv_valid : valid h (lines s);
  inv_length : 0 <= length_ s <= slice_len (lines s);
  inv_start : 0 <= start s < slice_len (lines s) ∨ slice_len (lines s) = 0;
  inv_end : end_ s = (start s + length_ s) mod slice_len (lines s)
}.

(** [Rep s h c xs]: in the store [h], [s] is a well-formed buffer of
    capacity [c] whose live elements, front to back, are [xs]. *)
Definition Rep (s : StRingBuffer) (h : heap) (c : Z) (xs : list string)
  : Prop :=
  Inv s h ∧ slice_len (lines s) = c ∧ live s h = xs.

(** A buffer together with the store it lives in: built by
    [NewStRingBuffer] or by [Unslice] of a slice of the store, and changed
    by the exported methods only. *)
Inductive reachable : StRingBuffer → heap → Prop :=
| reach_New size h s h' :
    NewStRingBuffer size h = Some (s, h') → reachable s h'
| reach_Unslice sl h s :
    valid h sl → Unslice sl = Some s → reachable s h
| reach_Push vs s h s' h' :
    reachable s h → Push vs s h = Some (s', h') → reachable s' h'
| reach_Pop s h r s' h' :
    reachable s h → Pop s h = Some (r, s', h') → reachable s' h'
| reach_Unshift vs s h s' h' :
    reachable s h → Unshift vs s h = Some (s', h') → reachable s' h'
| reach_Shift s h r s' h' :
    reachable s h → Shift s h = Some (r, s', h') → reachable s' h'
| reach_Map (W : Type) (f : closure W) w s h w' s' h' :
    reachable s h → Map f w s h = Some (w', s', h') → reachable s' h'
| reach_MapR (W : Type) (f : closure W) w s h w' s' h' :
    reachable s h → MapR f w s h = Some (w', s', h') → reachable s' h'
| reach_Slice s h sl h' :
    reachable s h → Slice s h = Some (sl, h') → reachable s h'.

(** A command as a method call, and a sequence of calls; the strings
    returned are collected in call order. *)
Definition step_cmd (k : cmd) (s : StRingBuffer) (h : heap)
  : option (list string * StRingBuffer * heap) :=
  match k with
  | CPush vs => '(s', h') ← Push vs s h; Some ([], s', h')
  | CPop => '(r, s', h') ← Pop s h; Some ([r], s', h')
  | CUnshift vs => '(s', h') ← Unshift vs s h; Some ([], s', h')
  | CShift => '(r, s', h') ← Shift s h; Some ([r], s', h')
  | CMap f => '(_, s', h') ← Map (pure_fn f) () s h; Some ([], s', h')
  | CMapR f => '(_, s', h') ← MapR (pure_fn f) () s h; Some ([], s', h')
  end.

Fixpoint run (ks : list cmd) (s : StRingBuffer) (h : heap)
  : option (list string * StRingBuffer * heap) :=
  match ks with
  | [] => Some ([], s, h)
  | k :: ks' =>
      '(o, s1, h1) ← step_cmd k s h;
      '(os, s2, h2) ← run ks' s1 h1;
      Some (o ++ os, s2, h2)
  end.

(** One call of an exported method that changes the buffer, between
    the buffer and the store before and after. *)
Inductive call : StRingBuffer * heap → StRingBuffer * heap → Prop :=
| call_Push vs s h s' h' : Push vs s h = Some (s', h') → call (s, h) (s', h')
| call_Pop s h r s' h' : Pop s h = Some (r, s', h') → call (s, h) (s', h')
| call_Unshift vs s h s' h' :
    Unshift vs s h = Some (s', h') → call (s, h) (s', h')
| call_Shift s h r s' h' :
    Shift s h = Some (r, s', h') → call (s, h) (s', h')
| call_Map (W : Type) (f : closure W) w s h w' s' h' :
    Map f w s h = Some (w', s', h') → call (s, h) (s', h')
| call_MapR (W : Type) (f : closure W) w s h w' s' h' :
    MapR f w s h = Some (w', s', h') → call (s, h) (s', h').

(** The store outside the window of a slice: every other array, and the
    elements of its own array before and after the window. *)
Definition same_outside (sl : slice) (h h' : heap) : Prop :=
  length h' = length h ∧
  (∀ a : nat, a ≠ arr sl → h' !! a = h !! a) ∧
  (∀ j : nat, (j < off sl ∨ off sl + slen sl <= j)%nat →
     default [] (h' !! arr sl) !! j = default [] (h !! arr sl) !! j) ∧
  length (default [] (h' !! arr sl)) = length (default [] (h !! arr sl)).

End RingB.


(** * Arithmetic of the cursors *)

Lemma wrap_small (x : Z) : - 2 ^ 63 <= x < 2 ^ 63 → wrap x = x.
Proof. intros H. unfold wrap. rewrite Z.mod_small; lia. Qed.

Lemma int_add_small (x y : Z) :
  - 2 ^ 63 <= x + y < 2 ^ 63 → int_add x y = x + y.
Proof. apply wrap_small. Qed.

Lemma int_sub_small (x y : Z) :
  - 2 ^ 63 <= x - y < 2 ^ 63 → int_sub x y = x - y.
Proof. apply wrap_small. Qed.

Lemma max_len_small : 2 * max_len + 2 < 2 ^ 63.
Proof. unfold max_len. lia. Qed.

Lemma len_nonneg {A} (l : list A) : 0 <= len l.
Proof. unfold len. lia. Qed.

Lemma len_app_1 (xs : list string) (x : string) : len (xs ++ [x]) = len xs + 1.
Proof. unfold len. rewrite length_app. simpl. lia. Qed.

Lemma len_cons (xs : list string) (x : string) : len (x :: xs) = len xs + 1.
Proof. unfold len. simpl. lia. Qed.

Lemma len_insert {A} (l : list A) (i : nat) (x : A) : len (<[i := x]> l) = len l.
Proof. unfold len. by rewrite length_insert. Qed.

Lemma len_replicate {A} (n : Z) (x : A) :
  0 <= n → len (replicate (Z.to_nat n) x) = n.
Proof. intros H. unfold len. rewrite length_replicate. lia. Qed.

(** [(x + l) % l] is the mathematical [x mod l] on the arguments the
    buffer passes: one slot before the first up to one past the last. *)
Lemma int_rem_add_mod (x l : Z) :
  0 < l <= max_len → - 1 <= x <= l + 1 →
  int_rem (int_add x l) l = Some (x mod l).
Proof.
  intros Hl Hx. pose proof max_len_small.
  unfold int_rem, int_add. rewrite wrap_small by lia.
  destruct (Z.eqb_spec l 0) as [->|_]; [lia|].
  rewrite Z.rem_mod_nonneg by lia.
  f_equal. rewrite <- (Z.mod_add x 1 l) by lia. f_equal. lia.
Qed.

Lemma slot_lt {A} (l : list A) (i : Z) : 0 < len l → (slot l i < length l)%nat.
Proof.
  intros H. unfold slot. pose proof (Z.mod_pos_bound i (len l) H).
  unfold len in *. lia.
Qed.

Lemma slot_insert {A} (l : list A) (k : nat) (x : A) (i : Z) :
  slot (<[k := x]> l) i = slot l i.
Proof. unfold slot. by rewrite len_insert. Qed.

Lemma slot_small {A} (l : list A) (i : Z) :
  0 <= i < len l → slot l i = Z.to_nat i.
Proof. intros H. unfold slot. by rewrite Z.mod_small. Qed.

Lemma slot_mod {A} (l : list A) (i : Z) : slot l (i mod len l) = slot l i.
Proof.
  unfold slot. destruct (Z.eqb_spec (len l) 0) as [->|H].
  - by rewrite !Z.mod_0_r.
  - by rewrite Z.mod_mod.
Qed.

Lemma slot_add_mod {A} (l : list A) (i j : Z) :
  slot l (i mod len l + j) = slot l (i + j).
Proof.
  unfold slot. destruct (Z.eqb_spec (len l) 0) as [->|H].
  - by rewrite !Z.mod_0_r.
  - by rewrite Z.add_mod_idemp_l.
Qed.

(** Two indices less than a full turn apart fall on different slots. *)
Lemma slot_ne {A} (l : list A) (i j : Z) :
  0 < len l → i ≠ j → - len l < i - j < len l → slot l i ≠ slot l j.
Proof.
  intros Hl Hne Hd Heq. unfold slot in Heq.
  pose proof (Z.mod_pos_bound i _ Hl). pose proof (Z.mod_pos_bound j _ Hl).
  assert (E : i mod len l = j mod len l) by lia.
  pose proof (Z.div_mod i (len l)). pose proof (Z.div_mod j (len l)).
  assert (len l * (i / len l - j / len l) = i - j) by lia.
  assert (i / len l - j / len l = 0) by nia.
  lia.
Qed.

(** * Lemmas on [ring] *)

Lemma length_ring l b n : length (ring l b n) = n.
Proof. unfold ring. by rewrite length_fmap, length_seq. Qed.

Lemma ring_0 l b : ring l b 0 = [].
Proof. done. Qed.

Lemma ring_lookup l b n (i : nat) :
  (i < n)%nat →
  ring l b n !! i = Some (default "" (l !! slot l (b + Z.of_nat i))).
Proof.
  intros H. unfold ring. rewrite list_lookup_fmap, lookup_seq_lt by done.
  done.
Qed.

Lemma ring_ext l l' b b' n :
  (∀ i : nat, (i < n)%nat →
     l !! slot l (b + Z.of_nat i) = l' !! slot l' (b' + Z.of_nat i)) →
  ring l b n = ring l' b' n.
Proof.
  intros H. unfold ring. apply list_fmap_ext.
  intros i x Hi. apply lookup_seq in Hi as [-> Hi]. simpl.
  by rewrite H.
Qed.

Lemma ring_snoc l b n :
  ring l b (S n) = ring l b n ++ [default "" (l !! slot l (b + Z.of_nat n))].
Proof. unfold ring. by rewrite seq_S, fmap_app. Qed.

Lemma ring_cons l b n :
  ring l b (S n) = default "" (l !! slot l b) :: ring l (b + 1) n.
Proof.
  unfold ring. simpl. f_equal.
  - by rewrite Z.add_0_r.
  - rewrite <- seq_shift, <- list_fmap_compose. apply list_fmap_ext.
    intros i x _. simpl. do 3 f_equal. lia.
Qed.

(** The base of a walk only matters modulo the capacity. *)
Lemma ring_base_mod l c b n : len l = c → ring l (b mod c) n = ring l b n.
Proof. intros <-. apply ring_ext. intros i _. by rewrite slot_add_mod. Qed.

(** Writing a slot the walk does not visit leaves the walk as it was. *)
Lemma ring_insert_ne l b n (k : nat) v :
  (∀ i : nat, (i < n)%nat → slot l (b + Z.of_nat i) ≠ k) →
  ring (<[k := v]> l) b n = ring l b n.
Proof.
  intros H. apply ring_ext. intros i Hi.
  rewrite slot_insert. apply list_lookup_insert_ne. specialize (H i Hi). done.
Qed.

(** A walk of a full turn determines the whole storage. *)
Lemma ring_full_inj l l' b :
  length l = length l' → ring l b (length l) = ring l' b (length l) → l = l'.
Proof.
  intros Hlen Hr. apply list_eq. intros j.
  destruct (decide (j < length l)%nat) as [Hj|Hj].
  2:{ rewrite !lookup_ge_None_2; [done|lia..]. }
  assert (Hc : 0 < len l) by (unfold len; lia).
  set (i := Z.to_nat ((Z.of_nat j - b) mod len l)).
  assert (Hi : (i < length l)%nat).
  { subst i. pose proof (Z.mod_pos_bound (Z.of_nat j - b) _ Hc).
    unfold len in *. lia. }
  assert (Hs : slot l (b + Z.of_nat i) = j).
  { subst i. unfold slot. rewrite Z2Nat.id by (apply Z.mod_pos_bound; lia).
    rewrite Z.add_mod_idemp_r by lia.
    replace (b + (Z.of_nat j - b)) with (Z.of_nat j) by lia.
    rewrite Z.mod_small by (unfold len; lia). lia. }
  assert (Hs' : slot l' (b + Z.of_nat i) = j).
  { rewrite <- Hs. unfold slot, len. by rewrite Hlen. }
  pose proof (f_equal (.!! i) Hr) as E.
  rewrite !ring_lookup in E by done. rewrite Hs, Hs' in E.
  destruct (lookup_lt_is_Some_2 l j Hj) as [x Hx].
  destruct (lookup_lt_is_Some_2 l' j ltac:(lia)) as [y Hy].
  rewrite Hx, Hy in *. simpl in E. congruence.
Qed.

(** Writing the slot just behind a walk extends the walk at the back. *)
Lemma ring_write_back l b n v :
  (n < length l)%nat →
  ring (<[slot l (b + Z.of_nat n) := v]> l) b (S n) = ring l b n ++ [v].
Proof.
  intros Hn. assert (0 < len l) by (unfold len; lia).
  rewrite ring_snoc. f_equal.
  - apply ring_insert_ne. intros i Hi. apply slot_ne; unfold len; lia.
  - rewrite slot_insert, list_lookup_insert_eq by (by apply slot_lt). done.
Qed.

(** Writing the slot just before a walk extends the walk at the front. *)
Lemma ring_write_front l b n v :
  (n < length l)%nat →
  ring (<[slot l (b - 1) := v]> l) (b - 1) (S n) = v :: ring l b n.
Proof.
  intros Hn. assert (0 < len l) by (unfold len; lia).
  rewrite ring_cons. f_equal.
  - rewrite slot_insert, list_lookup_insert_eq by (by apply slot_lt). done.
  - replace (b - 1 + 1) with b by lia.
    apply ring_insert_ne. intros i Hi. apply slot_ne; unfold len; lia.
Qed.

(** Clearing the slot a walk has just left, at either end. *)
Lemma ring_clear_front l b n v :
  (n < length l)%nat → ring (<[slot l (b - 1) := v]> l) b n = ring l b n.
Proof.
  intros Hn. assert (0 < len l) by (unfold len; lia).
  apply ring_insert_ne. intros i Hi. apply slot_ne; unfold len; lia.
Qed.

Lemma ring_clear_back l b n v :
  (n < length l)%nat →
  ring (<[slot l (b + Z.of_nat n) := v]> l) b n = ring l b n.
Proof.
  intros Hn. assert (0 < len l) by (unfold len; lia).
  apply ring_insert_ne. intros i Hi. apply slot_ne; unfold len; lia.
Qed.

Lemma mod_eq_shift (a b c k : Z) : a = b + k * c → a mod c = b mod c.
Proof.
  intros ->. destruct (Z.eqb_spec c 0) as [->|Hc].
  - rewrite !Z.mod_0_r. lia.
  - by rewrite Z.mod_add.
Qed.

Lemma slot_eq_shift {A} (l : list A) (i j k : Z) :
  i = j + k * len l → slot l i = slot l j.
Proof. intros H. unfold slot. f_equal. by apply (mod_eq_shift _ _ _ k). Qed.

Lemma ring_base_shift l b b' n k :
  b = b' + k * len l → ring l b n = ring l b' n.
Proof.
  intros H. apply ring_ext. intros i _. f_equal.
  apply (slot_eq_shift _ _ _ k). lia.
Qed.

Lemma ring_base_mod_add l c b k n :
  len l = c → ring l (b mod c + k) n = ring l (b + k) n.
Proof.
  intros <-. apply ring_ext. intros i _. f_equal. unfold slot. f_equal.
  destruct (Z.eqb_spec (len l) 0) as [->|Hc].
  - by rewrite !Z.mod_0_r.
  - rewrite <- Z.add_assoc, Z.add_mod_idemp_l by done. f_equal. lia.
Qed.

(** * Revision A: representation invariant and the deque it implements *)

Module RingA_Laws.
Import RingA.

Lemma Rep_length s c xs : Rep s c xs → length_ s = len xs.
Proof.
  intros (HI & _ & <-). unfold live, len. rewrite length_ring.
  destruct HI. lia.
Qed.

Lemma Rep_le s c xs : Rep s c xs → len xs <= c.
Proof.
  intros H. rewrite <- (Rep_length _ _ _ H).
  destruct H as (HI & <- & _). destruct HI. lia.
Qed.

Lemma load_ok l i :
  0 <= i < len l → load l i = Some (default "" (l !! Z.to_nat i)).
Proof.
  intros H. unfold load.
  destruct (Z.leb_spec 0 i); [|lia]. destruct (Z.ltb_spec i (len l)); [|lia].
  simpl. destruct (lookup_lt_is_Some_2 l (Z.to_nat i)) as [x ->]; [|done].
  unfold len in H. lia.
Qed.

Lemma store_ok l i v :
  0 <= i < len l → store l i v = Some (<[Z.to_nat i := v]> l).
Proof.
  intros H. unfold store.
  destruct (Z.leb_spec 0 i); [|lia]. destruct (Z.ltb_spec i (len l)); [|lia].
  done.
Qed.

Lemma mod_succ s x :
  0 < len (lines s) <= max_len → 0 <= x < len (lines s) →
  mod_ s (int_add x 1) = Some ((x + 1) mod len (lines s)).
Proof.
  intros Hc Hx. pose proof max_len_small. unfold mod_.
  rewrite (int_add_small x 1) by lia.
  apply int_rem_add_mod; lia.
Qed.

Lemma mod_pred s x :
  0 < len (lines s) <= max_len → 0 <= x < len (lines s) →
  mod_ s (int_sub x 1) = Some ((x - 1) mod len (lines s)).
Proof.
  intros Hc Hx. pose proof max_len_small. unfold mod_.
  rewrite (int_sub_small x 1) by lia.
  apply int_rem_add_mod; lia.
Qed.

Lemma Rep_New size s : NewStRingBuffer size = Some s → Rep s size [].
Proof.
  unfold NewStRingBuffer, make. intros H.
  destruct (Z.leb_spec 0 size); simpl in H; [|done].
  destruct (Z.leb_spec size max_len); simpl in H; [|done].
  injection H as <-. unfold Rep, live. simpl.
  rewrite len_replicate by done. split_and!; [|done..].
  split; simpl; rewrite ?len_replicate by done; try lia.
  destruct (Z.eqb_spec size 0) as [->|]; [by rewrite Z.mod_0_r|].
  by rewrite Z.mod_0_l.
Qed.

Lemma NewStRingBuffer_ok size :
  0 <= size <= max_len → is_Some (NewStRingBuffer size).
Proof.
  intros H. unfold NewStRingBuffer, make.
  destruct (Z.leb_spec 0 size); [|lia].
  destruct (Z.leb_spec size max_len); [|lia]. by eexists.
Qed.

(** The shape of a well-formed buffer: the four fields in terms of the
    first cursor, the storage and the live elements. *)
Lemma Rep_iff s c xs :
  Rep s c xs ↔
  ∃ st l, s = mk st ((st + len xs) mod len l) l (len xs) ∧
          len l = c ∧ c <= max_len ∧ len xs <= c ∧
          (0 <= st < c ∨ c = 0) ∧ ring l (st + 1) (length xs) = xs.
Proof.
  split.
  - intros HR. pose proof (Rep_length _ _ _ HR) as Hn.
    destruct HR as ([Hcap Hlen Hst He] & Hc & Hl).
    destruct s as [st e l n]. unfold live in Hl. simpl in *. subst c n e.
    exists st, l. split_and!; try done; try lia.
    by replace (Z.to_nat (len xs)) with (length xs) in Hl by (unfold len; lia).
  - intros (st & l & -> & Hc & Hcap & Hlen & Hst & Hl). subst c.
    pose proof (len_nonneg xs).
    split_and!; [split; simpl; try done; lia|done|].
    unfold live. simpl.
    by replace (Z.to_nat (len xs)) with (length xs) by (unfold len; lia).
Qed.

Lemma Rep_intro st e l n c xs :
  len l = c → c <= max_len → n = len xs → len xs <= c →
  0 <= st < c ∨ c = 0 → e = (st + len xs) mod c →
  ring l (st + 1) (length xs) = xs →
  Rep (mk st e l n) c xs.
Proof. intros <- ? -> ? ? -> ?. apply Rep_iff. by eexists _, _. Qed.

Ltac unfold_op :=
  unfold Push1, Unshift1, Pop, Shift, Full, Empty,
    set_start, set_end, set_lines, set_length; simpl.

Ltac nat_len := unfold len in *; lia.

(** [Push] on a buffer that is not full appends at the back. *)
Lemma Push1_grow s c xs v :
  Rep s c xs → len xs < c →
  ∃ s', Push1 v s = Some s' ∧ start s' = start s ∧ Rep s' c (xs ++ [v]).
Proof.
  intros (st & l & -> & Hc & Hcap & Hlen & Hst & Hl)%Rep_iff Hlt. subst c.
  pose proof max_len_small. pose proof (len_nonneg xs).
  assert (Hc : 0 < len l) by lia. destruct Hst as [Hst|]; [|lia].
  pose proof (Z.mod_pos_bound (st + len xs) _ Hc).
  unfold_op. destruct (Z.eqb_spec (len xs) (len l)); [lia|]. simpl.
  rewrite (int_add_small (len xs) 1) by lia.
  rewrite (mod_succ (mk st _ l _)) by (simpl; lia). simpl.
  rewrite store_ok by (by apply Z.mod_pos_bound).
  eexists; split_and!; [done..|].
  apply Rep_intro;
    rewrite ?len_app_1, ?length_app, ?Nat.add_1_r, ?len_insert; try lia.
  - rewrite Z.add_mod_idemp_l by lia. f_equal. lia.
  - change (Z.to_nat (?x mod len l)) with (slot l x).
    rewrite slot_add_mod.
    rewrite (slot_eq_shift l _ (st + 1 + Z.of_nat (length xs)) 0) by nat_len.
    rewrite ring_write_back by nat_len. by rewrite Hl.
Qed.

(** [Push] on a full buffer drops the front element, then appends. *)
Lemma Push1_full s c x xs v :
  Rep s c (x :: xs) → len (x :: xs) = c →
  ∃ s', Push1 v s = Some s' ∧ start s' = (start s + 1) mod c ∧
        Rep s' c (xs ++ [v]).
Proof.
  intros (st & l & -> & Hc & Hcap & Hlen & Hst & Hl)%Rep_iff Hfull. subst c.
  pose proof max_len_small. pose proof (len_nonneg xs).
  rewrite len_cons in *. simpl in Hl. rewrite ring_cons in Hl.
  injection Hl as Hx Hl.
  assert (Hc : 0 < len l) by lia. destruct Hst as [Hst|]; [|lia].
  unfold_op. destruct (Z.eqb_spec (len xs + 1) (len l)); [|lia]. simpl.
  rewrite (mod_succ (mk st _ l _)) by (simpl; lia). simpl.
  rewrite (mod_succ (mk _ _ l _)) by (simpl; by try apply Z.mod_pos_bound).
  simpl. rewrite store_ok by (by apply Z.mod_pos_bound).
  eexists; split_and!; [done..|].
  apply Rep_intro;
    rewrite ?len_app_1, ?length_app, ?Nat.add_1_r, ?len_insert; try lia.
  - left. by apply Z.mod_pos_bound.
  - rewrite !Z.add_mod_idemp_l by lia. f_equal. lia.
  - change (Z.to_nat (?x mod len l)) with (slot l x).
    rewrite (ring_base_mod_add _ (len l)), slot_add_mod by apply len_insert.
    rewrite (slot_eq_shift l _ (st + 1 + 1 + Z.of_nat (length xs)) 0)
      by nat_len.
    rewrite ring_write_back by nat_len. by rewrite Hl.
Qed.

(** [Pop] on a buffer that is not empty takes the back element. *)
Lemma Pop_back s c xs x :
  Rep s c (xs ++ [x]) → ∃ s', Pop s = Some (x, s') ∧ Rep s' c xs.
Proof.
  intros (st & l & -> & Hc & Hcap & Hlen & Hst & Hl)%Rep_iff. subst c.
  pose proof max_len_small. pose proof (len_nonneg xs).
  rewrite len_app_1 in *. rewrite length_app, Nat.add_1_r, ring_snoc in Hl.
  apply app_inj_tail in Hl as [Hl Hx].
  assert (Hc : 0 < len l) by lia. destruct Hst as [Hst|]; [|lia].
  pose proof (Z.mod_pos_bound (st + (len xs + 1)) _ Hc).
  unfold_op. destruct (Z.eqb_spec (len xs + 1) 0); [lia|]. simpl.
  rewrite (int_sub_small (len xs + 1) 1) by lia.
  rewrite load_ok, store_ok by done. simpl.
  rewrite (mod_pred (mk _ _ _ _)) by (simpl; by rewrite len_insert). simpl.
  change (Z.to_nat (?x mod len l)) with (slot l x).
  rewrite (slot_eq_shift l _ (st + 1 + Z.of_nat (length xs)) 0) by nat_len.
  rewrite Hx. eexists; split; [done|].
  apply Rep_intro; rewrite ?len_insert; try lia.
  - rewrite Zminus_mod_idemp_l. f_equal. lia.
  - rewrite ring_clear_back by nat_len. done.
Qed.

(** [Shift] on a buffer that is not empty takes the front element. *)
Lemma Shift_front s c x xs :
  Rep s c (x :: xs) → ∃ s', Shift s = Some (x, s') ∧ Rep s' c xs.
Proof.
  intros (st & l & -> & Hc & Hcap & Hlen & Hst & Hl)%Rep_iff. subst c.
  pose proof max_len_small. pose proof (len_nonneg xs).
  rewrite len_cons in *. simpl in Hl. rewrite ring_cons in Hl.
  injection Hl as Hx Hl.
  assert (Hc : 0 < len l) by lia. destruct Hst as [Hst|]; [|lia].
  unfold_op. destruct (Z.eqb_spec (len xs + 1) 0); [lia|]. simpl.
  rewrite (int_sub_small (len xs + 1) 1) by lia.
  rewrite (mod_succ (mk _ _ _ _)) by (simpl; lia). simpl.
  rewrite load_ok, store_ok by (by apply Z.mod_pos_bound). simpl.
  change (Z.to_nat (?x mod len l)) with (slot l x).
  rewrite Hx. eexists; split; [done|].
  apply Rep_intro; rewrite ?len_insert; try lia.
  - left. by apply Z.mod_pos_bound.
  - rewrite Z.add_mod_idemp_l by lia. f_equal. lia.
  - rewrite (ring_base_mod_add _ (len l)) by apply len_insert.
    rewrite (slot_eq_shift l _ (st + 1 + 1 - 1) 0) by lia.
    rewrite ring_clear_front by nat_len. done.
Qed.

(** [Unshift] on a buffer that is not full prepends at the front. *)
Lemma Unshift1_grow s c xs v :
  Rep s c xs → len xs < c →
  ∃ s', Unshift1 v s = Some s' ∧ Rep s' c (v :: xs).
Proof.
  intros (st & l & -> & Hc & Hcap & Hlen & Hst & Hl)%Rep_iff Hlt. subst c.
  pose proof max_len_small. pose proof (len_nonneg xs).
  assert (Hc : 0 < len l) by lia. destruct Hst as [Hst|]; [|lia].
  unfold_op. destruct (Z.eqb_spec (len xs) (len l)); [lia|]. simpl.
  rewrite (int_add_small (len xs) 1) by lia.
  rewrite store_ok by done. simpl.
  rewrite (mod_pred (mk _ _ _ _)) by (simpl; by rewrite len_insert). simpl.
  eexists; split; [done|].
  apply Rep_intro; rewrite ?len_cons, ?len_insert; simpl; try lia.
  - left. by apply Z.mod_pos_bound.
  - rewrite Z.add_mod_idemp_l by lia.
    apply (mod_eq_shift _ _ _ 0). lia.
  - rewrite (ring_base_mod_add _ (len l)) by apply len_insert.
    replace (st - 1 + 1) with (st + 1 - 1) by lia.
    rewrite <- (slot_small l st) by done.
    rewrite (slot_eq_shift l st (st + 1 - 1) 0) by lia.
    rewrite ring_write_front by nat_len. by rewrite Hl.
Qed.

(** [Unshift] on a full buffer drops the back element, then prepends. *)
Lemma Unshift1_full s c xs x v :
  Rep s c (xs ++ [x]) → len (xs ++ [x]) = c →
  ∃ s', Unshift1 v s = Some s' ∧ Rep s' c (v :: xs).
Proof.
  intros (st & l & -> & Hc & Hcap & Hlen & Hst & Hl)%Rep_iff Hfull. subst c.
  pose proof max_len_small. pose proof (len_nonneg xs).
  rewrite len_app_1 in *. rewrite length_app, Nat.add_1_r, ring_snoc in Hl.
  apply app_inj_tail in Hl as [Hl Hx].
  assert (Hc : 0 < len l) by lia. destruct Hst as [Hst|]; [|lia].
  unfold_op. destruct (Z.eqb_spec (len xs + 1) (len l)); [|lia]. simpl.
  rewrite (mod_pred (mk _ _ _ _)) by (simpl; by try apply Z.mod_pos_bound).
  simpl. rewrite store_ok by done. simpl.
  rewrite (mod_pred (mk _ _ _ _)) by (simpl; by rewrite len_insert). simpl.
  eexists; split; [done|].
  apply Rep_intro; rewrite ?len_cons, ?len_insert; simpl; try lia.
  - left. by apply Z.mod_pos_bound.
  - rewrite Zminus_mod_idemp_l, Z.add_mod_idemp_l by lia.
    apply (mod_eq_shift _ _ _ 0). lia.
  - rewrite (ring_base_mod_add _ (len l)) by apply len_insert.
    replace (st - 1 + 1) with (st + 1 - 1) by lia.
    rewrite <- (slot_small l st) by done.
    rewrite (slot_eq_shift l st (st + 1 - 1) 0) by lia.
    rewrite ring_write_front by nat_len. by rewrite Hl.
Qed.

(** ** Several values, several calls *)

(** One call with several values is the calls with one value each, in
    the order of the arguments. *)
Lemma Push_app vs ws s :
  Push (vs ++ ws) s = s' ← Push vs s; Push ws s'.
Proof.
  revert s. induction vs as [|v vs IH]; intros s; simpl; [done|].
  destruct (Push1 v s) as [s1|]; simpl; [apply IH|done].
Qed.

Lemma Unshift_app vs ws s :
  Unshift (vs ++ ws) s = s' ← Unshift vs s; Unshift ws s'.
Proof.
  revert s. induction vs as [|v vs IH]; intros s; simpl; [done|].
  destruct (Unshift1 v s) as [s1|]; simpl; [apply IH|done].
Qed.

Lemma Push_grow s c xs vs :
  Rep s c xs → len xs + len vs <= c →
  ∃ s', Push vs s = Some s' ∧ start s' = start s ∧ Rep s' c (xs ++ vs).
Proof.
  revert s xs. induction vs as [|v vs IH]; intros s xs HR Hle; simpl.
  - exists s. by rewrite app_nil_r.
  - rewrite len_cons in Hle. pose proof (len_nonneg vs).
    destruct (Push1_grow s c xs v HR) as (s1 & -> & Hst & HR1); [lia|].
    simpl. destruct (IH s1 (xs ++ [v]) HR1) as (s' & -> & Hst' & HR').
    { rewrite len_app_1. lia. }
    exists s'. rewrite <- app_assoc in HR'. split_and!; [done|congruence|done].
Qed.

Lemma Unshift_grow s c xs vs :
  Rep s c xs → len xs + len vs <= c →
  ∃ s', Unshift vs s = Some s' ∧ Rep s' c (reverse vs ++ xs).
Proof.
  revert s xs. induction vs as [|v vs IH]; intros s xs HR Hle; simpl.
  - by exists s.
  - rewrite len_cons in Hle. pose proof (len_nonneg vs).
    destruct (Unshift1_grow s c xs v HR) as (s1 & -> & HR1); [lia|].
    simpl. destruct (IH s1 (v :: xs) HR1) as (s' & -> & HR').
    { rewrite len_cons. lia. }
    exists s'. rewrite reverse_cons, <- app_assoc. done.
Qed.

Lemma Shift_n_front s c xs ys :
  Rep s c (xs ++ ys) →
  ∃ s', Shift_n (length xs) s = Some (xs, s') ∧ Rep s' c ys.
Proof.
  revert s. induction xs as [|x xs IH]; intros s HR; simpl.
  - by exists s.
  - destruct (Shift_front s c x (xs ++ ys) HR) as (s1 & -> & HR1). simpl.
    destruct (IH s1 HR1) as (s' & -> & HR'). simpl. by exists s'.
Qed.

Lemma Pop_n_back s c xs ys :
  Rep s c (xs ++ reverse ys) →
  ∃ s', Pop_n (length ys) s = Some (ys, s') ∧ Rep s' c xs.
Proof.
  revert s xs. induction ys as [|y ys IH]; intros s xs HR; simpl.
  - exists s. by rewrite app_nil_r in HR.
  - rewrite reverse_cons, app_assoc in HR.
    destruct (Pop_back s c _ y HR) as (s1 & -> & HR1). simpl.
    destruct (IH s1 xs HR1) as (s' & -> & HR'). simpl. by exists s'.
Qed.

Lemma Rep_nil_Empty s c : Rep s c [] → Empty s = true ∧ Length s = 0.
Proof.
  intros H%Rep_length. unfold Empty, Length. rewrite H. done.
Qed.

Lemma Rep_Full s c xs : Rep s c xs → len xs = c → Full s = true.
Proof.
  intros HR Hc. pose proof (Rep_length _ _ _ HR) as Hn.
  destruct HR as (_ & Hl & _). unfold Full. apply Z.eqb_eq. lia.
Qed.

(** A full buffer is determined by its first cursor and its contents. *)
Lemma Rep_full_inj s s' c xs :
  Rep s c xs → Rep s' c xs → len xs = c → start s = start s' → s = s'.
Proof.
  intros (st & l & -> & Hc & _ & _ & _ & Hl)%Rep_iff
         (st' & l' & -> & Hc' & _ & _ & _ & Hl')%Rep_iff Hfull Hst.
  simpl in Hst. subst st'.
  assert (Hlen : length l = length l') by nat_len.
  assert (length xs = length l) by nat_len.
  assert (l = l') as <-; [|done].
  apply (ring_full_inj l l' (st + 1)); [done|]. congruence.
Qed.

(** ** The test suite, replayed *)

Example TestInfo :
  (s0 ← NewStRingBuffer 5; Push ["1"; "2"; "3"; "4"; "5"] s0)
  = Some (mk 0 0 ["5"; "1"; "2"; "3"; "4"] 5).
Proof. reflexivity. Qed.

Example TestAddTake :
  (s ← NewStRingBuffer 3;
   s ← Push ["1"; "2"; "3"; "4"] s; '(out1, s) ← Pop_n 3 s;
   s ← Unshift ["4"; "3"; "2"; "1"] s; '(out2, s) ← Shift_n 3 s;
   s ← Push ["1"; "2"; "3"; "4"] s; '(out3, s) ← Shift_n 3 s;
   s ← Unshift ["4"; "3"; "2"; "1"] s; '(out4, s) ← Pop_n 3 s;
   Some (out1, out2, out3, out4, Empty s))
  = Some (["4"; "3"; "2"], ["1"; "2"; "3"], ["2"; "3"; "4"],
          ["3"; "2"; "1"], true).
Proof. vm_compute. reflexivity. Qed.

Example TestMapEach :
  (s0 ← NewStRingBuffer 3; s1 ← Push ["."; "."; "."] s0;
   '(c, s2) ← Map count_and_append 0%nat s1;
   '(c, s3) ← MapR count_and_append c s2;
   '(sum, s4) ← Each sum_up ""%string s3;
   '(sum, s5) ← EachR sum_up sum s4;
   Some (sum, live s5))
  = Some (".16.25.34.34.25.16"%string, [".16"; ".25"; ".34"]).
Proof. vm_compute. reflexivity. Qed.

(** ** The laws *)

(** C1, as stated, fails: on a buffer of capacity 2, [Unshift("a", "b")]
    followed by two calls of [Shift()] returns "b" and then "a". *)
Lemma Unshift_Shift_argument_order_fails :
  (s0 ← NewStRingBuffer 2; s1 ← Unshift ["a"; "b"] s0;
   '(out, _) ← Shift_n 2 s1; Some out) = Some ["b"; "a"]
  ∧ ¬ Unshift_Shift_argument_order.
Proof.
  split; [reflexivity|].
  intros H. destruct (H 2 ["a"; "b"] _ eq_refl) as (s1 & s2 & H1 & H2).
  - unfold len. simpl. lia.
  - vm_compute in H1. injection H1 as <-. vm_compute in H2. discriminate.
Qed.

(** C1, amended: for every capacity [c] and values [v1 .. vn] with
    [n <= c], [Unshift(v1, .., vn)] on an empty buffer of capacity [c]
    followed by [n] calls of [Shift()] yields [vn, .., v1], the reverse of
    the argument order, and leaves the buffer empty. *)
Theorem Unshift_Shift_inverse (c : Z) (vs : list string) (s0 : StRingBuffer) :
  NewStRingBuffer c = Some s0 → len vs <= c →
  ∃ s1 s2, Unshift vs s0 = Some s1 ∧
           Shift_n (length vs) s1 = Some (reverse vs, s2) ∧
           Empty s2 = true.
Proof.
  intros HR%Rep_New Hle.
  destruct (Unshift_grow s0 c [] vs HR) as (s1 & H1 & HR1).
  { unfold len at 1. simpl. lia. }
  destruct (Shift_n_front s1 c (reverse vs) [] HR1) as (s2 & H2 & HR2).
  rewrite length_reverse in H2.
  exists s1, s2. split_and!; [done..|]. by apply (Rep_nil_Empty s2 c).
Qed.

Lemma Unshift_Shift_inverse_witness :
  ∃ s1 s2, Unshift ["a"; "b"; "c"] (mk 0 0 [""; ""; ""] 0) = Some s1 ∧
           Shift_n 3 s1 = Some (["c"; "b"; "a"], s2) ∧
           Empty s2 = true.
Proof.
  apply (Unshift_Shift_inverse 3 ["a"; "b"; "c"]).
  - reflexivity.
  - unfold len. simpl. lia.
Defined.

(** C3: for every capacity [c] and values [v1 .. vn] with [n <= c],
    pushing them onto an empty buffer of capacity [c] and calling [Pop()]
    [n] times yields [vn, .., v1] and leaves the buffer empty. *)
Theorem Push_Pop_inverse (c : Z) (vs : list string) (s0 : StRingBuffer) :
  NewStRingBuffer c = Some s0 → len vs <= c →
  ∃ s1 s2, Push vs s0 = Some s1 ∧
           Pop_n (length vs) s1 = Some (reverse vs, s2) ∧
           Empty s2 = true ∧ Length s2 = 0 ∧ live s2 = [].
Proof.
  intros HR%Rep_New Hle.
  destruct (Push_grow s0 c [] vs HR) as (s1 & H1 & _ & HR1).
  { unfold len at 1. simpl. lia. }
  rewrite <- (reverse_involutive vs) in HR1.
  destruct (Pop_n_back s1 c [] (reverse vs) HR1) as (s2 & H2 & HR2).
  rewrite length_reverse in H2.
  exists s1, s2. split_and!; [done..| | |].
  - by apply (Rep_nil_Empty s2 c).
  - by apply (Rep_nil_Empty s2 c).
  - by destruct HR2 as (_ & _ & ?).
Qed.

Lemma Push_Pop_inverse_witness :
  ∃ s1 s2, Push ["a"; "b"; "c"] (mk 0 0 [""; ""; ""; ""] 0) = Some s1 ∧
           Pop_n 3 s1 = Some (["c"; "b"; "a"], s2) ∧
           Empty s2 = true ∧ Length s2 = 0 ∧ live s2 = [].
Proof.
  apply (Push_Pop_inverse 4 ["a"; "b"; "c"]).
  - reflexivity.
  - unfold len. simpl. lia.
Defined.

(** C4: for every capacity [c >= 1] and values [v1 .. v(c+1)], pushing
    them all onto an empty buffer of capacity [c] leaves exactly
    [v2 .. v(c+1)] live: the buffer is full, [c] calls of [Shift()] return
    them in that order and empty it, and the state the pushes end in is
    the same whatever [v1] was, so that no operation can tell [v1]. *)
Theorem Push_evicts_oldest (c : Z) (v1 : string) (vs : list string)
    (s0 : StRingBuffer) :
  NewStRingBuffer c = Some s0 → 1 <= c → len vs = c →
  ∃ s1, Push (v1 :: vs) s0 = Some s1 ∧
        live s1 = vs ∧ Full s1 = true ∧ Length s1 = c ∧
        (∃ s2, Shift_n (length vs) s1 = Some (vs, s2) ∧ Empty s2 = true) ∧
        (∀ v1' : string, Push (v1' :: vs) s0 = Some s1).
Proof.
  intros HR%Rep_New Hc Hlen.
  assert (Hrun : ∀ v : string, ∃ s1, Push (v :: vs) s0 = Some s1 ∧
            start s1 = (start s0 + 1) mod c ∧ Rep s1 c vs).
  { intros v. destruct vs as [|w ws _] using rev_ind.
    { unfold len in Hlen. simpl in Hlen. lia. }
    rewrite len_app_1 in Hlen. pose proof (len_nonneg ws).
    destruct (Push_grow s0 c [] (v :: ws) HR) as (s1 & H1 & Hst1 & HR1).
    { rewrite len_cons. unfold len at 1. simpl. lia. }
    simpl in HR1.
    destruct (Push1_full s1 c v ws w HR1) as (s2 & H2 & Hst2 & HR2).
    { rewrite len_cons. lia. }
    exists s2. split_and!; [|congruence|done].
    simpl in *. destruct (Push1 v s0) as [sa|]; [simpl in *|done].
    clear HR Hst1 HR1. revert sa H1. clear -H2.
    induction ws as [|u us IH]; intros sa H1; simpl in *.
    - injection H1 as ->. by rewrite H2.
    - destruct (Push1 u sa) as [sb|]; [simpl in *|done]. by apply IH. }
  destruct (Hrun v1) as (s1 & H1 & Hst1 & HR1).
  pose proof (Rep_length _ _ _ HR1) as Hn.
  exists s1. split_and!; [done| | | | |].
  - by destruct HR1 as (_ & _ & ?).
  - by apply (Rep_Full s1 c vs).
  - unfold Length. lia.
  - rewrite <- (app_nil_r vs) in HR1.
    destruct (Shift_n_front s1 c vs [] HR1) as (s2 & H2 & HR2).
    exists s2. split; [done|]. by apply (Rep_nil_Empty s2 c).
  - intros v1'. destruct (Hrun v1') as (s1' & H1' & Hst1' & HR1').
    rewrite H1'. f_equal. apply (Rep_full_inj s1' s1 c vs); congruence.
Qed.

Lemma Push_evicts_oldest_witness :
  ∃ s1, Push ["1"; "2"; "3"; "4"] (mk 0 0 [""; ""; ""] 0) = Some s1 ∧
        live s1 = ["2"; "3"; "4"] ∧ Full s1 = true ∧ Length s1 = 3 ∧
        (∃ s2, Shift_n 3 s1 = Some (["2"; "3"; "4"], s2) ∧ Empty s2 = true) ∧
        (∀ v1' : string,
           Push [v1'; "2"; "3"; "4"] (mk 0 0 [""; ""; ""] 0) = Some s1).
Proof.
  apply (Push_evicts_oldest 3 "1" ["2"; "3"; "4"]).
  - reflexivity.
  - lia.
  - reflexivity.
Defined.

Lemma Pop_empty s : length_ s = 0 → Pop s = Some ("", s).
Proof. unfold Pop, Empty. by intros ->. Qed.

Lemma Shift_empty s : length_ s = 0 → Shift s = Some ("", s).
Proof. unfold Shift, Empty. by intros ->. Qed.

(** C9: on a buffer whose occupancy is 0, [Pop()] and [Shift()] each
    return the empty string and hand back the very same state: cursors,
    occupancy and every slot of the storage. *)
Theorem Pop_Shift_empty (s : StRingBuffer) :
  Length s = 0 → Pop s = Some ("", s) ∧ Shift s = Some ("", s).
Proof.
  unfold Length. intros H. split; [by apply Pop_empty|by apply Shift_empty].
Qed.

Lemma Pop_Shift_empty_witness :
  Pop (mk 2 2 [""; "stale"; ""] 0) = Some ("", mk 2 2 [""; "stale"; ""] 0) ∧
  Shift (mk 2 2 [""; "stale"; ""] 0) = Some ("", mk 2 2 [""; "stale"; ""] 0).
Proof.
  apply (Pop_Shift_empty (mk 2 2 [""; "stale"; ""] 0)). reflexivity.
Defined.

(** ** Capacity 0 *)

Lemma Push1_cap0 s v : len (lines s) = 0 → length_ s = 0 → Push1 v s = None.
Proof.
  intros Hc Hn. unfold Push1, Full, mod_, int_rem. rewrite Hc, Hn. done.
Qed.

Lemma Unshift1_cap0 s v :
  len (lines s) = 0 → length_ s = 0 → Unshift1 v s = None.
Proof.
  intros Hc Hn. unfold Unshift1, Full, mod_, int_rem. rewrite Hc, Hn. done.
Qed.

(** C2 does not hold of the code: on the buffer [NewStRingBuffer(0)]
    returns, [Push] and [Unshift] of one value or more panic ([s.mod]
    divides by [len(s.lines)], which is 0), while the calls that write
    nothing ([Push()], [Pop()], [Shift()]) return normally. *)
Theorem capacity_0_Push_panics (v : string) (vs : list string) :
  ∃ s0, NewStRingBuffer 0 = Some s0 ∧
        Full s0 = true ∧ Empty s0 = true ∧
        Push (v :: vs) s0 = None ∧ Unshift (v :: vs) s0 = None ∧
        Push [] s0 = Some s0 ∧ Pop s0 = Some ("", s0) ∧
        Shift s0 = Some ("", s0).
Proof.
  eexists. split; [reflexivity|]. split_and!; try reflexivity.
Qed.

(** ** Reachable buffers *)

Lemma Rep_cap0 s xs : Rep s 0 xs → len (lines s) = 0 ∧ length_ s = 0.
Proof.
  intros HR. pose proof (Rep_length _ _ _ HR). pose proof (Rep_le _ _ _ HR).
  pose proof (len_nonneg xs). destruct HR as (_ & ? & _). lia.
Qed.

Lemma Push1_Rep s c xs v s' :
  Rep s c xs → Push1 v s = Some s' → ∃ xs', Rep s' c xs'.
Proof.
  intros HR H. pose proof (Rep_le _ _ _ HR) as Hle.
  destruct (decide (len xs < c)) as [Hlt|Hge].
  - destruct (Push1_grow s c xs v HR Hlt) as (s1 & H1 & _ & HR1).
    exists (xs ++ [v]). congruence.
  - destruct xs as [|x xs].
    + assert (c = 0) as -> by (unfold len in *; simpl in *; lia).
      apply Rep_cap0 in HR as [? ?]. by rewrite Push1_cap0 in H.
    + destruct (Push1_full s c x xs v HR) as (s1 & H1 & _ & HR1); [lia|].
      exists (xs ++ [v]). congruence.
Qed.

Lemma Push_Rep s c xs vs s' :
  Rep s c xs → Push vs s = Some s' → ∃ xs', Rep s' c xs'.
Proof.
  revert s xs. induction vs as [|v vs IH]; intros s xs HR H; simpl in H.
  - injection H as <-. by exists xs.
  - destruct (Push1 v s) as [s1|] eqn:H1; [simpl in H|done].
    destruct (Push1_Rep _ _ _ _ _ HR H1) as (xs1 & HR1). by eapply IH.
Qed.

Lemma Unshift1_Rep s c xs v s' :
  Rep s c xs → Unshift1 v s = Some s' → ∃ xs', Rep s' c xs'.
Proof.
  intros HR H. pose proof (Rep_le _ _ _ HR) as Hle.
  destruct (decide (len xs < c)) as [Hlt|Hge].
  - destruct (Unshift1_grow s c xs v HR Hlt) as (s1 & H1 & HR1).
    exists (v :: xs). congruence.
  - destruct xs as [|x xs _] using rev_ind.
    + assert (c = 0) as -> by (unfold len in *; simpl in *; lia).
      apply Rep_cap0 in HR as [? ?]. by rewrite Unshift1_cap0 in H.
    + destruct (Unshift1_full s c xs x v HR) as (s1 & H1 & HR1); [lia|].
      exists (v :: xs). congruence.
Qed.

Lemma Unshift_Rep s c xs vs s' :
  Rep s c xs → Unshift vs s = Some s' → ∃ xs', Rep s' c xs'.
Proof.
  revert s xs. induction vs as [|v vs IH]; intros s xs HR H; simpl in H.
  - injection H as <-. by exists xs.
  - destruct (Unshift1 v s) as [s1|] eqn:H1; [simpl in H|done].
    destruct (Unshift1_Rep _ _ _ _ _ HR H1) as (xs1 & HR1). by eapply IH.
Qed.

Lemma Pop_Rep s c xs r s' :
  Rep s c xs → Pop s = Some (r, s') → ∃ xs', Rep s' c xs'.
Proof.
  intros HR H. destruct xs as [|x xs _] using rev_ind.
  - destruct (Rep_nil_Empty _ _ HR) as [_ Hn].
    rewrite (Pop_empty s Hn) in H.
    injection H as _ <-. by exists [].
  - destruct (Pop_back s c xs x HR) as (s1 & H1 & HR1).
    exists xs. congruence.
Qed.

Lemma Shift_Rep s c xs r s' :
  Rep s c xs → Shift s = Some (r, s') → ∃ xs', Rep s' c xs'.
Proof.
  intros HR H. destruct xs as [|x xs].
  - destruct (Rep_nil_Empty _ _ HR) as [_ Hn].
    rewrite (Shift_empty s Hn) in H.
    injection H as _ <-. by exists [].
  - destruct (Shift_front s c x xs HR) as (s1 & H1 & HR1).
    exists xs. congruence.
Qed.

(** ** [Map] and [MapR] *)

(** The loop of [Map] with [xs] still to visit and the results [done]
    already moved to the back. *)
Lemma Map_loop_spec {W} (f : closure W) c xs done w s :
  Rep s c (xs ++ done) →
  ∃ s', Map_loop f (length xs) w s = Some ((thread f xs w).2, s') ∧
        Rep s' c (done ++ (thread f xs w).1).
Proof.
  revert done w s. induction xs as [|x xs IH]; intros done w s HR; simpl.
  - exists s. by rewrite app_nil_r.
  - pose proof (Rep_le _ _ _ HR) as Hle. simpl in Hle. rewrite len_cons in Hle.
    destruct (Shift_front s c x (xs ++ done) HR) as (s1 & -> & HR1). simpl.
    destruct (f x w) as [y w1].
    destruct (Push1_grow s1 c _ y HR1) as (s2 & -> & _ & HR2); [lia|]. simpl.
    rewrite <- app_assoc in HR2.
    destruct (IH (done ++ [y]) w1 s2 HR2) as (s' & -> & HR').
    destruct (thread f xs w1) as [ys w2]. simpl in *.
    exists s'. by rewrite <- app_assoc in HR'.
Qed.

(** The loop of [MapR] with [reverse rxs] still to visit, from the back,
    and the results [done] already moved to the front. *)
Lemma MapR_loop_spec {W} (f : closure W) c rxs done w s :
  Rep s c (done ++ reverse rxs) →
  ∃ s', MapR_loop f (length rxs) w s = Some ((thread f rxs w).2, s') ∧
        Rep s' c (reverse (thread f rxs w).1 ++ done).
Proof.
  revert done w s. induction rxs as [|x r IH]; intros done w s HR; simpl.
  - exists s. by rewrite app_nil_r in HR.
  - rewrite reverse_cons, app_assoc in HR.
    pose proof (Rep_le _ _ _ HR) as Hle. rewrite len_app_1 in Hle.
    destruct (Pop_back s c _ x HR) as (s1 & -> & HR1). simpl.
    destruct (f x w) as [y w1].
    destruct (Unshift1_grow s1 c _ y HR1) as (s2 & -> & HR2); [lia|]. simpl.
    destruct (IH (y :: done) w1 s2 HR2) as (s' & -> & HR').
    destruct (thread f r w1) as [zs w2]. simpl in *.
    exists s'. by rewrite reverse_cons, <- app_assoc.
Qed.

Lemma Map_Rep {W} (f : closure W) c xs w s :
  Rep s c xs →
  ∃ s', Map f w s = Some ((thread f xs w).2, s') ∧
        Rep s' c (thread f xs w).1.
Proof.
  intros HR. unfold Map, Length. rewrite (Rep_length _ _ _ HR).
  replace (Z.to_nat (len xs)) with (length xs) by nat_len.
  rewrite <- (app_nil_r xs) in HR.
  apply (Map_loop_spec f c xs [] w s HR).
Qed.

Lemma MapR_Rep {W} (f : closure W) c xs w s :
  Rep s c xs →
  ∃ s', MapR f w s = Some ((thread_rev f xs w).2, s') ∧
        Rep s' c (thread_rev f xs w).1.
Proof.
  intros HR. unfold MapR, Length. rewrite (Rep_length _ _ _ HR).
  replace (Z.to_nat (len xs)) with (length (reverse xs))
    by (rewrite length_reverse; nat_len).
  rewrite <- (reverse_involutive xs) in HR.
  destruct (MapR_loop_spec f c (reverse xs) [] w s HR) as (s' & H & HR').
  rewrite app_nil_r in HR'. unfold thread_rev.
  destruct (thread f (reverse xs) w) as [zs w']. by exists s'.
Qed.

Lemma reachable_Rep s : reachable s → ∃ c xs, Rep s c xs.
Proof.
  induction 1 as [size s H | vs s s' _ (c & xs & HR) H
    | s r s' _ (c & xs & HR) H | vs s s' _ (c & xs & HR) H
    | s r s' _ (c & xs & HR) H | W f w s w' s' _ (c & xs & HR) H
    | W f w s w' s' _ (c & xs & HR) H].
  - exists size, []. by apply Rep_New.
  - exists c. by eapply Push_Rep.
  - exists c. by eapply Pop_Rep.
  - exists c. by eapply Unshift_Rep.
  - exists c. by eapply Shift_Rep.
  - destruct (Map_Rep f c xs w s HR) as (s1 & H1 & HR1).
    exists c, (thread f xs w).1. congruence.
  - destruct (MapR_Rep f c xs w s HR) as (s1 & H1 & HR1).
    exists c, (thread_rev f xs w).1. congruence.
Qed.

Lemma Rep_live s c xs : Rep s c xs → live s = xs.
Proof. by intros (_ & _ & ?). Qed.

(** C5: on every reachable buffer, full ones included, [Map(f)]
    returns, and the buffer it leaves has the results of [f] on the live
    elements [x1 .. xn] as its live elements, in the same front-to-back
    order, [f] having been applied to [x1] first and [xn] last (the
    closure's environment is threaded in that order); occupancy and
    capacity are as before. *)
Theorem Map_front_to_back {W : Type} (f : closure W) (w : W)
    (s : StRingBuffer) :
  reachable s →
  ∃ s', Map f w s = Some ((thread f (live s) w).2, s') ∧
        live s' = (thread f (live s) w).1 ∧
        length (live s') = length (live s) ∧
        Length s' = Length s ∧ Capacity s' = Capacity s ∧
        Full s' = Full s.
Proof.
  intros (c & xs & HR)%reachable_Rep.
  destruct (Map_Rep f c xs w s HR) as (s' & H & HR').
  rewrite (Rep_live _ _ _ HR). exists s'.
  assert (Hlen : length (thread f xs w).1 = length xs).
  { clear. revert w. induction xs as [|x xs IH]; intros w; simpl; [done|].
    destruct (f x w) as [y w1]. specialize (IH w1).
    destruct (thread f xs w1). simpl in *. lia. }
  assert (HL : Length s' = Length s).
  { unfold Length. rewrite (Rep_length _ _ _ HR), (Rep_length _ _ _ HR').
    unfold len. by rewrite Hlen. }
  assert (HC : Capacity s' = Capacity s).
  { unfold Capacity. destruct HR as (_ & -> & _).
    by destruct HR' as (_ & ? & _). }
  split_and!; try done.
  - by apply Rep_live in HR'.
  - by rewrite (Rep_live _ _ _ HR').
  - unfold Full. unfold Length, Capacity in *. by rewrite HL, HC.
Qed.

Lemma Map_front_to_back_witness :
  ∃ s', Map mark_and_log [] (mk 0 0 ["c"; "a"; "b"] 3)
          = Some (["a"; "b"; "c"], s') ∧
        live s' = ["a!"; "b!"; "c!"] ∧
        length (live s') = 3%nat ∧
        Length s' = 3 ∧ Capacity s' = 3 ∧ Full s' = true.
Proof.
  apply (Map_front_to_back mark_and_log [] (mk 0 0 ["c"; "a"; "b"] 3)).
  apply (reach_Push ["a"; "b"; "c"] (mk 0 0 [""; ""; ""] 0)).
  - apply (reach_New 3). reflexivity.
  - reflexivity.
Defined.

(** C10: the empty string [Pop()] and [Shift()] return does not tell an
    empty buffer from one that holds an empty string: [Pop()] returns ""
    on a non-empty buffer whose back element is "", [Shift()] on one whose
    front element is "", and there are an empty and a non-empty reachable
    buffer on which both calls return the same "". *)
Theorem empty_string_ambiguous :
  (∀ s, reachable s → last (live s) = Some "" →
        Empty s = false ∧ ∃ s', Pop s = Some ("", s')) ∧
  (∀ s, reachable s → head (live s) = Some "" →
        Empty s = false ∧ ∃ s', Shift s = Some ("", s')) ∧
  (∃ s1 s2, reachable s1 ∧ reachable s2 ∧
            Empty s1 = true ∧ Empty s2 = false ∧
            fst <$> Pop s1 = Some "" ∧ fst <$> Pop s2 = Some "" ∧
            fst <$> Shift s1 = Some "" ∧ fst <$> Shift s2 = Some "").
Proof.
  assert (Hne : ∀ s c xs, Rep s c xs → xs ≠ [] → Empty s = false).
  { intros s c xs HR Hxs. unfold Empty. rewrite (Rep_length _ _ _ HR).
    apply Z.eqb_neq. destruct xs; [done|]. rewrite len_cons.
    pose proof (len_nonneg xs). lia. }
  split_and!.
  - intros s (c & xs & HR)%reachable_Rep. rewrite (Rep_live _ _ _ HR).
    intros Hl. destruct xs as [|x xs _] using rev_ind; [done|].
    rewrite last_snoc in Hl. injection Hl as ->.
    split; [apply (Hne s c _ HR); by destruct xs|].
    destruct (Pop_back s c xs "" HR) as (s' & H & _). by exists s'.
  - intros s (c & xs & HR)%reachable_Rep. rewrite (Rep_live _ _ _ HR).
    intros Hl. destruct xs as [|x xs]; [done|]. injection Hl as ->.
    split; [by apply (Hne s c _ HR)|].
    destruct (Shift_front s c "" xs HR) as (s' & H & _). by exists s'.
  - exists (mk 0 0 [""] 0), (mk 0 0 [""] 1). split_and!; try reflexivity.
    + by apply (reach_New 1).
    + apply (reach_Push [""] (mk 0 0 [""] 0)); [by apply (reach_New 1)|done].
Qed.

Lemma empty_string_ambiguous_witness :
  Empty (mk 0 1 [""; ""] 1) = false ∧
  ∃ s', Pop (mk 0 1 [""; ""] 1) = Some ("", s').
Proof.
  apply (proj1 empty_string_ambiguous).
  - apply (reach_Push [""] (mk 0 0 [""; ""] 0)).
    + apply (reach_New 2). reflexivity.
    + reflexivity.
  - reflexivity.
Defined.

End RingA_Laws.

(** * Revision B: representation invariant and the deque it implements *)

Module RingB_Laws.
Import RingB.

Ltac nat_len := unfold len, slice_len in *; lia.

(** ** Slices and the store *)

Lemma length_read h sl : valid h sl → length (read h sl) = slen sl.
Proof.
  intros (a & Ha & Hoff & Hlen & _). unfold read. rewrite Ha. simpl.
  rewrite length_take, length_drop. lia.
Qed.

Lemma len_read h sl : valid h sl → len (read h sl) = slice_len sl.
Proof. intros H. unfold len, slice_len. by rewrite length_read. Qed.

Lemma index_ok sl i h :
  valid h sl → 0 <= i < slice_len sl →
  index sl i h = Some (default "" (read h sl !! Z.to_nat i)).
Proof.
  intros Hv Hi. unfold index.
  destruct (Z.leb_spec 0 i); [|lia].
  destruct (Z.ltb_spec i (slice_len sl)); [|lia]. simpl.
  destruct (lookup_lt_is_Some_2 (read h sl) (Z.to_nat i)) as [x ->]; [|done].
  rewrite length_read by done. nat_len.
Qed.

Lemma read_alter_insert sl (i : nat) v h :
  valid h sl → (i < slen sl)%nat →
  read (alter (λ a, <[(off sl + i)%nat := v]> a) (arr sl) h) sl
  = <[i := v]> (read h sl).
Proof.
  intros (a & Ha & Hoff & Hlen & _) Hi. unfold read.
  rewrite list_lookup_alter_eq, Ha. simpl.
  rewrite drop_insert_ge by lia. rewrite take_insert_lt by lia.
  do 2 f_equal. lia.
Qed.

Lemma valid_alter f sl sl' h :
  (∀ a, length (f a) = length a) →
  valid h sl → valid (alter f (arr sl') h) sl.
Proof.
  intros Hf (a & Ha & Hoff & Hlen & Hmax).
  destruct (decide (arr sl' = arr sl)) as [E|E].
  - exists (f a). rewrite E, list_lookup_alter_eq, Ha, Hf. done.
  - exists a. by rewrite list_lookup_alter_ne.
Qed.

Lemma assign_ok sl i v h :
  valid h sl → 0 <= i < slice_len sl →
  ∃ h', assign sl i v h = Some h' ∧
        read h' sl = <[Z.to_nat i := v]> (read h sl) ∧
        valid h' sl ∧ length h' = length h.
Proof.
  intros Hv Hi. unfold assign.
  destruct (Z.leb_spec 0 i); [|lia].
  destruct (Z.ltb_spec i (slice_len sl)); [|lia]. simpl.
  eexists; split_and!; [done| | |].
  - apply read_alter_insert; [done|nat_len].
  - apply valid_alter; [|done]. intros a. apply length_insert.
  - apply length_alter.
Qed.

Lemma valid_app h h2 sl : valid h sl → valid (h ++ h2) sl.
Proof.
  intros (a & Ha & ?). exists a. split; [|done].
  by apply lookup_app_l_Some.
Qed.

Lemma read_app h h2 sl : valid h sl → read (h ++ h2) sl = read h sl.
Proof.
  intros (a & Ha & _). unfold read.
  by rewrite (lookup_app_l_Some _ _ _ _ Ha), Ha.
Qed.

(** ** The cursors *)

Lemma mod_succ_B s x :
  0 < slice_len (lines s) <= max_len → 0 <= x < slice_len (lines s) →
  mod_ s (int_add x 1) = Some ((x + 1) mod slice_len (lines s)).
Proof.
  intros Hc Hx. pose proof max_len_small. unfold mod_.
  rewrite (int_add_small x 1) by lia.
  apply int_rem_add_mod; lia.
Qed.

Lemma mod_pred_B s x :
  0 < slice_len (lines s) <= max_len → 0 <= x < slice_len (lines s) →
  mod_ s (int_sub x 1) = Some ((x - 1) mod slice_len (lines s)).
Proof.
  intros Hc Hx. pose proof max_len_small. unfold mod_.
  rewrite (int_sub_small x 1) by lia.
  apply int_rem_add_mod; lia.
Qed.

Lemma Rep_length_B s h c xs : Rep s h c xs → length_ s = len xs.
Proof.
  intros (HI & _ & <-). unfold live, len. rewrite length_ring.
  destruct HI. lia.
Qed.

Lemma Rep_le_B s h c xs : Rep s h c xs → len xs <= c.
Proof.
  intros H. rewrite <- (Rep_length_B _ _ _ _ H).
  destruct H as (HI & <- & _). destruct HI. lia.
Qed.

Lemma Rep_live_B s h c xs : Rep s h c xs → live s h = xs.
Proof. by intros (_ & _ & ?). Qed.

Lemma Rep_elim s h c xs :
  Rep s h c xs →
  ∃ st sl, s = mk st ((st + len xs) mod c) sl (len xs) ∧
           valid h sl ∧ slice_len sl = c ∧ len (read h sl) = c ∧
           c <= max_len ∧ len xs <= c ∧ (0 <= st < c ∨ c = 0) ∧
           ring (read h sl) st (length xs) = xs.
Proof.
  intros HR. pose proof (Rep_length_B _ _ _ _ HR) as Hn.
  destruct HR as ([Hv Hlen Hst He] & Hc & Hl).
  destruct s as [st e sl n]. unfold live in Hl. simpl in *. subst c n e.
  exists st, sl. split_and!; try done; try lia.
  - by apply len_read.
  - by destruct Hv as (_ & _ & _ & _ & ?).
  - by replace (Z.to_nat (len xs)) with (length xs) in Hl by nat_len.
Qed.

Lemma Rep_intro_B st e sl n h c xs :
  valid h sl → slice_len sl = c → n = len xs → len xs <= c →
  0 <= st < c ∨ c = 0 → e = (st + len xs) mod c →
  ring (read h sl) st (length xs) = xs →
  Rep (mk st e sl n) h c xs.
Proof.
  intros Hv <- -> ? ? -> ?. pose proof (len_nonneg xs).
  split_and!; [split; simpl; try done; lia|done|].
  unfold live. simpl.
  by replace (Z.to_nat (len xs)) with (length xs) by nat_len.
Qed.

Ltac unfold_op :=
  unfold Push1, Unshift1, Pop, Shift, Full, Empty,
    set_start, set_end, set_length; simpl.

(** [Push] on a buffer that is not full appends at the back. *)
Lemma Push1_grow_B s h c xs v :
  Rep s h c xs → len xs < c →
  ∃ s' h', Push1 v s h = Some (s', h') ∧ Rep s' h' c (xs ++ [v]) ∧
           length h' = length h.
Proof.
  intros (st & sl & -> & Hv & Hc & Hr & Hcap & Hlen & Hst & Hl)%Rep_elim Hlt.
  pose proof max_len_small. pose proof (len_nonneg xs).
  assert (Hc0 : 0 < c) by lia. destruct Hst as [Hst|]; [|lia].
  pose proof (Z.mod_pos_bound (st + len xs) _ Hc0).
  unfold_op. rewrite Hc. destruct (Z.eqb_spec (len xs) c); [lia|]. simpl.
  rewrite (int_add_small (len xs) 1) by lia.
  destruct (assign_ok sl ((st + len xs) mod c) v h Hv)
    as (h' & -> & Hr' & Hv' & Hh'); [lia|]. simpl.
  rewrite (mod_succ_B (mk _ _ sl _)) by (simpl; lia). simpl. rewrite Hc.
  eexists _, h'; split_and!; [done| |done].
  apply Rep_intro_B; rewrite ?len_app_1, ?length_app, ?Nat.add_1_r; try done;
    try lia.
  - rewrite Z.add_mod_idemp_l by lia. f_equal. lia.
  - rewrite Hr'. rewrite <- Hr.
    change (Z.to_nat (?x mod len ?l)) with (slot l x).
    rewrite (slot_eq_shift _ _ (st + Z.of_nat (length xs)) 0) by nat_len.
    rewrite ring_write_back by nat_len. by rewrite Hl.
Qed.

(** [Push] on a full buffer drops the front element, then appends. *)
Lemma Push1_full_B s h c x xs v :
  Rep s h c (x :: xs) → len (x :: xs) = c →
  ∃ s' h', Push1 v s h = Some (s', h') ∧ Rep s' h' c (xs ++ [v]) ∧
           length h' = length h.
Proof.
  intros (st & sl & -> & Hv & Hc & Hr & Hcap & Hlen & Hst & Hl)%Rep_elim Hfull.
  pose proof max_len_small. pose proof (len_nonneg xs).
  assert (Hslot : ∀ x, Z.to_nat (x mod c) = slot (read h sl) x)
    by (intros; unfold slot; by rewrite Hr).
  rewrite len_cons in *. simpl in Hl. rewrite ring_cons in Hl.
  injection Hl as Hx Hl.
  assert (Hc0 : 0 < c) by lia. destruct Hst as [Hst|]; [|lia].
  pose proof (Z.mod_pos_bound (st + (len xs + 1)) _ Hc0).
  unfold_op. rewrite Hc. destruct (Z.eqb_spec (len xs + 1) c); [|lia]. simpl.
  rewrite (mod_succ_B (mk _ _ sl _)) by (simpl; lia). simpl. rewrite Hc.
  destruct (assign_ok sl ((st + (len xs + 1)) mod c) v h Hv)
    as (h' & -> & Hr' & Hv' & Hh'); [lia|]. simpl.
  rewrite (mod_succ_B (mk _ _ sl _)) by (simpl; lia). simpl. rewrite Hc.
  eexists _, h'; split_and!; [done| |done].
  apply Rep_intro_B; rewrite ?len_app_1, ?length_app, ?Nat.add_1_r; try done;
    try lia.
  - left. by apply Z.mod_pos_bound.
  - rewrite !Z.add_mod_idemp_l by lia. f_equal. lia.
  - rewrite Hr', Hslot.
    rewrite ring_base_mod by (rewrite len_insert; lia).
    rewrite (slot_eq_shift _ _ (st + 1 + Z.of_nat (length xs)) 0) by nat_len.
    rewrite ring_write_back by nat_len. by rewrite Hl.
Qed.

(** [Pop] on a buffer that is not empty takes the back element. *)
Lemma Pop_back_B s h c xs x :
  Rep s h c (xs ++ [x]) →
  ∃ s' h', Pop s h = Some (x, s', h') ∧ Rep s' h' c xs ∧
           length h' = length h.
Proof.
  intros (st & sl & -> & Hv & Hc & Hr & Hcap & Hlen & Hst & Hl)%Rep_elim.
  pose proof max_len_small. pose proof (len_nonneg xs).
  assert (Hslot : ∀ x, Z.to_nat (x mod c) = slot (read h sl) x)
    by (intros; unfold slot; by rewrite Hr).
  rewrite len_app_1 in *. rewrite length_app, Nat.add_1_r, ring_snoc in Hl.
  apply app_inj_tail in Hl as [Hl Hx].
  assert (Hc0 : 0 < c) by lia. destruct Hst as [Hst|]; [|lia].
  pose proof (Z.mod_pos_bound (st + (len xs + 1)) _ Hc0).
  unfold_op. destruct (Z.eqb_spec (len xs + 1) 0); [lia|]. simpl.
  rewrite (int_sub_small (len xs + 1) 1) by lia.
  rewrite (mod_pred_B (mk _ _ sl _)) by (simpl; lia). simpl. rewrite Hc.
  rewrite Zminus_mod_idemp_l.
  replace (st + (len xs + 1) - 1) with (st + len xs) by lia.
  pose proof (Z.mod_pos_bound (st + len xs) _ Hc0).
  rewrite index_ok by (done || lia). simpl.
  destruct (assign_ok sl ((st + len xs) mod c) "" h Hv)
    as (h' & -> & Hr' & Hv' & Hh'); [lia|]. simpl.
  rewrite Hslot in *. change (len xs) with (Z.of_nat (length xs)) in Hr'.
  change (slot ?l (st + len xs)) with (slot l (st + Z.of_nat (length xs))).
  rewrite Hx.
  eexists _, h'; split_and!; [done| |done].
  apply Rep_intro_B; try done; try lia.
  rewrite Hr'. rewrite ring_clear_back by nat_len. done.
Qed.

(** [Shift] on a buffer that is not empty takes the front element. *)
Lemma Shift_front_B s h c x xs :
  Rep s h c (x :: xs) →
  ∃ s' h', Shift s h = Some (x, s', h') ∧ Rep s' h' c xs ∧
           length h' = length h.
Proof.
  intros (st & sl & -> & Hv & Hc & Hr & Hcap & Hlen & Hst & Hl)%Rep_elim.
  pose proof max_len_small. pose proof (len_nonneg xs).
  assert (Hslot : ∀ x, Z.to_nat (x mod c) = slot (read h sl) x)
    by (intros; unfold slot; by rewrite Hr).
  rewrite len_cons in *. simpl in Hl. rewrite ring_cons in Hl.
  injection Hl as Hx Hl.
  assert (Hc0 : 0 < c) by lia. destruct Hst as [Hst|]; [|lia].
  unfold_op. destruct (Z.eqb_spec (len xs + 1) 0); [lia|]. simpl.
  rewrite (int_sub_small (len xs + 1) 1) by lia.
  rewrite index_ok by (done || lia). simpl.
  destruct (assign_ok sl st "" h Hv)
    as (h' & -> & Hr' & Hv' & Hh'); [lia|]. simpl.
  rewrite (mod_succ_B (mk _ _ sl _)) by (simpl; lia). simpl. rewrite Hc.
  rewrite <- (slot_small (read h sl) st) by lia. rewrite Hx.
  eexists _, h'; split_and!; [done| |done].
  apply Rep_intro_B; try done; try lia.
  - left. by apply Z.mod_pos_bound.
  - rewrite Z.add_mod_idemp_l by lia. f_equal. lia.
  - rewrite Hr'. rewrite ring_base_mod by (rewrite len_insert; lia).
    rewrite <- (slot_small (read h sl) st) by lia.
    rewrite (slot_eq_shift _ st (st + 1 - 1) 0) by lia.
    rewrite ring_clear_front by nat_len. done.
Qed.

(** [Unshift] on a buffer that is not full prepends at the front. *)
Lemma Unshift1_grow_B s h c xs v :
  Rep s h c xs → len xs < c →
  ∃ s' h', Unshift1 v s h = Some (s', h') ∧ Rep s' h' c (v :: xs) ∧
           length h' = length h.
Proof.
  intros (st & sl & -> & Hv & Hc & Hr & Hcap & Hlen & Hst & Hl)%Rep_elim Hlt.
  pose proof max_len_small. pose proof (len_nonneg xs).
  assert (Hslot : ∀ x, Z.to_nat (x mod c) = slot (read h sl) x)
    by (intros; unfold slot; by rewrite Hr).
  assert (Hc0 : 0 < c) by lia. destruct Hst as [Hst|]; [|lia].
  pose proof (Z.mod_pos_bound (st - 1) _ Hc0).
  unfold_op. rewrite Hc. destruct (Z.eqb_spec (len xs) c); [lia|]. simpl.
  rewrite (int_add_small (len xs) 1) by lia.
  rewrite (mod_pred_B (mk _ _ sl _)) by (simpl; lia). simpl. rewrite Hc.
  destruct (assign_ok sl ((st - 1) mod c) v h Hv)
    as (h' & -> & Hr' & Hv' & Hh'); [lia|]. simpl.
  eexists _, h'; split_and!; [done| |done].
  apply Rep_intro_B; rewrite ?len_cons; simpl; try done; try lia.
  - rewrite Z.add_mod_idemp_l by lia. apply (mod_eq_shift _ _ _ 0). lia.
  - rewrite Hr', Hslot.
    rewrite ring_base_mod by (rewrite len_insert; lia).
    rewrite ring_write_front by nat_len. by rewrite Hl.
Qed.

(** [Unshift] on a full buffer drops the back element, then prepends. *)
Lemma Unshift1_full_B s h c xs x v :
  Rep s h c (xs ++ [x]) → len (xs ++ [x]) = c →
  ∃ s' h', Unshift1 v s h = Some (s', h') ∧ Rep s' h' c (v :: xs) ∧
           length h' = length h.
Proof.
  intros (st & sl & -> & Hv & Hc & Hr & Hcap & Hlen & Hst & Hl)%Rep_elim Hfull.
  pose proof max_len_small. pose proof (len_nonneg xs).
  assert (Hslot : ∀ x, Z.to_nat (x mod c) = slot (read h sl) x)
    by (intros; unfold slot; by rewrite Hr).
  rewrite len_app_1 in *. rewrite length_app, Nat.add_1_r, ring_snoc in Hl.
  apply app_inj_tail in Hl as [Hl Hx].
  assert (Hc0 : 0 < c) by lia. destruct Hst as [Hst|]; [|lia].
  pose proof (Z.mod_pos_bound (st - 1) _ Hc0).
  pose proof (Z.mod_pos_bound (st + (len xs + 1)) _ Hc0).
  unfold_op. rewrite Hc. destruct (Z.eqb_spec (len xs + 1) c); [|lia]. simpl.
  rewrite (mod_pred_B (mk _ _ sl _)) by (simpl; lia). simpl. rewrite Hc.
  rewrite (mod_pred_B (mk _ _ sl _)) by (simpl; lia). simpl. rewrite Hc.
  destruct (assign_ok sl ((st - 1) mod c) v h Hv)
    as (h' & -> & Hr' & Hv' & Hh'); [lia|]. simpl.
  eexists _, h'; split_and!; [done| |done].
  apply Rep_intro_B; rewrite ?len_cons; simpl; try done; try lia.
  - rewrite Zminus_mod_idemp_l, Z.add_mod_idemp_l by lia.
    apply (mod_eq_shift _ _ _ 0). lia.
  - rewrite Hr', Hslot.
    rewrite ring_base_mod by (rewrite len_insert; lia).
    rewrite ring_write_front by nat_len. by rewrite Hl.
Qed.

(** ** Walks that do not wrap, and walks that wrap once *)

Lemma ring_nowrap l (b n : nat) :
  (b + n <= length l)%nat → ring l (Z.of_nat b) n = take n (drop b l).
Proof.
  intros Hle. apply list_eq. intros i.
  destruct (decide (i < n)%nat) as [Hi|Hi].
  - rewrite ring_lookup by done. rewrite lookup_take_lt, lookup_drop by done.
    rewrite slot_small by nat_len.
    replace (Z.to_nat (Z.of_nat b + Z.of_nat i)) with (b + i)%nat by lia.
    destruct (lookup_lt_is_Some_2 l (b + i)) as [x ->]; [lia|done].
  - rewrite lookup_take_ge by lia. apply lookup_ge_None_2.
    rewrite length_ring. lia.
Qed.

Lemma ring_app l b (n m : nat) :
  ring l b (n + m) = ring l b n ++ ring l (b + Z.of_nat n) m.
Proof.
  unfold ring. rewrite seq_app, fmap_app. f_equal. simpl.
  replace (seq n m) with (Nat.add n <$> seq 0 m)
    by (rewrite fmap_add_seq; f_equal; lia).
  rewrite <- list_fmap_compose.
  apply list_fmap_ext. intros i x _. simpl. do 3 f_equal. lia.
Qed.

Lemma ring_wrap l (b n : nat) :
  (b <= length l)%nat → (length l <= b + n)%nat → (n <= length l)%nat →
  ring l (Z.of_nat b) n = drop b l ++ take (b + n - length l) l.
Proof.
  intros Hb Hw Hn.
  replace n with ((length l - b) + (b + n - length l))%nat at 1 by lia.
  rewrite ring_app. f_equal.
  - rewrite ring_nowrap by lia. apply take_ge. rewrite length_drop. lia.
  - rewrite (ring_base_shift l _ (Z.of_nat 0%nat) _ 1) by nat_len.
    rewrite ring_nowrap by (simpl; lia). done.
Qed.

(** ** [make], [copy] and re-slicing *)

Lemma make_ok size h :
  0 <= size <= max_len →
  make size h = Some (mkslice (length h) 0 (Z.to_nat size) (Z.to_nat size),
                      h ++ [replicate (Z.to_nat size) ""]).
Proof.
  intros H. unfold make.
  destruct (Z.leb_spec 0 size); [|lia].
  destruct (Z.leb_spec size max_len); [|lia]. done.
Qed.

Lemma alter_snoc {A} (f : A → A) (h : list A) (a : A) :
  alter f (length h) (h ++ [a]) = h ++ [f a].
Proof.
  rewrite <- (Nat.add_0_r (length h)).
  by rewrite (alter_app_r f h [a] 0).
Qed.

Lemma read_reslice h sl (lo hi : nat) :
  valid h sl → (lo <= hi)%nat → (hi <= slen sl)%nat →
  read h (mkslice (arr sl) (off sl + lo) (hi - lo) (scap sl - lo))
  = take (hi - lo) (drop lo (read h sl)).
Proof.
  intros (a & Ha & Hoff & Hlen & _) Hlo Hhi. unfold read. simpl. rewrite Ha.
  simpl. replace (slen sl) with (lo + (slen sl - lo))%nat by lia.
  rewrite <- take_drop_commute, drop_drop, take_take.
  f_equal. lia.
Qed.

Lemma read_app_lt h h2 sl :
  (arr sl < length h)%nat → read (h ++ h2) sl = read h sl.
Proof. intros H. unfold read. by rewrite lookup_app_l. Qed.

Lemma valid_arr_lt h sl : valid h sl → (arr sl < length h)%nat.
Proof. intros (a & Ha & _). by apply lookup_lt_Some in Ha. Qed.

Lemma list_inserts_0_full {A} (l1 l2 : list A) :
  length l1 = length l2 → list_inserts 0 l1 l2 = l1.
Proof.
  intros H. rewrite <- (app_nil_r l2), list_inserts_0_r by done.
  apply app_nil_r.
Qed.

Lemma list_inserts_two {A} (vs1 vs2 r : list A) :
  (length vs1 + length vs2 = length r)%nat →
  list_inserts (length vs1) vs2 (list_inserts 0 vs1 r) = vs1 ++ vs2.
Proof.
  intros H. rewrite <- (take_drop (length vs1) r).
  rewrite list_inserts_0_r by (rewrite length_take; lia).
  rewrite <- (Nat.add_0_r (length vs1)) at 1.
  rewrite list_inserts_app_r. f_equal.
  apply list_inserts_0_full. rewrite length_drop. lia.
Qed.

Ltac leb_true :=
  repeat match goal with
         | |- context [Z.leb ?x ?y] => destruct (Z.leb_spec x y); [|lia]
         end.

(** [Slice] allocates one array, fills it with the live elements front
    to back, and writes nowhere else. *)
Lemma Slice_Rep s h c xs :
  Rep s h c xs →
  Slice s h = Some (mkslice (length h) 0 (length xs) (length xs), h ++ [xs]).
Proof.
  intros (st & sl & -> & Hv & Hc & Hr & Hcap & Hlen & Hst & Hl)%Rep_elim.
  pose proof max_len_small. pose proof (len_nonneg xs).
  pose proof (valid_arr_lt _ _ Hv) as Harr.
  pose proof (length_read _ _ Hv) as Hrl.
  unfold Slice, Length, Empty. simpl. rewrite make_ok by lia. simpl.
  replace (Z.to_nat (len xs)) with (length xs) by nat_len.
  destruct (Z.eqb_spec (len xs) 0) as [E|E]; simpl.
  { destruct xs; [done|]. rewrite len_cons in E.
    pose proof (len_nonneg xs). lia. }
  destruct Hst as [Hst|]; [|lia]. assert (Hc0 : 0 < c) by lia.
  pose proof (Z.mod_pos_bound (st + len xs) _ Hc0) as He.
  assert (Hcn : c = Z.of_nat (slen sl)) by (by rewrite <- Hc).
  destruct Hv as (a & Ha & Hoff & Hsl & Hmax).
  assert (Hv : valid h sl) by (by exists a).
  set (b := Z.to_nat st). assert (Hb : st = Z.of_nat b) by lia.
  set (n := length xs) in *. assert (Hn : len xs = Z.of_nat n) by done.
  rewrite Hb in Hl.
  destruct (Z.ltb_spec st ((st + len xs) mod c)) as [Hlt|Hge].
  - (* the live elements do not wrap around *)
    assert (Hno : st + len xs < c).
    { destruct (decide (st + len xs < c)); [done|].
      rewrite <- (Z.mod_add _ (-1)), Z.mod_small in Hlt; lia. }
    rewrite Z.mod_small by lia. rewrite int_add_small by lia.
    unfold reslice. leb_true.
    simpl. unfold copy. simpl. f_equal. f_equal.
    rewrite alter_snoc. f_equal.
    rewrite read_app_lt by done.
    replace (Z.to_nat (st + len xs + 1 - st)) with (b + n + 1 - b)%nat by lia.
    fold b. rewrite read_reslice by (done || lia).
    rewrite take_take.
    replace ((n `min` (b + n + 1 - b)) `min` (b + n + 1 - b))%nat with n by lia.
    rewrite <- ring_nowrap by lia. rewrite Hl. f_equal.
    apply list_inserts_0_full. rewrite length_replicate. done.
  - (* the live elements wrap around, or fill the storage *)
    assert (Hw : c <= st + len xs).
    { destruct (decide (c <= st + len xs)); [done|].
      rewrite Z.mod_small in Hge; lia. }
    assert (Hend : (st + len xs) mod c = st + len xs - c).
    { rewrite <- (Z.mod_add _ (-1)), Z.mod_small; lia. }
    rewrite Hend. unfold reslice_from, reslice, slice_len in *. simpl.
    leb_true. simpl. leb_true. simpl.
    unfold copy. simpl. f_equal. f_equal.
    rewrite !alter_snoc. f_equal.
    rewrite !read_app_lt by done.
    fold b. rewrite (read_reslice h sl b (slen sl)) by (done || lia).
    replace (Z.to_nat (st + len xs - c - 0)) with (b + n - slen sl - 0)%nat
      by lia.
    replace (scap sl - Z.to_nat 0)%nat with (scap sl - 0)%nat by lia.
    replace (Z.to_nat 0) with 0%nat by lia.
    rewrite (read_reslice h sl 0 (b + n - slen sl)) by (done || lia).
    rewrite !take_take. simpl.
    rewrite (ring_wrap _ b n) in Hl by lia. rewrite Hrl in Hl.
    f_equal. rewrite <- Hl. simpl.
    replace (Z.to_nat (Z.of_nat (slen sl - b))) with (slen sl - b)%nat by lia.
    replace ((n `min` (slen sl - b)) `min` (slen sl - b))%nat
      with (slen sl - b)%nat by lia.
    replace (((n - (slen sl - b)) `min` (b + n - slen sl - 0))
               `min` (b + n - slen sl - 0))%nat
      with (b + n - slen sl)%nat by lia.
    rewrite (take_ge (drop b (read h sl))) by (rewrite length_drop; lia).
    replace (slen sl - b)%nat with (length (drop b (read h sl))) at 1
      by (rewrite length_drop; lia).
    apply list_inserts_two.
    rewrite length_replicate, length_drop, length_take. lia.
Qed.

(** Arrays allocated later do not touch a buffer. *)
Lemma Rep_app s h h2 c xs : Rep s h c xs → Rep s (h ++ h2) c xs.
Proof.
  intros ([Hv Hlen Hst He] & Hc & Hl). split_and!; [split; try done| done |].
  - by apply valid_app.
  - unfold live in *. by rewrite read_app.
Qed.

Lemma Rep_New_B size h s h' :
  NewStRingBuffer size h = Some (s, h') →
  Rep s h' size [] ∧ h' = h ++ [replicate (Z.to_nat size) ""].
Proof.
  unfold NewStRingBuffer, make. intros H.
  destruct (Z.leb_spec 0 size); simpl in H; [|done].
  destruct (Z.leb_spec size max_len); simpl in H; [|done].
  injection H as <- <-. split; [|done].
  apply Rep_intro_B.
  - exists (replicate (Z.to_nat size) ""). simpl.
    rewrite length_replicate. unfold slice_len. simpl. split_and!; try lia.
    rewrite lookup_app_r by lia. by rewrite Nat.sub_diag.
  - unfold slice_len. simpl. lia.
  - done.
  - unfold len. simpl. lia.
  - lia.
  - unfold len. simpl. destruct (Z.eqb_spec size 0) as [->|]; [done|].
    by rewrite Z.mod_0_l.
  - done.
Qed.

(** ** [Unslice] *)

Lemma Unslice_nonempty h sl :
  valid h sl → 0 < slice_len sl →
  ∃ s, Unslice sl = Some s ∧ Rep s h (slice_len sl) (read h sl) ∧
       lines s = sl.
Proof.
  intros Hv Hpos. pose proof max_len_small.
  pose proof (len_read _ _ Hv) as Hr.
  assert (Hmax : slice_len sl <= max_len) by (by destruct Hv as (_&_&_&_&?)).
  unfold Unslice, mod_. simpl.
  rewrite int_rem_add_mod by lia. simpl.
  eexists; split_and!; [done| |done]. unfold set_end. simpl.
  apply Rep_intro_B; try done; try lia.
  - by rewrite Hr.
  - rewrite (ring_nowrap _ 0) by (simpl; lia). simpl. by apply take_ge.
Qed.

Lemma Unslice_empty sl : slice_len sl = 0 → Unslice sl = None.
Proof. intros H. unfold Unslice, mod_, int_rem. simpl. by rewrite H. Qed.

(** ** Capacity 0, empty buffers *)

Lemma Pop_empty_B s h : length_ s = 0 → Pop s h = Some ("", s, h).
Proof. unfold Pop, Empty. by intros ->. Qed.

Lemma Shift_empty_B s h : length_ s = 0 → Shift s h = Some ("", s, h).
Proof. unfold Shift, Empty. by intros ->. Qed.

Lemma Push1_cap0_B s h v :
  slice_len (lines s) = 0 → length_ s = 0 → Push1 v s h = None.
Proof.
  intros Hc Hn. unfold Push1, Full, mod_, int_rem. rewrite Hc, Hn. done.
Qed.

Lemma Unshift1_cap0_B s h v :
  slice_len (lines s) = 0 → length_ s = 0 → Unshift1 v s h = None.
Proof.
  intros Hc Hn. unfold Unshift1, Full, mod_, int_rem. rewrite Hc, Hn. done.
Qed.

Lemma Rep_cap0_B s h xs :
  Rep s h 0 xs → slice_len (lines s) = 0 ∧ length_ s = 0.
Proof.
  intros HR. pose proof (Rep_length_B _ _ _ _ HR).
  pose proof (Rep_le_B _ _ _ _ HR).
  pose proof (len_nonneg xs). destruct HR as (_ & ? & _). lia.
Qed.

(** ** Every call keeps the representation *)

Lemma Push1_Rep_B s h c xs v s' h' :
  Rep s h c xs → Push1 v s h = Some (s', h') → ∃ xs', Rep s' h' c xs'.
Proof.
  intros HR H. pose proof (Rep_le_B _ _ _ _ HR) as Hle.
  destruct (decide (len xs < c)) as [Hlt|Hge].
  - destruct (Push1_grow_B s h c xs v HR Hlt) as (s1 & h1 & H1 & HR1 & _).
    exists (xs ++ [v]). congruence.
  - destruct xs as [|x xs].
    + assert (c = 0) as -> by (unfold len in *; simpl in *; lia).
      apply Rep_cap0_B in HR as [? ?]. by rewrite Push1_cap0_B in H.
    + destruct (Push1_full_B s h c x xs v HR) as (s1 & h1 & H1 & HR1 & _);
        [lia|].
      exists (xs ++ [v]). congruence.
Qed.

Lemma Push_Rep_B s h c xs vs s' h' :
  Rep s h c xs → Push vs s h = Some (s', h') → ∃ xs', Rep s' h' c xs'.
Proof.
  revert s h xs. induction vs as [|v vs IH]; intros s h xs HR H; simpl in H.
  - injection H as <- <-. by exists xs.
  - destruct (Push1 v s h) as [[s1 h1]|] eqn:H1; [simpl in H|done].
    destruct (Push1_Rep_B _ _ _ _ _ _ _ HR H1) as (xs1 & HR1). by eapply IH.
Qed.

Lemma Unshift1_Rep_B s h c xs v s' h' :
  Rep s h c xs → Unshift1 v s h = Some (s', h') → ∃ xs', Rep s' h' c xs'.
Proof.
  intros HR H. pose proof (Rep_le_B _ _ _ _ HR) as Hle.
  destruct (decide (len xs < c)) as [Hlt|Hge].
  - destruct (Unshift1_grow_B s h c xs v HR Hlt) as (s1 & h1 & H1 & HR1 & _).
    exists (v :: xs). congruence.
  - destruct xs as [|x xs _] using rev_ind.
    + assert (c = 0) as -> by (unfold len in *; simpl in *; lia).
      apply Rep_cap0_B in HR as [? ?]. by rewrite Unshift1_cap0_B in H.
    + destruct (Unshift1_full_B s h c xs x v HR) as (s1 & h1 & H1 & HR1 & _);
        [lia|].
      exists (v :: xs). congruence.
Qed.

Lemma Unshift_Rep_B s h c xs vs s' h' :
  Rep s h c xs → Unshift vs s h = Some (s', h') → ∃ xs', Rep s' h' c xs'.
Proof.
  revert s h xs. induction vs as [|v vs IH]; intros s h xs HR H; simpl in H.
  - injection H as <- <-. by exists xs.
  - destruct (Unshift1 v s h) as [[s1 h1]|] eqn:H1; [simpl in H|done].
    destruct (Unshift1_Rep_B _ _ _ _ _ _ _ HR H1) as (xs1 & HR1). by eapply IH.
Qed.

Lemma Pop_Rep_B s h c xs r s' h' :
  Rep s h c xs → Pop s h = Some (r, s', h') → ∃ xs', Rep s' h' c xs'.
Proof.
  intros HR H. destruct xs as [|x xs _] using rev_ind.
  - rewrite (Pop_empty_B s h (Rep_length_B _ _ _ _ HR)) in H.
    injection H as _ <- <-. by exists [].
  - destruct (Pop_back_B s h c xs x HR) as (s1 & h1 & H1 & HR1 & _).
    exists xs. congruence.
Qed.

Lemma Shift_Rep_B s h c xs r s' h' :
  Rep s h c xs → Shift s h = Some (r, s', h') → ∃ xs', Rep s' h' c xs'.
Proof.
  intros HR H. destruct xs as [|x xs].
  - rewrite (Shift_empty_B s h (Rep_length_B _ _ _ _ HR)) in H.
    injection H as _ <- <-. by exists [].
  - destruct (Shift_front_B s h c x xs HR) as (s1 & h1 & H1 & HR1 & _).
    exists xs. congruence.
Qed.

(** ** [Map] and [MapR] *)

Lemma Map_loop_spec_B {W} (f : closure W) c xs done w s h :
  Rep s h c (xs ++ done) →
  ∃ s' h', Map_loop f (length xs) w s h = Some ((thread f xs w).2, s', h') ∧
           Rep s' h' c (done ++ (thread f xs w).1) ∧ length h' = length h.
Proof.
  revert done w s h. induction xs as [|x xs IH]; intros done w s h HR; simpl.
  - exists s, h. by rewrite app_nil_r.
  - pose proof (Rep_le_B _ _ _ _ HR) as Hle. simpl in Hle.
    rewrite len_cons in Hle.
    destruct (Shift_front_B s h c x (xs ++ done) HR) as (s1 & h1 & -> & HR1 & E1).
    simpl. destruct (f x w) as [y w1].
    destruct (Push1_grow_B s1 h1 c _ y HR1) as (s2 & h2 & -> & HR2 & E2); [lia|].
    simpl. rewrite <- app_assoc in HR2.
    destruct (IH (done ++ [y]) w1 s2 h2 HR2) as (s' & h' & -> & HR' & E').
    destruct (thread f xs w1) as [ys w2]. simpl in *.
    exists s', h'. rewrite <- app_assoc in HR'. split_and!; [done..|congruence].
Qed.

Lemma MapR_loop_spec_B {W} (f : closure W) c rxs done w s h :
  Rep s h c (done ++ reverse rxs) →
  ∃ s' h', MapR_loop f (length rxs) w s h = Some ((thread f rxs w).2, s', h') ∧
           Rep s' h' c (reverse (thread f rxs w).1 ++ done) ∧
           length h' = length h.
Proof.
  revert done w s h. induction rxs as [|x r IH]; intros done w s h HR; simpl.
  - exists s, h. by rewrite app_nil_r in HR.
  - rewrite reverse_cons, app_assoc in HR.
    pose proof (Rep_le_B _ _ _ _ HR) as Hle. rewrite len_app_1 in Hle.
    destruct (Pop_back_B s h c _ x HR) as (s1 & h1 & -> & HR1 & E1). simpl.
    destruct (f x w) as [y w1].
    destruct (Unshift1_grow_B s1 h1 c _ y HR1) as (s2 & h2 & -> & HR2 & E2);
      [lia|].
    simpl. destruct (IH (y :: done) w1 s2 h2 HR2) as (s' & h' & -> & HR' & E').
    destruct (thread f r w1) as [zs w2]. simpl in *.
    exists s', h'. rewrite reverse_cons, <- app_assoc.
    split_and!; [done..|congruence].
Qed.

Lemma Map_Rep_B {W} (f : closure W) c xs w s h :
  Rep s h c xs →
  ∃ s' h', Map f w s h = Some ((thread f xs w).2, s', h') ∧
           Rep s' h' c (thread f xs w).1 ∧ length h' = length h.
Proof.
  intros HR. unfold Map, Length. rewrite (Rep_length_B _ _ _ _ HR).
  replace (Z.to_nat (len xs)) with (length xs) by nat_len.
  rewrite <- (app_nil_r xs) in HR.
  apply (Map_loop_spec_B f c xs [] w s h HR).
Qed.

Lemma MapR_Rep_B {W} (f : closure W) c xs w s h :
  Rep s h c xs →
  ∃ s' h', MapR f w s h = Some ((thread_rev f xs w).2, s', h') ∧
           Rep s' h' c (thread_rev f xs w).1 ∧ length h' = length h.
Proof.
  intros HR. unfold MapR, Length. rewrite (Rep_length_B _ _ _ _ HR).
  replace (Z.to_nat (len xs)) with (length (reverse xs))
    by (rewrite length_reverse; nat_len).
  rewrite <- (reverse_involutive xs) in HR.
  destruct (MapR_loop_spec_B f c (reverse xs) [] w s h HR)
    as (s' & h' & H & HR' & E).
  rewrite app_nil_r in HR'. unfold thread_rev.
  destruct (thread f (reverse xs) w) as [zs w']. by exists s', h'.
Qed.

(** ** Reachable buffers *)

Lemma reachable_Rep_B s h : reachable s h → ∃ c xs, Rep s h c xs.
Proof.
  induction 1 as [size h s h' H | sl h s Hv H
    | vs s h s' h' _ (c & xs & HR) H | s h r s' h' _ (c & xs & HR) H
    | vs s h s' h' _ (c & xs & HR) H | s h r s' h' _ (c & xs & HR) H
    | W f w s h w' s' h' _ (c & xs & HR) H
    | W f w s h w' s' h' _ (c & xs & HR) H
    | s h sl h' _ (c & xs & HR) H].
  - exists size, []. by apply Rep_New_B in H as [? _].
  - destruct (Z.le_gt_cases (slice_len sl) 0) as [Hz|Hpos].
    + rewrite Unslice_empty in H by nat_len. done.
    + destruct (Unslice_nonempty h sl Hv Hpos) as (s1 & H1 & HR1 & _).
      exists (slice_len sl), (read h sl). congruence.
  - exists c. by eapply Push_Rep_B.
  - exists c. by eapply Pop_Rep_B.
  - exists c. by eapply Unshift_Rep_B.
  - exists c. by eapply Shift_Rep_B.
  - destruct (Map_Rep_B f c xs w s h HR) as (s1 & h1 & H1 & HR1 & _).
    exists c, (thread f xs w).1. congruence.
  - destruct (MapR_Rep_B f c xs w s h HR) as (s1 & h1 & H1 & HR1 & _).
    exists c, (thread_rev f xs w).1. congruence.
  - rewrite (Slice_Rep s h c xs HR) in H. injection H as _ <-.
    exists c, xs. by apply Rep_app.
Qed.

Lemma Shift_n_front_B s h c xs ys :
  Rep s h c (xs ++ ys) →
  ∃ s' h', Shift_n (length xs) s h = Some (xs, s', h') ∧ Rep s' h' c ys.
Proof.
  revert s h. induction xs as [|x xs IH]; intros s h HR; simpl.
  - by exists s, h.
  - destruct (Shift_front_B s h c x (xs ++ ys) HR) as (s1 & h1 & -> & HR1 & _).
    simpl. destruct (IH s1 h1 HR1) as (s' & h' & -> & HR'). simpl.
    by exists s', h'.
Qed.

Lemma Rep_Full_B s h c xs : Rep s h c xs → len xs = c → Full s = true.
Proof.
  intros HR Hc. pose proof (Rep_length_B _ _ _ _ HR) as Hn.
  destruct HR as (_ & Hl & _). unfold Full. apply Z.eqb_eq. lia.
Qed.

Lemma thread_pure {W} (f : string → string) xs (w : W) :
  thread (pure_fn f) xs w = (f <$> xs, w).
Proof.
  induction xs as [|x xs IH]; simpl; [done|]. by rewrite IH.
Qed.

Lemma thread_rev_pure {W} (f : string → string) xs (w : W) :
  thread_rev (pure_fn f) xs w = (f <$> xs, w).
Proof.
  unfold thread_rev. rewrite thread_pure.
  by rewrite fmap_reverse, reverse_involutive.
Qed.

(** ** The test suite, replayed *)

Example TestAddTake_B :
  ('(s, h) ← NewStRingBuffer 3 [];
   '(s, h) ← Push ["1"; "2"; "3"; "4"] s h; '(out1, s, h) ← Shift_n 3 s h;
   '(s, h) ← Unshift ["4"; "3"; "2"; "1"] s h;
   '(out2, s, h) ← Shift_n 3 s h;
   Some (out1, out2, Empty s))
  = Some (["2"; "3"; "4"], ["1"; "2"; "3"], true).
Proof. vm_compute. reflexivity. Qed.

Example TestMapEach_B :
  ('(s0, h0) ← NewStRingBuffer 3 []; '(s1, h1) ← Push ["."; "."; "."] s0 h0;
   '(c, s2, h2) ← Map count_and_append 0%nat s1 h1;
   '(c, s3, h3) ← MapR count_and_append c s2 h2;
   '(sum, s4, h4) ← Each sum_up ""%string s3 h3;
   '(sum, s5, h5) ← EachR sum_up sum s4 h4;
   Some (sum, live s5 h5))
  = Some (".16.25.34.34.25.16"%string, [".16"; ".25"; ".34"]).
Proof. vm_compute. reflexivity. Qed.

(** ** The laws *)

(** C8: on every reachable buffer with live elements [x1 .. xn],
    [Slice()] returns a slice on a newly allocated array (its address is
    the first one the store had not handed out) that holds [x1 .. xn], the
    values [n] calls of [Shift()] return in that order; every array the
    store held before, the buffer's storage among them, is as it was, and
    so are the live elements of the buffer ([Slice] assigns to none of
    its fields). *)
Theorem Slice_fresh_front_to_back (s : StRingBuffer) (h : heap) :
  reachable s h →
  ∃ sl h',
    Slice s h = Some (sl, h') ∧
    arr sl = length h ∧ h' = h ++ [live s h] ∧
    read h' sl = live s h ∧ slice_len sl = Length s ∧
    (∀ a : nat, (a < length h)%nat → h' !! a = h !! a) ∧
    live s h' = live s h ∧
    (∃ s1 h1, Shift_n (length (live s h)) s h = Some (live s h, s1, h1)).
Proof.
  intros (c & xs & HR)%reachable_Rep_B.
  rewrite (Rep_live_B _ _ _ _ HR), (Slice_Rep s h c xs HR).
  eexists _, _. split_and!; [done..| | | | |].
  - unfold read. simpl.
    rewrite lookup_app_r, Nat.sub_diag by lia. simpl. by apply take_ge.
  - unfold slice_len, Length. simpl. by rewrite (Rep_length_B _ _ _ _ HR).
  - intros a Ha. by apply lookup_app_l.
  - by apply Rep_live_B with c, Rep_app.
  - rewrite <- (app_nil_r xs) in HR.
    destruct (Shift_n_front_B s h c xs [] HR) as (s1 & h1 & H1 & _).
    by exists s1, h1.
Qed.

Lemma Slice_fresh_front_to_back_witness :
  ∃ sl h',
    Slice (mk 2 1 (mkslice 0 0 3 3) 2) [["4"; ""; "3"]] = Some (sl, h') ∧
    arr sl = 1%nat ∧ h' = [["4"; ""; "3"]; ["3"; "4"]] ∧
    read h' sl = ["3"; "4"] ∧ slice_len sl = 2 ∧
    (∀ a : nat, (a < 1)%nat → h' !! a = [["4"; ""; "3"]] !! a) ∧
    live (mk 2 1 (mkslice 0 0 3 3) 2) h' = ["3"; "4"] ∧
    (∃ s1 h1, Shift_n 2 (mk 2 1 (mkslice 0 0 3 3) 2) [["4"; ""; "3"]]
              = Some (["3"; "4"], s1, h1)).
Proof.
  apply (Slice_fresh_front_to_back
           (mk 2 1 (mkslice 0 0 3 3) 2) [["4"; ""; "3"]]).
  apply (reach_Shift (mk 1 1 (mkslice 0 0 3 3) 3) [["4"; "2"; "3"]] "2").
  - apply (reach_Push ["1"; "2"; "3"; "4"]
             (mk 0 0 (mkslice 0 0 3 3) 0) [[""; ""; ""]]).
    + apply (reach_New 3 []). reflexivity.
    + reflexivity.
  - reflexivity.
Defined.

(** C7: on every reachable buffer, for a function [f] that only
    computes from its argument, [MapR(f)] and [Map(f)] both return and
    leave the same live elements, [f(x1) .. f(xn)] front to back, and the
    same occupancy; for a closure in general, [Map] hands it the elements
    front to back and [MapR] back to front, results staying in place. *)
Theorem MapR_Map_same_contents (f : string → string) (s : StRingBuffer)
    (h : heap) :
  reachable s h →
  (∃ s1 h1 s2 h2,
      Map (pure_fn f) () s h = Some ((), s1, h1) ∧
      MapR (pure_fn f) () s h = Some ((), s2, h2) ∧
      live s1 h1 = f <$> live s h ∧ live s2 h2 = live s1 h1 ∧
      Length s1 = Length s ∧ Length s2 = Length s1) ∧
  (∀ (W : Type) (g : closure W) (w : W),
      ∃ s1 h1 s2 h2,
        Map g w s h = Some ((thread g (live s h) w).2, s1, h1) ∧
        live s1 h1 = (thread g (live s h) w).1 ∧
        MapR g w s h = Some ((thread_rev g (live s h) w).2, s2, h2) ∧
        live s2 h2 = (thread_rev g (live s h) w).1).
Proof.
  intros (c & xs & HR)%reachable_Rep_B. rewrite (Rep_live_B _ _ _ _ HR). split.
  - destruct (Map_Rep_B (pure_fn f) c xs () s h HR) as (s1 & h1 & H1 & HR1 & _).
    destruct (MapR_Rep_B (pure_fn f) c xs () s h HR) as (s2 & h2 & H2 & HR2 & _).
    rewrite thread_pure in *. rewrite thread_rev_pure in *. simpl in *.
    exists s1, h1, s2, h2.
    rewrite (Rep_live_B _ _ _ _ HR1), (Rep_live_B _ _ _ _ HR2).
    unfold Length.
    rewrite (Rep_length_B _ _ _ _ HR), (Rep_length_B _ _ _ _ HR1),
      (Rep_length_B _ _ _ _ HR2).
    unfold len. rewrite length_fmap. done.
  - intros W g w.
    destruct (Map_Rep_B g c xs w s h HR) as (s1 & h1 & H1 & HR1 & _).
    destruct (MapR_Rep_B g c xs w s h HR) as (s2 & h2 & H2 & HR2 & _).
    exists s1, h1, s2, h2.
    by rewrite (Rep_live_B _ _ _ _ HR1), (Rep_live_B _ _ _ _ HR2).
Qed.

Lemma MapR_Map_same_contents_witness :
  (∃ s1 h1 s2 h2,
      Map (pure_fn (λ x, x +:+ "!")%string) ()
        (mk 2 1 (mkslice 0 0 3 3) 2) [["4"; ""; "3"]] = Some ((), s1, h1) ∧
      MapR (pure_fn (λ x, x +:+ "!")%string) ()
        (mk 2 1 (mkslice 0 0 3 3) 2) [["4"; ""; "3"]] = Some ((), s2, h2) ∧
      live s1 h1 = ["3!"; "4!"] ∧ live s2 h2 = live s1 h1 ∧
      Length s1 = 2 ∧ Length s2 = Length s1) ∧
  (∀ (W : Type) (g : closure W) (w : W),
      ∃ s1 h1 s2 h2,
        Map g w (mk 2 1 (mkslice 0 0 3 3) 2) [["4"; ""; "3"]]
          = Some ((thread g ["3"; "4"] w).2, s1, h1) ∧
        live s1 h1 = (thread g ["3"; "4"] w).1 ∧
        MapR g w (mk 2 1 (mkslice 0 0 3 3) 2) [["4"; ""; "3"]]
          = Some ((thread_rev g ["3"; "4"] w).2, s2, h2) ∧
        live s2 h2 = (thread_rev g ["3"; "4"] w).1).
Proof.
  apply (MapR_Map_same_contents (λ x, x +:+ "!")%string
           (mk 2 1 (mkslice 0 0 3 3) 2) [["4"; ""; "3"]]).
  apply (reach_Shift (mk 1 1 (mkslice 0 0 3 3) 3) [["4"; "2"; "3"]] "2").
  - apply (reach_Push ["1"; "2"; "3"; "4"]
             (mk 0 0 (mkslice 0 0 3 3) 0) [[""; ""; ""]]).
    + apply (reach_New 3 []). reflexivity.
    + reflexivity.
  - reflexivity.
Defined.

(** What [Unslice] does on a slice that is not empty: the buffer is
    full, of the capacity of the slice, the slice is its storage and its
    elements are the live elements; [Shift()] returns the first and
    [Pop()] the last. *)
Lemma Unslice_full h sl :
  valid h sl → 0 < slice_len sl →
  ∃ s, Unslice sl = Some s ∧ lines s = sl ∧
       Full s = true ∧ Capacity s = slice_len sl ∧
       live s h = read h sl ∧
       (∃ s' h', Shift s h = Some (default "" (head (read h sl)), s', h')) ∧
       (∃ s' h', Pop s h = Some (default "" (last (read h sl)), s', h')).
Proof.
  intros Hv Hpos.
  destruct (Unslice_nonempty h sl Hv Hpos) as (s & H & HR & Hl).
  pose proof (len_read _ _ Hv) as Hr.
  exists s. split_and!; try done.
  - by apply (Rep_Full_B s h _ _ HR).
  - unfold Capacity. by rewrite Hl.
  - by apply Rep_live_B in HR.
  - destruct (read h sl) as [|x xs] eqn:E; [unfold len in Hr; simpl in Hr; lia|].
    destruct (Shift_front_B s h _ x xs HR) as (s' & h' & H' & _).
    by exists s', h'.
  - destruct (read h sl) as [|x xs _] eqn:E using rev_ind;
      [unfold len in Hr; simpl in Hr; lia|].
    destruct (Pop_back_B s h _ xs x HR) as (s' & h' & H' & _).
    rewrite last_snoc. by exists s', h'.
Qed.

(** [Unslice] of the [Slice] of a buffer that is not empty: a full
    buffer with the same live elements. *)
Lemma Unslice_Slice s h :
  reachable s h → live s h ≠ [] →
  ∃ sl h' s', Slice s h = Some (sl, h') ∧ Unslice sl = Some s' ∧
              Full s' = true ∧ live s' h' = live s h.
Proof.
  intros (c & xs & HR)%reachable_Rep_B. rewrite (Rep_live_B _ _ _ _ HR).
  intros Hne. pose proof (Rep_le_B _ _ _ _ HR) as Hle.
  assert (Hc : c <= max_len).
  { destruct HR as ([(a & _ & _ & _ & ?) _ _ _] & <- & _). done. }
  rewrite (Slice_Rep s h c xs HR).
  set (sl := mkslice (length h) 0 (length xs) (length xs)).
  assert (Hv : valid (h ++ [xs]) sl).
  { exists xs. unfold slice_len. simpl.
    rewrite lookup_app_r, Nat.sub_diag by lia. split_and!; try done.
    unfold len in *. lia. }
  assert (Hpos : 0 < slice_len sl).
  { unfold slice_len. simpl. destruct xs; [done|]. simpl. lia. }
  destruct (Unslice_full _ sl Hv Hpos) as (s' & H' & _ & HF & _ & Hl' & _).
  exists sl, (h ++ [xs]), s'. split_and!; try done.
  rewrite Hl'. unfold read. simpl.
  rewrite lookup_app_r, Nat.sub_diag by lia. simpl. by apply take_ge.
Qed.

(** C6 does not hold of the code: [Unslice] of a slice of length 0
    panics ([s.mod] divides by [len(s.lines)], which is 0), and so does
    [Unslice(b.Slice())] on an empty buffer [b]. *)
Theorem Unslice_empty_panics :
  (∀ a o cp : nat, Unslice (mkslice a o 0 cp) = None) ∧
  (∃ b h1 sl h2,
      NewStRingBuffer 3 [] = Some (b, h1) ∧ Slice b h1 = Some (sl, h2) ∧
      read h2 sl = [] ∧ Unslice sl = None).
Proof.
  split.
  - intros a o cp. reflexivity.
  - eexists _, _, _, _. split_and!; reflexivity.
Qed.

End RingB_Laws.

(** * Revision A: further laws *)

Module RingA_More.
Import RingA RingA_Laws.

(** ** The window kept by [Push] and [Unshift] *)

Lemma keep_last_short c l : (length l <= c)%nat → keep_last c l = l.
Proof.
  intros H. unfold keep_last. by replace (length l - c)%nat with 0%nat by lia.
Qed.

Lemma length_keep_last c l : length (keep_last c l) = (length l `min` c)%nat.
Proof. unfold keep_last. rewrite length_drop. lia. Qed.

Lemma keep_last_app c a b :
  keep_last c (keep_last c a ++ b) = keep_last c (a ++ b).
Proof.
  unfold keep_last. rewrite !length_app, length_drop.
  destruct (decide (length a <= c)%nat) as [H|H].
  - replace (length a - c)%nat with 0%nat by lia. simpl. f_equal. lia.
  - rewrite !drop_app, length_drop, drop_drop.
    f_equal; f_equal; lia.
Qed.

Lemma keep_first_app c a b :
  keep_first c (a ++ keep_first c b) = keep_first c (a ++ b).
Proof.
  unfold keep_first. rewrite !take_app, take_take. f_equal. f_equal. lia.
Qed.

Lemma Push1_window s c xs v :
  Rep s c xs → 0 < c →
  ∃ s', Push1 v s = Some s' ∧ Rep s' c (keep_last (Z.to_nat c) (xs ++ [v])).
Proof.
  intros HR Hc. pose proof (Rep_le _ _ _ HR) as Hle.
  destruct (decide (len xs < c)) as [Hlt|Hge].
  - destruct (Push1_grow s c xs v HR Hlt) as (s' & H & _ & HR').
    exists s'. split; [done|]. rewrite keep_last_short; [done|].
    rewrite length_app. simpl. nat_len.
  - destruct xs as [|x xs]; [unfold len in *; simpl in *; lia|].
    destruct (Push1_full s c x xs v HR) as (s' & H & _ & HR'); [lia|].
    exists s'. split; [done|]. unfold keep_last.
    rewrite length_app. simpl.
    replace (S (length xs + 1) - Z.to_nat c)%nat with 1%nat
      by (unfold len in *; simpl in *; lia).
    done.
Qed.

Lemma Push_window s c xs vs :
  Rep s c xs → 0 < c →
  ∃ s', Push vs s = Some s' ∧ Rep s' c (keep_last (Z.to_nat c) (xs ++ vs)).
Proof.
  intros HR Hc. revert s xs HR.
  induction vs as [|v vs IH]; intros s xs HR; simpl.
  - exists s. split; [done|]. rewrite app_nil_r, keep_last_short; [done|].
    pose proof (Rep_le _ _ _ HR). nat_len.
  - destruct (Push1_window s c xs v HR Hc) as (s1 & -> & HR1). simpl.
    destruct (IH s1 _ HR1) as (s' & -> & HR'). exists s'. split; [done|].
    by rewrite keep_last_app, <- app_assoc in HR'.
Qed.

Lemma Unshift1_window s c xs v :
  Rep s c xs → 0 < c →
  ∃ s', Unshift1 v s = Some s' ∧ Rep s' c (keep_first (Z.to_nat c) (v :: xs)).
Proof.
  intros HR Hc. pose proof (Rep_le _ _ _ HR) as Hle.
  destruct (decide (len xs < c)) as [Hlt|Hge].
  - destruct (Unshift1_grow s c xs v HR Hlt) as (s' & H & HR').
    exists s'. split; [done|]. unfold keep_first.
    rewrite take_ge; [done|]. simpl. nat_len.
  - destruct xs as [|x xs _] using rev_ind;
      [unfold len in *; simpl in *; lia|].
    rewrite len_app_1 in *.
    destruct (Unshift1_full s c xs x v HR) as (s' & H & HR');
      [rewrite len_app_1; lia|].
    exists s'. split; [done|]. unfold keep_first.
    replace (Z.to_nat c) with (S (length xs)) by nat_len.
    simpl. by rewrite take_app_length.
Qed.

Lemma Unshift_window s c xs vs :
  Rep s c xs → 0 < c →
  ∃ s', Unshift vs s = Some s' ∧
        Rep s' c (keep_first (Z.to_nat c) (reverse vs ++ xs)).
Proof.
  intros HR Hc. revert s xs HR.
  induction vs as [|v vs IH]; intros s xs HR; simpl.
  - exists s. split; [done|]. unfold keep_first. rewrite take_ge; [done|].
    pose proof (Rep_le _ _ _ HR). nat_len.
  - destruct (Unshift1_window s c xs v HR Hc) as (s1 & -> & HR1). simpl.
    destruct (IH s1 _ HR1) as (s' & -> & HR'). exists s'. split; [done|].
    rewrite keep_first_app in HR'.
    by rewrite reverse_cons, <- app_assoc.
Qed.

Lemma Rep_Capacity s c xs : Rep s c xs → Capacity s = c.
Proof. by intros (_ & ? & _). Qed.

Lemma Rep_Length s c xs : Rep s c xs → Length s = len xs.
Proof. apply Rep_length. Qed.

(** X5: on every reachable buffer of capacity [c >= 1], [Push(v1..vk)]
    returns and leaves as live elements the last [c] elements of the old
    live elements followed by [v1 .. vk]; the occupancy is the smaller of
    [c] and the old occupancy plus [k]. *)
Theorem Push_keeps_last (vs : list string) (s : StRingBuffer) :
  reachable s → 0 < Capacity s →
  ∃ s', Push vs s = Some s' ∧
        live s' = keep_last (Z.to_nat (Capacity s)) (live s ++ vs) ∧
        Length s' = Z.min (Capacity s) (Length s + len vs) ∧
        Capacity s' = Capacity s.
Proof.
  intros (c & xs & HR)%reachable_Rep.
  rewrite (Rep_Capacity _ _ _ HR), (Rep_live _ _ _ HR), (Rep_Length _ _ _ HR).
  intros Hc. destruct (Push_window s c xs vs HR Hc) as (s' & H & HR').
  exists s'. rewrite (Rep_Capacity _ _ _ HR'), (Rep_live _ _ _ HR'),
    (Rep_Length _ _ _ HR').
  split_and!; try done.
  unfold len. rewrite length_keep_last, length_app. lia.
Qed.

Lemma Push_keeps_last_witness :
  ∃ s', Push ["c"; "d"; "e"] (mk 0 2 [""; "a"; "b"] 2) = Some s' ∧
        live s' = ["c"; "d"; "e"] ∧ Length s' = 3 ∧ Capacity s' = 3.
Proof.
  apply (Push_keeps_last ["c"; "d"; "e"] (mk 0 2 [""; "a"; "b"] 2)).
  - apply (reach_Push ["a"; "b"] (mk 0 0 [""; ""; ""] 0)).
    + apply (reach_New 3). reflexivity.
    + reflexivity.
  - reflexivity.
Defined.

(** X6: on every reachable buffer of capacity [c >= 1],
    [Unshift(v1..vk)] returns and leaves as live elements the first [c]
    elements of [vk .. v1] followed by the old live elements. *)
Theorem Unshift_keeps_first (vs : list string) (s : StRingBuffer) :
  reachable s → 0 < Capacity s →
  ∃ s', Unshift vs s = Some s' ∧
        live s' = keep_first (Z.to_nat (Capacity s)) (reverse vs ++ live s) ∧
        Length s' = Z.min (Capacity s) (Length s + len vs) ∧
        Capacity s' = Capacity s.
Proof.
  intros (c & xs & HR)%reachable_Rep.
  rewrite (Rep_Capacity _ _ _ HR), (Rep_live _ _ _ HR), (Rep_Length _ _ _ HR).
  intros Hc. destruct (Unshift_window s c xs vs HR Hc) as (s' & H & HR').
  exists s'. rewrite (Rep_Capacity _ _ _ HR'), (Rep_live _ _ _ HR'),
    (Rep_Length _ _ _ HR').
  split_and!; try done.
  unfold len, keep_first. rewrite length_take, length_app, length_reverse. lia.
Qed.

Lemma Unshift_keeps_first_witness :
  ∃ s', Unshift ["4"; "3"; "2"; "1"] (mk 0 1 [""; "x"; ""] 1) = Some s' ∧
        live s' = ["1"; "2"; "3"] ∧ Length s' = 3 ∧ Capacity s' = 3.
Proof.
  apply (Unshift_keeps_first ["4"; "3"; "2"; "1"] (mk 0 1 [""; "x"; ""] 1)).
  - apply (reach_Push ["x"] (mk 0 0 [""; ""; ""] 0)).
    + apply (reach_New 3). reflexivity.
    + reflexivity.
  - reflexivity.
Defined.

(** ** A fresh buffer, and what fits *)

(** X1: for every size [make] accepts, [NewStRingBuffer] returns a
    buffer that is [Empty], of [Length] 0 and of the given [Capacity],
    with no live element and both cursors at 0; it is [Full] exactly when
    the size is 0.  A negative size panics. *)
Theorem New_fresh (size : Z) :
  (0 <= size <= max_len →
   ∃ s, NewStRingBuffer size = Some s ∧
        Empty s = true ∧ Length s = 0 ∧ Capacity s = size ∧
        live s = [] ∧ start s = 0 ∧ end_ s = 0 ∧
        (Full s = true ↔ size = 0)) ∧
  (size < 0 → NewStRingBuffer size = None).
Proof.
  split.
  - intros Hs. destruct (NewStRingBuffer_ok size Hs) as [s H].
    pose proof (Rep_New size s H) as HR. exists s.
    destruct (Rep_nil_Empty s size HR) as [HE HL].
    pose proof (Rep_Capacity _ _ _ HR) as HC.
    split_and!; try done.
    + by apply Rep_live in HR.
    + unfold NewStRingBuffer in H. destruct (make size); [|done].
      simpl in H. by injection H as <-.
    + unfold NewStRingBuffer in H. destruct (make size); [|done].
      simpl in H. by injection H as <-.
    + unfold Full. unfold Length, Capacity in *. rewrite HL, HC.
      rewrite Z.eqb_eq. lia.
  - intros Hneg. unfold NewStRingBuffer, make.
    destruct (Z.leb_spec 0 size); [lia|]. done.
Qed.

Lemma New_fresh_witness :
  ∃ s, NewStRingBuffer 5 = Some s ∧
       Empty s = true ∧ Length s = 0 ∧ Capacity s = 5 ∧
       live s = [] ∧ start s = 0 ∧ end_ s = 0 ∧
       (Full s = true ↔ 5 = 0).
Proof. apply (proj1 (New_fresh 5)). unfold max_len. lia. Defined.

(** X2: after [Push(v1..vn)] with [n <= c] on an empty buffer of
    capacity [c], [Length()] is [n], the live elements are [v1 .. vn], and
    [Full()] holds exactly when [n = c]. *)
Theorem Push_Length_Full (c : Z) (vs : list string) (s0 : StRingBuffer) :
  NewStRingBuffer c = Some s0 → len vs <= c →
  ∃ s1, Push vs s0 = Some s1 ∧ Length s1 = len vs ∧ live s1 = vs ∧
        (Full s1 = true ↔ len vs = c).
Proof.
  intros HR%Rep_New Hle.
  destruct (Push_grow s0 c [] vs HR) as (s1 & H1 & _ & HR1).
  { unfold len at 1. simpl. lia. }
  simpl in HR1. exists s1.
  pose proof (Rep_Length _ _ _ HR1) as HL.
  pose proof (Rep_Capacity _ _ _ HR1) as HC.
  split_and!; try done; [by apply Rep_live in HR1|].
  unfold Full. unfold Length, Capacity in *. rewrite HL, HC.
  apply Z.eqb_eq.
Qed.

Lemma Push_Length_Full_witness :
  ∃ s1, Push ["a"; "b"] (mk 0 0 [""; ""; ""] 0) = Some s1 ∧
        Length s1 = 2 ∧ live s1 = ["a"; "b"] ∧ (Full s1 = true ↔ 2 = 3).
Proof.
  apply (Push_Length_Full 3 ["a"; "b"]).
  - reflexivity.
  - unfold len. simpl. lia.
Defined.

(** X3: first in, first out.  After [Push(v1..vn)] with [n <= c] on an
    empty buffer of capacity [c], [n] calls of [Shift()] return
    [v1, .., vn] in this order and leave the buffer empty. *)
Theorem Push_Shift_fifo (c : Z) (vs : list string) (s0 : StRingBuffer) :
  NewStRingBuffer c = Some s0 → len vs <= c →
  ∃ s1 s2, Push vs s0 = Some s1 ∧
           Shift_n (length vs) s1 = Some (vs, s2) ∧ Empty s2 = true.
Proof.
  intros HR%Rep_New Hle.
  destruct (Push_grow s0 c [] vs HR) as (s1 & H1 & _ & HR1).
  { unfold len at 1. simpl. lia. }
  simpl in HR1. rewrite <- (app_nil_r vs) in HR1.
  destruct (Shift_n_front s1 c vs [] HR1) as (s2 & H2 & HR2).
  exists s1, s2. split_and!; [done..|]. by apply (Rep_nil_Empty s2 c).
Qed.

Lemma Push_Shift_fifo_witness :
  ∃ s1 s2, Push ["a"; "b"; "c"] (mk 0 0 [""; ""; ""] 0) = Some s1 ∧
           Shift_n 3 s1 = Some (["a"; "b"; "c"], s2) ∧ Empty s2 = true.
Proof.
  apply (Push_Shift_fifo 3 ["a"; "b"; "c"]).
  - reflexivity.
  - unfold len. simpl. lia.
Defined.

(** X4: after [Unshift(v1..vn)] with [n <= c] on an empty buffer of
    capacity [c], [n] calls of [Pop()] return [v1, .., vn] in this order
    (the first argument lies at the back) and leave the buffer empty. *)
Theorem Unshift_Pop_order (c : Z) (vs : list string) (s0 : StRingBuffer) :
  NewStRingBuffer c = Some s0 → len vs <= c →
  ∃ s1 s2, Unshift vs s0 = Some s1 ∧
           Pop_n (length vs) s1 = Some (vs, s2) ∧ Empty s2 = true.
Proof.
  intros HR%Rep_New Hle.
  destruct (Unshift_grow s0 c [] vs HR) as (s1 & H1 & HR1).
  { unfold len at 1. simpl. lia. }
  rewrite app_nil_r in HR1.
  destruct (Pop_n_back s1 c [] vs HR1) as (s2 & H2 & HR2).
  exists s1, s2. split_and!; [done..|]. by apply (Rep_nil_Empty s2 c).
Qed.

Lemma Unshift_Pop_order_witness :
  ∃ s1 s2, Unshift ["a"; "b"; "c"] (mk 0 0 [""; ""; ""] 0) = Some s1 ∧
           Pop_n 3 s1 = Some (["a"; "b"; "c"], s2) ∧ Empty s2 = true.
Proof.
  apply (Unshift_Pop_order 3 ["a"; "b"; "c"]).
  - reflexivity.
  - unfold len. simpl. lia.
Defined.

(** ** [Pop] and [Shift] on any buffer *)

(** X7: on every reachable buffer whose live elements are
    [x1 .. xn, x], [Pop()] returns [x] and leaves [x1 .. xn] live; the
    occupancy drops by one and the capacity stays. *)
Theorem Pop_takes_back (s : StRingBuffer) (xs : list string) (x : string) :
  reachable s → live s = xs ++ [x] →
  ∃ s', Pop s = Some (x, s') ∧ live s' = xs ∧
        Length s' = Length s - 1 ∧ Capacity s' = Capacity s.
Proof.
  intros (c & ys & HR)%reachable_Rep. rewrite (Rep_live _ _ _ HR).
  intros ->. destruct (Pop_back s c xs x HR) as (s' & H & HR').
  exists s'.
  rewrite (Rep_Length _ _ _ HR), (Rep_Length _ _ _ HR'), len_app_1,
    (Rep_Capacity _ _ _ HR), (Rep_Capacity _ _ _ HR').
  split_and!; try done; [by apply Rep_live in HR'|lia].
Qed.

Lemma Pop_takes_back_witness :
  ∃ s', Pop (mk 0 2 [""; "a"; "b"] 2) = Some ("b", s') ∧ live s' = ["a"] ∧
        Length s' = 2 - 1 ∧ Capacity s' = 3.
Proof.
  apply (Pop_takes_back (mk 0 2 [""; "a"; "b"] 2) ["a"] "b").
  - apply (reach_Push ["a"; "b"] (mk 0 0 [""; ""; ""] 0)).
    + apply (reach_New 3). reflexivity.
    + reflexivity.
  - reflexivity.
Defined.

(** X8: on every reachable buffer whose live elements are
    [x, x1 .. xn], [Shift()] returns [x] and leaves [x1 .. xn] live; the
    occupancy drops by one and the capacity stays. *)
Theorem Shift_takes_front (s : StRingBuffer) (x : string)
    (xs : list string) :
  reachable s → live s = x :: xs →
  ∃ s', Shift s = Some (x, s') ∧ live s' = xs ∧
        Length s' = Length s - 1 ∧ Capacity s' = Capacity s.
Proof.
  intros (c & ys & HR)%reachable_Rep. rewrite (Rep_live _ _ _ HR).
  intros ->. destruct (Shift_front s c x xs HR) as (s' & H & HR').
  exists s'.
  rewrite (Rep_Length _ _ _ HR), (Rep_Length _ _ _ HR'), len_cons,
    (Rep_Capacity _ _ _ HR), (Rep_Capacity _ _ _ HR').
  split_and!; try done; [by apply Rep_live in HR'|lia].
Qed.

Lemma Shift_takes_front_witness :
  ∃ s', Shift (mk 0 2 [""; "a"; "b"] 2) = Some ("a", s') ∧ live s' = ["b"] ∧
        Length s' = 2 - 1 ∧ Capacity s' = 3.
Proof.
  apply (Shift_takes_front (mk 0 2 [""; "a"; "b"] 2) "a" ["b"]).
  - apply (reach_Push ["a"; "b"] (mk 0 0 [""; ""; ""] 0)).
    + apply (reach_New 3). reflexivity.
    + reflexivity.
  - reflexivity.
Defined.

(** ** The capacity is fixed *)

Lemma store_len l i v l' : store l i v = Some l' → len l' = len l.
Proof.
  unfold store. destruct (_ && _); [|done]. intros [= <-]. apply len_insert.
Qed.

Lemma Push1_Capacity v s s' : Push1 v s = Some s' → Capacity s' = Capacity s.
Proof.
  unfold Push1, Capacity. intros H.
  destruct (Full s); simplify_option_eq; eauto using store_len.
Qed.

Lemma Unshift1_Capacity v s s' :
  Unshift1 v s = Some s' → Capacity s' = Capacity s.
Proof.
  unfold Unshift1, Capacity. intros H.
  destruct (Full s); simplify_option_eq; eauto using store_len.
Qed.

Lemma Pop_Capacity s r s' : Pop s = Some (r, s') → Capacity s' = Capacity s.
Proof.
  unfold Pop, Capacity. intros H.
  destruct (Empty s); simplify_option_eq; eauto using store_len.
Qed.

Lemma Shift_Capacity s r s' :
  Shift s = Some (r, s') → Capacity s' = Capacity s.
Proof.
  unfold Shift, Capacity. intros H.
  destruct (Empty s); simplify_option_eq; eauto using store_len.
Qed.

Lemma Push_Capacity vs s s' : Push vs s = Some s' → Capacity s' = Capacity s.
Proof.
  revert s. induction vs as [|v vs IH]; intros s H; simpl in H.
  - by injection H as <-.
  - destruct (Push1 v s) as [s1|] eqn:H1; [simpl in H|done].
    rewrite (IH _ H). by eapply Push1_Capacity.
Qed.

Lemma Unshift_Capacity vs s s' :
  Unshift vs s = Some s' → Capacity s' = Capacity s.
Proof.
  revert s. induction vs as [|v vs IH]; intros s H; simpl in H.
  - by injection H as <-.
  - destruct (Unshift1 v s) as [s1|] eqn:H1; [simpl in H|done].
    rewrite (IH _ H). by eapply Unshift1_Capacity.
Qed.

Lemma Map_loop_Capacity {W} (f : closure W) l w s w' s' :
  Map_loop f l w s = Some (w', s') → Capacity s' = Capacity s.
Proof.
  revert w s. induction l as [|l IH]; intros w s H; simpl in H.
  - by injection H as _ <-.
  - destruct (Shift s) as [[x s1]|] eqn:H1; [simpl in H|done].
    destruct (f x w) as [y w1].
    destruct (Push1 y s1) as [s2|] eqn:H2; [simpl in H|done].
    rewrite (IH _ _ H), (Push1_Capacity _ _ _ H2).
    by eapply Shift_Capacity.
Qed.

Lemma MapR_loop_Capacity {W} (f : closure W) l w s w' s' :
  MapR_loop f l w s = Some (w', s') → Capacity s' = Capacity s.
Proof.
  revert w s. induction l as [|l IH]; intros w s H; simpl in H.
  - by injection H as _ <-.
  - destruct (Pop s) as [[x s1]|] eqn:H1; [simpl in H|done].
    destruct (f x w) as [y w1].
    destruct (Unshift1 y s1) as [s2|] eqn:H2; [simpl in H|done].
    rewrite (IH _ _ H), (Unshift1_Capacity _ _ _ H2).
    by eapply Pop_Capacity.
Qed.

(** X12: no method resizes the buffer.  Whatever the state (reachable
    or not), a call of [Push], [Pop], [Unshift], [Shift], [Map] or [MapR]
    that returns leaves [Capacity()] as it was. *)
Theorem Capacity_fixed (s s' : StRingBuffer) :
  call s s' → Capacity s' = Capacity s.
Proof.
  intros [vs s0 s1 H|s0 r s1 H|vs s0 s1 H|s0 r s1 H
         |W f w s0 w' s1 H|W f w s0 w' s1 H].
  - by eapply Push_Capacity.
  - by eapply Pop_Capacity.
  - by eapply Unshift_Capacity.
  - by eapply Shift_Capacity.
  - by eapply Map_loop_Capacity.
  - by eapply MapR_loop_Capacity.
Qed.

Lemma Capacity_fixed_witness :
  Capacity (mk 1 1 ["3"; "4"; "2"] 3) = Capacity (mk 0 0 [""; ""; ""] 0).
Proof.
  apply Capacity_fixed.
  apply (call_Push ["1"; "2"; "3"; "4"]). reflexivity.
Defined.

(** ** The invariant of the cursors *)

(** X11: every reachable buffer has [0 <= Length() <= Capacity()], as
    many live elements as [Length()] says, both cursors inside the storage
    when there is one, and [end] lying [Length()] slots after [start],
    modulo the capacity; [Empty()] and [Full()] say that there is no live
    element, and that there are [Capacity()] of them. *)
Theorem reachable_invariant (s : StRingBuffer) :
  reachable s →
  0 <= Length s <= Capacity s ∧ len (live s) = Length s ∧
  (0 < Capacity s →
     0 <= start s < Capacity s ∧ 0 <= end_ s < Capacity s) ∧
  end_ s = (start s + Length s) mod Capacity s ∧
  (Empty s = true ↔ live s = []) ∧
  (Full s = true ↔ len (live s) = Capacity s).
Proof.
  intros (c & xs & HR)%reachable_Rep.
  pose proof (Rep_Length _ _ _ HR) as HL.
  pose proof (Rep_Capacity _ _ _ HR) as HC.
  pose proof (Rep_le _ _ _ HR) as Hle. pose proof (len_nonneg xs).
  rewrite (Rep_live _ _ _ HR), HL, HC.
  destruct HR as ([Hcap Hlen Hst He] & Hc & Hl).
  unfold Length, Capacity in *. rewrite Hc in *.
  split_and!; try done; try lia.
  - intros Hpos. split; [lia|]. rewrite He, HL. by apply Z.mod_pos_bound.
  - by rewrite He, HL.
  - unfold Empty. rewrite HL, Z.eqb_eq. unfold len.
    destruct xs; simpl; split; (done || lia).
  - unfold Full. by rewrite HL, Hc, Z.eqb_eq.
Qed.

Lemma reachable_invariant_witness :
  0 <= Length (mk 1 1 ["3"; "4"; "2"] 3) <= Capacity (mk 1 1 ["3"; "4"; "2"] 3)
  ∧ len (live (mk 1 1 ["3"; "4"; "2"] 3)) = Length (mk 1 1 ["3"; "4"; "2"] 3)
  ∧ (0 < Capacity (mk 1 1 ["3"; "4"; "2"] 3) →
       0 <= start (mk 1 1 ["3"; "4"; "2"] 3)
         < Capacity (mk 1 1 ["3"; "4"; "2"] 3) ∧
       0 <= end_ (mk 1 1 ["3"; "4"; "2"] 3)
         < Capacity (mk 1 1 ["3"; "4"; "2"] 3))
  ∧ end_ (mk 1 1 ["3"; "4"; "2"] 3)
    = (start (mk 1 1 ["3"; "4"; "2"] 3) + Length (mk 1 1 ["3"; "4"; "2"] 3))
        mod Capacity (mk 1 1 ["3"; "4"; "2"] 3)
  ∧ (Empty (mk 1 1 ["3"; "4"; "2"] 3) = true
       ↔ live (mk 1 1 ["3"; "4"; "2"] 3) = [])
  ∧ (Full (mk 1 1 ["3"; "4"; "2"] 3) = true
       ↔ len (live (mk 1 1 ["3"; "4"; "2"] 3))
         = Capacity (mk 1 1 ["3"; "4"; "2"] 3)).
Proof.
  apply (reachable_invariant (mk 1 1 ["3"; "4"; "2"] 3)).
  apply (reach_Push ["1"; "2"; "3"; "4"] (mk 0 0 [""; ""; ""] 0)).
  - apply (reach_New 3). reflexivity.
  - reflexivity.
Defined.

(** ** [MapR], [Each] and [EachR] *)

Lemma length_thread {W} (f : closure W) xs w :
  length (thread f xs w).1 = length xs.
Proof.
  revert w. induction xs as [|x xs IH]; intros w; simpl; [done|].
  destruct (f x w) as [y w1]. specialize (IH w1).
  destruct (thread f xs w1). simpl in *. lia.
Qed.

Lemma length_thread_rev {W} (f : closure W) xs w :
  length (thread_rev f xs w).1 = length xs.
Proof.
  unfold thread_rev. pose proof (length_thread f (reverse xs) w) as H.
  destruct (thread f (reverse xs) w). simpl in *.
  by rewrite length_reverse in *.
Qed.

Lemma thread_mkId {W} (f : string → W → W) xs w :
  thread (mkId f) xs w = (xs, fold_left (λ a x, f x a) xs w).
Proof.
  revert w. induction xs as [|x xs IH]; intros w; simpl; [done|].
  by rewrite IH.
Qed.

Lemma thread_rev_mkId {W} (f : string → W → W) xs w :
  thread_rev (mkId f) xs w = (xs, fold_left (λ a x, f x a) (reverse xs) w).
Proof.
  unfold thread_rev. by rewrite thread_mkId, reverse_involutive.
Qed.

(** X9: on every reachable buffer, full ones included, [MapR(f)]
    returns; it hands [f] the live elements from the back one to the front
    one, puts each result where the element was, and leaves occupancy and
    capacity as they were. *)
Theorem MapR_back_to_front {W : Type} (f : closure W) (w : W)
    (s : StRingBuffer) :
  reachable s →
  ∃ s', MapR f w s = Some ((thread_rev f (live s) w).2, s') ∧
        live s' = (thread_rev f (live s) w).1 ∧
        Length s' = Length s ∧ Capacity s' = Capacity s.
Proof.
  intros (c & xs & HR)%reachable_Rep.
  destruct (MapR_Rep f c xs w s HR) as (s' & H & HR').
  rewrite (Rep_live _ _ _ HR). exists s'.
  rewrite (Rep_Length _ _ _ HR), (Rep_Length _ _ _ HR'),
    (Rep_Capacity _ _ _ HR), (Rep_Capacity _ _ _ HR').
  split_and!; try done; [by apply Rep_live in HR'|].
  unfold len. by rewrite length_thread_rev.
Qed.

Lemma MapR_back_to_front_witness :
  ∃ s', MapR mark_and_log [] (mk 0 0 ["c"; "a"; "b"] 3)
          = Some (["c"; "b"; "a"], s') ∧
        live s' = ["a!"; "b!"; "c!"] ∧ Length s' = 3 ∧ Capacity s' = 3.
Proof.
  apply (MapR_back_to_front mark_and_log [] (mk 0 0 ["c"; "a"; "b"] 3)).
  apply (reach_Push ["a"; "b"; "c"] (mk 0 0 [""; ""; ""] 0)).
  - apply (reach_New 3). reflexivity.
  - reflexivity.
Defined.

(** X10: on every reachable buffer, [Each(f)] and [EachR(f)] return
    and leave the live elements and the occupancy as they were; [Each]
    calls [f] on the live elements from front to back, [EachR] from back
    to front. *)
Theorem Each_EachR_traverse {W : Type} (f : string → W → W) (w : W)
    (s : StRingBuffer) :
  reachable s →
  (∃ s', Each f w s = Some (fold_left (λ a x, f x a) (live s) w, s') ∧
         live s' = live s ∧ Length s' = Length s) ∧
  (∃ s', EachR f w s
           = Some (fold_left (λ a x, f x a) (reverse (live s)) w, s') ∧
         live s' = live s ∧ Length s' = Length s).
Proof.
  intros (c & xs & HR)%reachable_Rep. rewrite (Rep_live _ _ _ HR).
  unfold Each, EachR. split.
  - destruct (Map_Rep (mkId f) c xs w s HR) as (s' & H & HR').
    rewrite thread_mkId in *. simpl in *. exists s'.
    rewrite (Rep_Length _ _ _ HR), (Rep_Length _ _ _ HR').
    split_and!; try done. by apply Rep_live in HR'.
  - destruct (MapR_Rep (mkId f) c xs w s HR) as (s' & H & HR').
    rewrite thread_rev_mkId in *. simpl in *. exists s'.
    rewrite (Rep_Length _ _ _ HR), (Rep_Length _ _ _ HR').
    split_and!; try done. by apply Rep_live in HR'.
Qed.

Lemma Each_EachR_traverse_witness :
  (∃ s', Each sum_up ""%string (mk 0 2 [""; "a"; "b"] 2)
           = Some ("ab"%string, s') ∧
         live s' = ["a"; "b"] ∧ Length s' = 2) ∧
  (∃ s', EachR sum_up ""%string (mk 0 2 [""; "a"; "b"] 2)
           = Some ("ba"%string, s') ∧
         live s' = ["a"; "b"] ∧ Length s' = 2).
Proof.
  apply (Each_EachR_traverse sum_up ""%string (mk 0 2 [""; "a"; "b"] 2)).
  apply (reach_Push ["a"; "b"] (mk 0 0 [""; ""; ""] 0)).
  - apply (reach_New 3). reflexivity.
  - reflexivity.
Defined.

(** ** Where the methods panic *)

Lemma Push_cap0 s c xs v vs : Rep s c xs → c = 0 → Push (v :: vs) s = None.
Proof.
  intros HR ->. apply Rep_cap0 in HR as [? ?]. simpl.
  by rewrite Push1_cap0.
Qed.

Lemma Unshift_cap0 s c xs v vs :
  Rep s c xs → c = 0 → Unshift (v :: vs) s = None.
Proof.
  intros HR ->. apply Rep_cap0 in HR as [? ?]. simpl.
  by rewrite Unshift1_cap0.
Qed.

(** X13: on a reachable buffer, [Pop], [Shift], [Map] and [MapR] never
    panic, and [Push] and [Unshift] panic in one case only: at least one
    value on a buffer of capacity 0. *)
Theorem panics_only_at_capacity_0 (s : StRingBuffer) :
  reachable s →
  is_Some (Pop s) ∧ is_Some (Shift s) ∧
  (∀ (W : Type) (f : closure W) (w : W),
      is_Some (Map f w s) ∧ is_Some (MapR f w s)) ∧
  (∀ vs, is_Some (Push vs s) ↔ vs = [] ∨ 0 < Capacity s) ∧
  (∀ vs, is_Some (Unshift vs s) ↔ vs = [] ∨ 0 < Capacity s).
Proof.
  intros (c & xs & HR)%reachable_Rep.
  rewrite (Rep_Capacity _ _ _ HR).
  pose proof (Rep_le _ _ _ HR) as Hle. pose proof (len_nonneg xs) as Hnn.
  split_and!.
  - destruct xs as [|x xs _] using rev_ind.
    + rewrite Pop_empty by (by apply Rep_length in HR). by eexists.
    + destruct (Pop_back s c xs x HR) as (s' & -> & _). by eexists.
  - destruct xs as [|x xs].
    + rewrite Shift_empty by (by apply Rep_length in HR). by eexists.
    + destruct (Shift_front s c x xs HR) as (s' & -> & _). by eexists.
  - intros W f w. split.
    + destruct (Map_Rep f c xs w s HR) as (s' & -> & _). by eexists.
    + destruct (MapR_Rep f c xs w s HR) as (s' & -> & _). by eexists.
  - intros vs. split.
    + intros [s' H]. destruct vs as [|v vs]; [by left|right].
      destruct (decide (0 < c)); [done|].
      rewrite (Push_cap0 s c xs v vs HR) in H by lia. done.
    + intros [->|Hc]; [by eexists|].
      destruct (Push_window s c xs vs HR Hc) as (s' & -> & _). by eexists.
  - intros vs. split.
    + intros [s' H]. destruct vs as [|v vs]; [by left|right].
      destruct (decide (0 < c)); [done|].
      rewrite (Unshift_cap0 s c xs v vs HR) in H by lia. done.
    + intros [->|Hc]; [by eexists|].
      destruct (Unshift_window s c xs vs HR Hc) as (s' & -> & _). by eexists.
Qed.

Lemma panics_only_at_capacity_0_witness :
  is_Some (Pop (mk 0 0 [] 0)) ∧ is_Some (Shift (mk 0 0 [] 0)) ∧
  (∀ (W : Type) (f : closure W) (w : W),
      is_Some (Map f w (mk 0 0 [] 0)) ∧ is_Some (MapR f w (mk 0 0 [] 0))) ∧
  (∀ vs, is_Some (Push vs (mk 0 0 [] 0))
         ↔ vs = [] ∨ 0 < Capacity (mk 0 0 [] 0)) ∧
  (∀ vs, is_Some (Unshift vs (mk 0 0 [] 0))
         ↔ vs = [] ∨ 0 < Capacity (mk 0 0 [] 0)).
Proof.
  apply (panics_only_at_capacity_0 (mk 0 0 [] 0)).
  apply (reach_New 0). reflexivity.
Defined.

(** ** Slots without a live element *)

Lemma ring_insert_at l b n (k : nat) v :
  (k < n)%nat → (n <= length l)%nat →
  ring (<[slot l (b + Z.of_nat k) := v]> l) b n = <[k := v]> (ring l b n).
Proof.
  intros Hk Hn. assert (0 < len l) by nat_len.
  apply list_eq. intros i.
  destruct (decide (i < n)%nat) as [Hi|Hi].
  2:{ rewrite !lookup_ge_None_2; [done|..];
        rewrite ?length_insert, length_ring; lia. }
  rewrite ring_lookup, slot_insert by done.
  destruct (decide (i = k)) as [->|Hne].
  - rewrite !list_lookup_insert_eq; [done|..].
    + rewrite length_ring. lia.
    + by apply slot_lt.
  - rewrite !list_lookup_insert_ne; [by rewrite ring_lookup|done|].
    apply slot_ne; nat_len.
Qed.

(** Starting the full turn [k] slots later rotates it by [k]. *)
Lemma ring_rotate l b (k : nat) :
  (k <= length l)%nat →
  ring l (b + Z.of_nat k) (length l)
  = drop k (ring l b (length l)) ++ take k (ring l b (length l)).
Proof.
  intros Hk.
  assert (E : ring l b (length l)
              = ring l b k ++ ring l (b + Z.of_nat k) (length l - k)).
  { rewrite <- RingB_Laws.ring_app. f_equal. lia. }
  rewrite E, drop_app_length', take_app_length' by (by rewrite length_ring).
  replace (length l) with ((length l - k) + k)%nat at 1 by lia.
  rewrite RingB_Laws.ring_app. f_equal.
  apply (ring_base_shift _ _ _ _ 1). nat_len.
Qed.

Lemma ring_rotate_back l b :
  (0 < length l)%nat →
  ring l (b - 1) (length l)
  = drop (length l - 1) (ring l b (length l))
    ++ take (length l - 1) (ring l b (length l)).
Proof.
  intros Hl. rewrite <- ring_rotate by lia.
  apply (ring_base_shift _ _ _ _ (-1)). nat_len.
Qed.

Lemma ring_rotate_1 l b n :
  n = length l → (0 < n)%nat →
  ring l (b + 1) n = drop 1 (ring l b n) ++ take 1 (ring l b n).
Proof. intros -> H. by rewrite <- (ring_rotate l b 1) by lia. Qed.

Lemma ring_rotate_last l b n :
  n = length l → (0 < n)%nat →
  ring l (b - 1) n = drop (n - 1) (ring l b n) ++ take (n - 1) (ring l b n).
Proof. intros -> H. by apply ring_rotate_back. Qed.

Lemma insert_middle {A} (a : list A) (y v : A) (r : list A) :
  <[length a := v]> (a ++ y :: r) = a ++ v :: r.
Proof. induction a as [|z a IH]; simpl; [done|]. by rewrite IH. Qed.

(** The full turn of a clean buffer, under the six writes. *)
Lemma padded_set_first (k : nat) xs v :
  (length xs < k)%nat →
  <[length xs := v]> (xs ++ replicate (k - length xs) "")
  = (xs ++ [v]) ++ replicate (k - length (xs ++ [v])) "".
Proof.
  intros H. rewrite length_app. simpl.
  replace (k - length xs)%nat with (S (k - (length xs + 1))) by lia.
  rewrite replicate_S, insert_middle, <- app_assoc. done.
Qed.

Lemma padded_clear_last (k : nat) xs x :
  (length xs < k)%nat →
  <[length xs := ""]> ((xs ++ [x]) ++ replicate (k - length (xs ++ [x])) "")
  = xs ++ replicate (k - length xs) "".
Proof.
  intros H. rewrite length_app. simpl.
  rewrite <- app_assoc. simpl. rewrite insert_middle.
  replace (k - length xs)%nat with (S (k - (length xs + 1))) by lia.
  done.
Qed.

Lemma padded_shift (k : nat) x xs :
  (length xs < k)%nat →
  drop 1 (<[0%nat := ""]> ((x :: xs) ++ replicate (k - length (x :: xs)) ""))
  ++ take 1
       (<[0%nat := ""]> ((x :: xs) ++ replicate (k - length (x :: xs)) ""))
  = xs ++ replicate (k - length xs) "".
Proof.
  intros H. simpl. rewrite drop_0, <- app_assoc.
  replace (k - length xs)%nat with (S (k - S (length xs))) by lia.
  by rewrite replicate_S_end.
Qed.

Lemma padded_push_full (k : nat) x xs v :
  length (x :: xs) = k →
  drop 1 (<[0%nat := v]> ((x :: xs) ++ replicate (k - length (x :: xs)) ""))
  ++ take 1
       (<[0%nat := v]> ((x :: xs) ++ replicate (k - length (x :: xs)) ""))
  = (xs ++ [v]) ++ replicate (k - length (xs ++ [v])) "".
Proof.
  intros <-. rewrite length_app. simpl. rewrite drop_0.
  replace (S (length xs) - (length xs + 1))%nat with 0%nat by lia.
  rewrite Nat.sub_diag. simpl. by rewrite !app_nil_r.
Qed.

Lemma padded_unshift (k : nat) xs v :
  (length xs < k)%nat →
  drop (k - 1) (<[(k - 1)%nat := v]> (xs ++ replicate (k - length xs) ""))
  ++ take (k - 1) (<[(k - 1)%nat := v]> (xs ++ replicate (k - length xs) ""))
  = (v :: xs) ++ replicate (k - length (v :: xs)) "".
Proof.
  intros H. simpl.
  replace (k - length xs)%nat with (S (k - S (length xs))) by lia.
  rewrite replicate_S_end, app_assoc.
  replace (k - 1)%nat with (length (xs ++ replicate (k - S (length xs)) ""))
    by (rewrite length_app, length_replicate; lia).
  rewrite insert_middle, drop_app_length, take_app_length. done.
Qed.

Lemma padded_unshift_full (k : nat) xs x v :
  length (xs ++ [x]) = k →
  drop (k - 1)
    (<[(k - 1)%nat := v]>
       ((xs ++ [x]) ++ replicate (k - length (xs ++ [x])) ""))
  ++ take (k - 1)
       (<[(k - 1)%nat := v]>
          ((xs ++ [x]) ++ replicate (k - length (xs ++ [x])) ""))
  = (v :: xs) ++ replicate (k - length (v :: xs)) "".
Proof.
  intros <-. rewrite length_app. simpl.
  replace (length xs + 1 - (length xs + 1))%nat with 0%nat by lia.
  replace (length xs + 1 - S (length xs))%nat with 0%nat by lia.
  replace (length xs + 1 - 1)%nat with (length xs) by lia.
  simpl. rewrite !app_nil_r, insert_middle, drop_app_length, take_app_length.
  done.
Qed.

Lemma Canon_elim s c xs :
  Canon s c xs →
  ∃ st l, s = mk st ((st + len xs) mod len l) l (len xs) ∧
          len l = c ∧ c <= max_len ∧ len xs <= c ∧
          (0 <= st < c ∨ c = 0) ∧
          ring l (st + 1) (length l)
          = xs ++ replicate (length l - length xs) "".
Proof.
  intros [HR HC]. pose proof (Rep_live _ _ _ HR) as Hl.
  apply Rep_iff in HR as (st & l & -> & Hc & Hcap & Hlen & Hst & _).
  exists st, l. split_and!; try done.
  unfold Clean, walk in HC. simpl in *. rewrite Hl in HC.
  by replace (Z.to_nat (len xs)) with (length xs) in HC by nat_len.
Qed.

Lemma Canon_intro st e l n c xs :
  len l = c → c <= max_len → n = len xs → len xs <= c →
  0 <= st < c ∨ c = 0 → e = (st + len xs) mod c →
  ring l (st + 1) (length l) = xs ++ replicate (length l - length xs) "" →
  Canon (mk st e l n) c xs.
Proof.
  intros Hc Hcap -> Hlen Hst -> Hw.
  assert (Hl : ring l (st + 1) (length xs) = xs).
  { replace (length l) with (length xs + (length l - length xs))%nat in Hw
      at 1 by nat_len.
    rewrite RingB_Laws.ring_app in Hw.
    apply app_inj_1 in Hw as [? _]; [done|by rewrite length_ring]. }
  assert (HR : Rep (mk st ((st + len xs) mod c) l (len xs)) c xs)
    by (by apply Rep_intro).
  split; [done|]. unfold Clean, walk. rewrite (Rep_live _ _ _ HR). simpl.
  by replace (Z.to_nat (len xs)) with (length xs) by nat_len.
Qed.

Lemma Canon_Rep s c xs : Canon s c xs → Rep s c xs.
Proof. by intros [? _]. Qed.

Lemma Push1_grow_Canon s c xs v :
  Canon s c xs → len xs < c →
  ∃ s', Push1 v s = Some s' ∧ start s' = start s ∧ Canon s' c (xs ++ [v]).
Proof.
  intros (st & l & -> & Hc & Hcap & Hlen & Hst & Hw)%Canon_elim Hlt. subst c.
  pose proof max_len_small. pose proof (len_nonneg xs).
  assert (Hc : 0 < len l) by lia. destruct Hst as [Hst|]; [|lia].
  pose proof (Z.mod_pos_bound (st + len xs) _ Hc).
  unfold_op. destruct (Z.eqb_spec (len xs) (len l)); [lia|]. simpl.
  rewrite (int_add_small (len xs) 1) by lia.
  rewrite (mod_succ (mk st _ l _)) by (simpl; lia). simpl.
  rewrite store_ok by (by apply Z.mod_pos_bound).
  eexists; split_and!; [done..|].
  apply Canon_intro;
    rewrite ?len_app_1, ?len_insert, ?length_insert; try lia.
  - rewrite Z.add_mod_idemp_l by lia. f_equal. lia.
  - change (Z.to_nat (?x mod len l)) with (slot l x).
    rewrite slot_add_mod.
    rewrite (slot_eq_shift l _ (st + 1 + Z.of_nat (length xs)) 0) by nat_len.
    rewrite ring_insert_at, Hw by nat_len.
    apply padded_set_first. nat_len.
Qed.

Lemma Push1_full_Canon s c x xs v :
  Canon s c (x :: xs) → len (x :: xs) = c →
  ∃ s', Push1 v s = Some s' ∧ start s' = (start s + 1) mod c ∧
        Canon s' c (xs ++ [v]).
Proof.
  intros (st & l & -> & Hc & Hcap & Hlen & Hst & Hw)%Canon_elim Hfull.
  subst c. pose proof max_len_small. pose proof (len_nonneg xs).
  rewrite len_cons in *.
  assert (Hc : 0 < len l) by lia. destruct Hst as [Hst|]; [|lia].
  unfold_op. destruct (Z.eqb_spec (len xs + 1) (len l)); [|lia]. simpl.
  rewrite (mod_succ (mk st _ l _)) by (simpl; lia). simpl.
  rewrite (mod_succ (mk _ _ l _)) by (simpl; by try apply Z.mod_pos_bound).
  simpl. rewrite store_ok by (by apply Z.mod_pos_bound).
  eexists; split_and!; [done..|].
  apply Canon_intro;
    rewrite ?len_app_1, ?len_insert, ?length_insert; try lia.
  - left. by apply Z.mod_pos_bound.
  - rewrite !Z.add_mod_idemp_l by lia. f_equal. lia.
  - change (Z.to_nat (?x mod len l)) with (slot l x).
    rewrite (ring_base_mod_add _ (len l)), slot_add_mod by apply len_insert.
    rewrite (slot_eq_shift l _ (st + 1 + Z.of_nat 0) 1) by nat_len.
    rewrite ring_rotate_1 by (rewrite ?length_insert; nat_len).
    rewrite ?length_insert, ring_insert_at, Hw by nat_len.
    apply padded_push_full. simpl. nat_len.
Qed.

Lemma Pop_back_Canon s c xs x :
  Canon s c (xs ++ [x]) →
  ∃ s', Pop s = Some (x, s') ∧ start s' = start s ∧ Canon s' c xs.
Proof.
  intros HCn. pose proof (Canon_Rep _ _ _ HCn) as HR.
  destruct (Pop_back s c xs x HR) as (s0 & Hpop & _).
  apply Canon_elim in HCn as (st & l & -> & Hc & Hcap & Hlen & Hst & Hw).
  subst c. pose proof max_len_small. pose proof (len_nonneg xs).
  rewrite len_app_1 in *.
  assert (Hc : 0 < len l) by lia. destruct Hst as [Hst|]; [|lia].
  pose proof (Z.mod_pos_bound (st + (len xs + 1)) _ Hc).
  revert Hpop. unfold_op.
  destruct (Z.eqb_spec (len xs + 1) 0); [lia|]. simpl.
  rewrite (int_sub_small (len xs + 1) 1) by lia.
  rewrite load_ok, store_ok by done. simpl.
  rewrite (mod_pred (mk _ _ _ _)) by (simpl; by rewrite len_insert). simpl.
  intros [= Hx <-]. rewrite Hx.
  eexists; split_and!; [done..|].
  apply Canon_intro; rewrite ?len_insert, ?length_insert; try lia.
  - rewrite Zminus_mod_idemp_l. f_equal. lia.
  - change (Z.to_nat (?x mod len l)) with (slot l x).
    rewrite (slot_eq_shift l _ (st + 1 + Z.of_nat (length xs)) 0) by nat_len.
    rewrite ring_insert_at, Hw by nat_len.
    apply padded_clear_last. nat_len.
Qed.

Lemma Shift_front_Canon s c x xs :
  Canon s c (x :: xs) →
  ∃ s', Shift s = Some (x, s') ∧ start s' = (start s + 1) mod c ∧
        Canon s' c xs.
Proof.
  intros HCn. pose proof (Canon_Rep _ _ _ HCn) as HR.
  destruct (Shift_front s c x xs HR) as (s0 & Hsh & _).
  apply Canon_elim in HCn as (st & l & -> & Hc & Hcap & Hlen & Hst & Hw).
  subst c. pose proof max_len_small. pose proof (len_nonneg xs).
  rewrite len_cons in *.
  assert (Hc : 0 < len l) by lia. destruct Hst as [Hst|]; [|lia].
  revert Hsh. unfold_op.
  destruct (Z.eqb_spec (len xs + 1) 0); [lia|]. simpl.
  rewrite (int_sub_small (len xs + 1) 1) by lia.
  rewrite (mod_succ (mk _ _ _ _)) by (simpl; lia). simpl.
  rewrite load_ok, store_ok by (by apply Z.mod_pos_bound). simpl.
  intros [= Hx <-]. rewrite Hx.
  eexists; split_and!; [done..|].
  apply Canon_intro; rewrite ?len_insert, ?length_insert; try lia.
  - left. by apply Z.mod_pos_bound.
  - rewrite Z.add_mod_idemp_l by lia. f_equal. lia.
  - change (Z.to_nat (?x mod len l)) with (slot l x).
    rewrite (ring_base_mod_add _ (len l)) by apply len_insert.
    rewrite (slot_eq_shift l _ (st + 1 + Z.of_nat 0) 0) by nat_len.
    rewrite ring_rotate_1 by (rewrite ?length_insert; nat_len).
    rewrite ?length_insert, ring_insert_at, Hw by nat_len.
    apply padded_shift. simpl in Hlen. nat_len.
Qed.

Lemma Unshift1_grow_Canon s c xs v :
  Canon s c xs → len xs < c →
  ∃ s', Unshift1 v s = Some s' ∧ start s' = (start s - 1) mod c ∧
        Canon s' c (v :: xs).
Proof.
  intros (st & l & -> & Hc & Hcap & Hlen & Hst & Hw)%Canon_elim Hlt. subst c.
  pose proof max_len_small. pose proof (len_nonneg xs).
  assert (Hc : 0 < len l) by lia. destruct Hst as [Hst|]; [|lia].
  unfold_op. destruct (Z.eqb_spec (len xs) (len l)); [lia|]. simpl.
  rewrite (int_add_small (len xs) 1) by lia.
  rewrite store_ok by done. simpl.
  rewrite (mod_pred (mk _ _ _ _)) by (simpl; by rewrite len_insert). simpl.
  rewrite len_insert.
  eexists; split_and!; [done..|].
  apply Canon_intro; rewrite ?len_cons, ?len_insert, ?length_insert; try lia.
  - left. by apply Z.mod_pos_bound.
  - rewrite Z.add_mod_idemp_l by lia. apply (mod_eq_shift _ _ _ 0). lia.
  - rewrite (ring_base_mod_add _ (len l)) by apply len_insert.
    replace (st - 1 + 1) with (st + 1 - 1) by lia.
    rewrite ring_rotate_last by (rewrite ?length_insert; nat_len).
    rewrite <- (slot_small l st) by done.
    rewrite (slot_eq_shift l st (st + 1 + Z.of_nat (length l - 1)) (-1))
      by nat_len.
    rewrite ring_insert_at, Hw by nat_len.
    apply padded_unshift. nat_len.
Qed.

Lemma Unshift1_full_Canon s c xs x v :
  Canon s c (xs ++ [x]) → len (xs ++ [x]) = c →
  ∃ s', Unshift1 v s = Some s' ∧ start s' = (start s - 1) mod c ∧
        Canon s' c (v :: xs).
Proof.
  intros (st & l & -> & Hc & Hcap & Hlen & Hst & Hw)%Canon_elim Hfull.
  subst c. pose proof max_len_small. pose proof (len_nonneg xs).
  rewrite len_app_1 in *.
  assert (Hc : 0 < len l) by lia. destruct Hst as [Hst|]; [|lia].
  unfold_op. destruct (Z.eqb_spec (len xs + 1) (len l)); [|lia]. simpl.
  rewrite (mod_pred (mk _ _ _ _)) by (simpl; by try apply Z.mod_pos_bound).
  simpl. rewrite store_ok by done. simpl.
  rewrite (mod_pred (mk _ _ _ _)) by (simpl; by rewrite len_insert). simpl.
  rewrite len_insert.
  eexists; split_and!; [done..|].
  apply Canon_intro; rewrite ?len_cons, ?len_insert, ?length_insert; try lia.
  - left. by apply Z.mod_pos_bound.
  - rewrite Zminus_mod_idemp_l, Z.add_mod_idemp_l by lia.
    apply (mod_eq_shift _ _ _ 0). lia.
  - rewrite (ring_base_mod_add _ (len l)) by apply len_insert.
    replace (st - 1 + 1) with (st + 1 - 1) by lia.
    rewrite ring_rotate_last by (rewrite ?length_insert; nat_len).
    rewrite <- (slot_small l st) by done.
    rewrite (slot_eq_shift l st (st + 1 + Z.of_nat (length l - 1)) (-1))
      by nat_len.
    rewrite ring_insert_at, Hw by nat_len.
    apply padded_unshift_full. rewrite length_app. simpl. nat_len.
Qed.

Lemma Canon_New size s : NewStRingBuffer size = Some s → Canon s size [].
Proof.
  intros H. pose proof (Rep_New size s H) as HR. split; [done|].
  unfold Clean, walk. rewrite (Rep_live _ _ _ HR).
  unfold NewStRingBuffer, make in H.
  destruct (_ && _); [|done]. simpl in H. injection H as <-. simpl.
  rewrite length_replicate, Nat.sub_0_r.
  apply list_eq. intros i.
  destruct (decide (i < Z.to_nat size)%nat) as [Hi|Hi].
  - rewrite ring_lookup by done.
    assert (Hs : 0 < len (replicate (Z.to_nat size) ""))
      by (unfold len; rewrite length_replicate; lia).
    pose proof (slot_lt (replicate (Z.to_nat size) "") (0 + 1 + Z.of_nat i) Hs)
      as Hlt.
    rewrite length_replicate in Hlt.
    by rewrite !lookup_replicate_2 by done.
  - rewrite !lookup_ge_None_2; [done|..];
      rewrite ?length_ring, ?length_replicate; lia.
Qed.

(** Every call keeps the buffer clean. *)
Lemma Push1_Canon s c xs v s' :
  Canon s c xs → Push1 v s = Some s' → ∃ xs', Canon s' c xs'.
Proof.
  intros HC H. pose proof (Rep_le _ _ _ (Canon_Rep _ _ _ HC)) as Hle.
  destruct (decide (len xs < c)) as [Hlt|Hge].
  - destruct (Push1_grow_Canon s c xs v HC Hlt) as (s1 & H1 & _ & HC1).
    exists (xs ++ [v]). congruence.
  - destruct xs as [|x xs].
    + assert (c = 0) as -> by (unfold len in *; simpl in *; lia).
      apply Canon_Rep, Rep_cap0 in HC as [? ?]. by rewrite Push1_cap0 in H.
    + destruct (Push1_full_Canon s c x xs v HC) as (s1 & H1 & _ & HC1);
        [lia|].
      exists (xs ++ [v]). congruence.
Qed.

Lemma Push_Canon s c xs vs s' :
  Canon s c xs → Push vs s = Some s' → ∃ xs', Canon s' c xs'.
Proof.
  revert s xs. induction vs as [|v vs IH]; intros s xs HC H; simpl in H.
  - injection H as <-. by exists xs.
  - destruct (Push1 v s) as [s1|] eqn:H1; [simpl in H|done].
    destruct (Push1_Canon _ _ _ _ _ HC H1) as (xs1 & HC1). by eapply IH.
Qed.

Lemma Unshift1_Canon s c xs v s' :
  Canon s c xs → Unshift1 v s = Some s' → ∃ xs', Canon s' c xs'.
Proof.
  intros HC H. pose proof (Rep_le _ _ _ (Canon_Rep _ _ _ HC)) as Hle.
  destruct (decide (len xs < c)) as [Hlt|Hge].
  - destruct (Unshift1_grow_Canon s c xs v HC Hlt) as (s1 & H1 & _ & HC1).
    exists (v :: xs). congruence.
  - destruct xs as [|x xs _] using rev_ind.
    + assert (c = 0) as -> by (unfold len in *; simpl in *; lia).
      apply Canon_Rep, Rep_cap0 in HC as [? ?].
      by rewrite Unshift1_cap0 in H.
    + destruct (Unshift1_full_Canon s c xs x v HC) as (s1 & H1 & _ & HC1);
        [lia|].
      exists (v :: xs). congruence.
Qed.

Lemma Unshift_Canon s c xs vs s' :
  Canon s c xs → Unshift vs s = Some s' → ∃ xs', Canon s' c xs'.
Proof.
  revert s xs. induction vs as [|v vs IH]; intros s xs HC H; simpl in H.
  - injection H as <-. by exists xs.
  - destruct (Unshift1 v s) as [s1|] eqn:H1; [simpl in H|done].
    destruct (Unshift1_Canon _ _ _ _ _ HC H1) as (xs1 & HC1). by eapply IH.
Qed.

Lemma Pop_Canon s c xs r s' :
  Canon s c xs → Pop s = Some (r, s') → ∃ xs', Canon s' c xs'.
Proof.
  intros HC H. destruct xs as [|x xs _] using rev_ind.
  - rewrite Pop_empty in H by (by apply Canon_Rep, Rep_length in HC).
    injection H as _ <-. by exists [].
  - destruct (Pop_back_Canon s c xs x HC) as (s1 & H1 & _ & HC1).
    exists xs. congruence.
Qed.

Lemma Shift_Canon s c xs r s' :
  Canon s c xs → Shift s = Some (r, s') → ∃ xs', Canon s' c xs'.
Proof.
  intros HC H. destruct xs as [|x xs].
  - rewrite Shift_empty in H by (by apply Canon_Rep, Rep_length in HC).
    injection H as _ <-. by exists [].
  - destruct (Shift_front_Canon s c x xs HC) as (s1 & H1 & _ & HC1).
    exists xs. congruence.
Qed.

Lemma Map_loop_Canon {W} (f : closure W) c xs done w s :
  Canon s c (xs ++ done) →
  ∃ w' s' ys, Map_loop f (length xs) w s = Some (w', s') ∧ Canon s' c ys.
Proof.
  revert done w s. induction xs as [|x xs IH]; intros done w s HC; simpl.
  - by exists w, s, ([] ++ done).
  - pose proof (Rep_le _ _ _ (Canon_Rep _ _ _ HC)) as Hle. simpl in Hle.
    rewrite len_cons in Hle.
    destruct (Shift_front_Canon s c x (xs ++ done) HC) as (s1 & -> & _ & HC1).
    simpl. destruct (f x w) as [y w1].
    destruct (Push1_grow_Canon s1 c _ y HC1) as (s2 & -> & _ & HC2); [lia|].
    simpl. rewrite <- app_assoc in HC2.
    apply (IH (done ++ [y]) w1 s2 HC2).
Qed.

Lemma MapR_loop_Canon {W} (f : closure W) c rxs done w s :
  Canon s c (done ++ reverse rxs) →
  ∃ w' s' ys, MapR_loop f (length rxs) w s = Some (w', s') ∧ Canon s' c ys.
Proof.
  revert done w s. induction rxs as [|x r IH]; intros done w s HC; simpl.
  - by exists w, s, (done ++ reverse []).
  - rewrite reverse_cons, app_assoc in HC.
    pose proof (Rep_le _ _ _ (Canon_Rep _ _ _ HC)) as Hle.
    rewrite len_app_1 in Hle.
    destruct (Pop_back_Canon s c _ x HC) as (s1 & -> & _ & HC1). simpl.
    destruct (f x w) as [y w1].
    destruct (Unshift1_grow_Canon s1 c _ y HC1) as (s2 & -> & _ & HC2);
      [lia|].
    simpl. apply (IH (y :: done) w1 s2 HC2).
Qed.

Lemma reachable_Canon s : reachable s → ∃ c xs, Canon s c xs.
Proof.
  induction 1 as [size s H | vs s s' _ (c & xs & HC) H
    | s r s' _ (c & xs & HC) H | vs s s' _ (c & xs & HC) H
    | s r s' _ (c & xs & HC) H | W f w s w' s' _ (c & xs & HC) H
    | W f w s w' s' _ (c & xs & HC) H].
  - exists size, []. by apply Canon_New.
  - exists c. by eapply Push_Canon.
  - exists c. by eapply Pop_Canon.
  - exists c. by eapply Unshift_Canon.
  - exists c. by eapply Shift_Canon.
  - exists c. unfold Map, Length in H.
    rewrite (Rep_length _ _ _ (Canon_Rep _ _ _ HC)) in H.
    replace (Z.to_nat (len xs)) with (length xs) in H by nat_len.
    rewrite <- (app_nil_r xs) in HC.
    destruct (Map_loop_Canon f c xs [] w s HC) as (w1 & s1 & ys & H1 & HC1).
    exists ys. congruence.
  - exists c. unfold MapR, Length in H.
    rewrite (Rep_length _ _ _ (Canon_Rep _ _ _ HC)) in H.
    replace (Z.to_nat (len xs)) with (length (reverse xs)) in H
      by (rewrite length_reverse; nat_len).
    rewrite <- (reverse_involutive xs) in HC.
    destruct (MapR_loop_Canon f c (reverse xs) [] w s HC)
      as (w1 & s1 & ys & H1 & HC1).
    exists ys. congruence.
Qed.

(** X14: in every reachable buffer, every slot that holds no live
    element holds the empty string: read one full turn from the front
    slot, the storage is the live elements followed by empty strings
    only.  ([Pop] and [Shift] clear the slot they vacate, and eviction
    overwrites.) *)
Theorem stale_slots_empty (s : StRingBuffer) :
  reachable s →
  walk s = live s ++ replicate (length (lines s) - length (live s)) "".
Proof.
  intros (c & xs & [HR HC])%reachable_Canon.
  unfold Clean in HC. rewrite HC. do 2 f_equal.
  rewrite (Rep_live _ _ _ HR), (Rep_length _ _ _ HR). nat_len.
Qed.

Lemma stale_slots_empty_witness :
  walk (mk 0 1 [""; "b"; ""; ""] 1)
  = live (mk 0 1 [""; "b"; ""; ""] 1)
    ++ replicate (length [""; "b"; ""; ""]
                  - length (live (mk 0 1 [""; "b"; ""; ""] 1))) "".
Proof.
  apply (stale_slots_empty (mk 0 1 [""; "b"; ""; ""] 1)).
  apply (reach_Shift (mk 3 1 ["a"; "b"; ""; ""] 2) "a").
  - apply (reach_Unshift ["a"] (mk 0 1 [""; "b"; ""; ""] 1)).
    + apply (reach_Push ["b"] (mk 0 0 [""; ""; ""; ""] 0)).
      * apply (reach_New 4). reflexivity.
      * reflexivity.
    + reflexivity.
  - reflexivity.
Defined.

(** ** [Pop] undoes [Push], [Shift] undoes [Unshift] *)

(** A clean buffer is determined by its capacity, its first cursor and
    its live elements. *)
Lemma Canon_inj s s' c xs :
  Canon s c xs → Canon s' c xs → start s = start s' → s = s'.
Proof.
  intros (st & l & -> & Hc & _ & _ & _ & Hw)%Canon_elim
         (st' & l' & -> & Hc' & _ & _ & _ & Hw')%Canon_elim Hst.
  simpl in Hst. subst st'.
  assert (Hlen : length l = length l') by nat_len.
  assert (l = l') as <-; [|done].
  apply (ring_full_inj l l' (st + 1)); [done|].
  rewrite Hw. rewrite Hlen. by rewrite Hw'.
Qed.

Lemma Canon_start s c xs : Canon s c xs → 0 < c → 0 <= start s < c.
Proof.
  intros (st & l & -> & Hc & _ & _ & Hst & _)%Canon_elim Hpos. simpl. lia.
Qed.

Lemma Push1_Pop_id s c xs v :
  Canon s c xs → len xs < c →
  ∃ s1, Push1 v s = Some s1 ∧ Canon s1 c (xs ++ [v]) ∧ Pop s1 = Some (v, s).
Proof.
  intros HC Hlt.
  destruct (Push1_grow_Canon s c xs v HC Hlt) as (s1 & H1 & Hst1 & HC1).
  destruct (Pop_back_Canon s1 c xs v HC1) as (s2 & H2 & Hst2 & HC2).
  exists s1. split_and!; [done..|]. rewrite H2. do 2 f_equal.
  apply (Canon_inj s2 s c xs); congruence.
Qed.

Lemma Unshift1_Shift_id s c xs v :
  Canon s c xs → len xs < c →
  ∃ s1, Unshift1 v s = Some s1 ∧ Canon s1 c (v :: xs) ∧
        Shift s1 = Some (v, s).
Proof.
  intros HC Hlt. pose proof (len_nonneg xs).
  destruct (Unshift1_grow_Canon s c xs v HC Hlt) as (s1 & H1 & Hst1 & HC1).
  destruct (Shift_front_Canon s1 c v xs HC1) as (s2 & H2 & Hst2 & HC2).
  exists s1. split_and!; [done..|]. rewrite H2. do 2 f_equal.
  apply (Canon_inj s2 s c xs); [done..|].
  pose proof (Canon_start s c xs HC ltac:(lia)).
  rewrite Hst2, Hst1, Z.add_mod_idemp_l by lia.
  replace (start s - 1 + 1) with (start s) by lia. by apply Z.mod_small.
Qed.

Lemma Pop_n_snoc n s out s' x s'' :
  Pop_n n s = Some (out, s') → Pop s' = Some (x, s'') →
  Pop_n (S n) s = Some (out ++ [x], s'').
Proof.
  revert s out. induction n as [|n IH]; intros s out Hn Hp.
  - simpl in Hn. injection Hn as <- <-. simpl. by rewrite Hp.
  - simpl in Hn. destruct (Pop s) as [[y s1]|] eqn:E; [simpl in Hn|done].
    destruct (Pop_n n s1) as [[ys s2]|] eqn:E2; [simpl in Hn|done].
    injection Hn as <- <-.
    change (Pop_n (S (S n)) s) with
      ('(x0, s1) ← Pop s; '(xs0, s2) ← Pop_n (S n) s1; Some (x0 :: xs0, s2)).
    rewrite E. pose proof (IH s1 ys E2 Hp) as H'.
    simpl in H' |- *. by rewrite H'.
Qed.

Lemma Shift_n_snoc n s out s' x s'' :
  Shift_n n s = Some (out, s') → Shift s' = Some (x, s'') →
  Shift_n (S n) s = Some (out ++ [x], s'').
Proof.
  revert s out. induction n as [|n IH]; intros s out Hn Hp.
  - simpl in Hn. injection Hn as <- <-. simpl. by rewrite Hp.
  - simpl in Hn. destruct (Shift s) as [[y s1]|] eqn:E; [simpl in Hn|done].
    destruct (Shift_n n s1) as [[ys s2]|] eqn:E2; [simpl in Hn|done].
    injection Hn as <- <-.
    change (Shift_n (S (S n)) s) with
      ('(x0, s1) ← Shift s; '(xs0, s2) ← Shift_n (S n) s1;
       Some (x0 :: xs0, s2)).
    rewrite E. pose proof (IH s1 ys E2 Hp) as H'.
    simpl in H' |- *. by rewrite H'.
Qed.

Lemma Push_Pop_n_id s c xs vs :
  Canon s c xs → len xs + len vs <= c →
  ∃ s1, Push vs s = Some s1 ∧ Pop_n (length vs) s1 = Some (reverse vs, s).
Proof.
  revert s xs. induction vs as [|v vs IH]; intros s xs HC Hle.
  - by exists s.
  - rewrite len_cons in Hle. pose proof (len_nonneg vs).
    destruct (Push1_Pop_id s c xs v HC) as (sa & Ha & HCa & Hpop); [lia|].
    destruct (IH sa (xs ++ [v]) HCa) as (s1 & H1 & Hn).
    { rewrite len_app_1. lia. }
    exists s1. split.
    + simpl. by rewrite Ha.
    + rewrite reverse_cons. by eapply Pop_n_snoc.
Qed.

Lemma Unshift_Shift_n_id s c xs vs :
  Canon s c xs → len xs + len vs <= c →
  ∃ s1, Unshift vs s = Some s1 ∧
        Shift_n (length vs) s1 = Some (reverse vs, s).
Proof.
  revert s xs. induction vs as [|v vs IH]; intros s xs HC Hle.
  - by exists s.
  - rewrite len_cons in Hle. pose proof (len_nonneg vs).
    destruct (Unshift1_Shift_id s c xs v HC) as (sa & Ha & HCa & Hsh); [lia|].
    destruct (IH sa (v :: xs) HCa) as (s1 & H1 & Hn).
    { rewrite len_cons. lia. }
    exists s1. split.
    + simpl. by rewrite Ha.
    + rewrite reverse_cons. by eapply Shift_n_snoc.
Qed.

(** X15: [Pop] is the exact inverse of [Push].  On every reachable
    buffer with room for [v1 .. vk], [Push(v1..vk)] followed by [k] calls
    of [Pop()] returns [vk, .., v1] and ends in the very state it started
    from: cursors, occupancy and every slot of the storage. *)
Theorem Push_Pop_restores (vs : list string) (s : StRingBuffer) :
  reachable s → Length s + len vs <= Capacity s →
  ∃ s1, Push vs s = Some s1 ∧ Pop_n (length vs) s1 = Some (reverse vs, s).
Proof.
  intros (c & xs & HC)%reachable_Canon.
  pose proof (Canon_Rep _ _ _ HC) as HR.
  rewrite (Rep_Length _ _ _ HR), (Rep_Capacity _ _ _ HR).
  by apply Push_Pop_n_id.
Qed.

Lemma Push_Pop_restores_witness :
  ∃ s1, Push ["c"; "d"] (mk 1 2 ["";  ""; "b"; ""] 1) = Some s1 ∧
        Pop_n 2 s1 = Some (["d"; "c"], mk 1 2 [""; ""; "b"; ""] 1).
Proof.
  apply (Push_Pop_restores ["c"; "d"] (mk 1 2 [""; ""; "b"; ""] 1)).
  - apply (reach_Shift (mk 0 2 [""; "a"; "b"; ""] 2) "a").
    + apply (reach_Push ["a"; "b"] (mk 0 0 [""; ""; ""; ""] 0)).
      * apply (reach_New 4). reflexivity.
      * reflexivity.
    + reflexivity.
  - unfold Length, Capacity, len. simpl. lia.
Defined.

(** X16: [Shift] is the exact inverse of [Unshift].  On every reachable
    buffer with room for [v1 .. vk], [Unshift(v1..vk)] followed by [k]
    calls of [Shift()] returns [vk, .., v1] and ends in the very state it
    started from. *)
Theorem Unshift_Shift_restores (vs : list string) (s : StRingBuffer) :
  reachable s → Length s + len vs <= Capacity s →
  ∃ s1, Unshift vs s = Some s1 ∧
        Shift_n (length vs) s1 = Some (reverse vs, s).
Proof.
  intros (c & xs & HC)%reachable_Canon.
  pose proof (Canon_Rep _ _ _ HC) as HR.
  rewrite (Rep_Length _ _ _ HR), (Rep_Capacity _ _ _ HR).
  by apply Unshift_Shift_n_id.
Qed.

Lemma Unshift_Shift_restores_witness :
  ∃ s1, Unshift ["c"; "d"] (mk 1 2 ["";  ""; "b"; ""] 1) = Some s1 ∧
        Shift_n 2 s1 = Some (["d"; "c"], mk 1 2 [""; ""; "b"; ""] 1).
Proof.
  apply (Unshift_Shift_restores ["c"; "d"] (mk 1 2 [""; ""; "b"; ""] 1)).
  - apply (reach_Shift (mk 0 2 [""; "a"; "b"; ""] 2) "a").
    + apply (reach_Push ["a"; "b"] (mk 0 0 [""; ""; ""; ""] 0)).
      * apply (reach_New 4). reflexivity.
      * reflexivity.
    + reflexivity.
  - unfold Length, Capacity, len. simpl. lia.
Defined.

(** ** The buffer is a bounded deque *)

Lemma step_refines s c xs k :
  Rep s c xs →
  match deque_step (Z.to_nat c) k xs with
  | None => step_cmd k s = None
  | Some (o, xs') => ∃ s', step_cmd k s = Some (o, s') ∧ Rep s' c xs'
  end.
Proof.
  intros HR. pose proof (Rep_le _ _ _ HR) as Hle.
  pose proof (len_nonneg xs) as Hnn.
  destruct k as [vs| |vs| |f|f]; simpl.
  - destruct vs as [|v vs]; [by exists s|].
    destruct (Z.to_nat c) as [|n] eqn:Hc.
    + by rewrite (Push_cap0 s c xs v vs HR) by lia.
    + destruct (Push_window s c xs (v :: vs) HR) as (s' & -> & HR'); [lia|].
      rewrite Hc in HR'. by exists s'.
  - destruct xs as [|x xs _] using rev_ind.
    + rewrite Pop_empty by (by apply Rep_length in HR). by exists s.
    + destruct (Pop_back s c xs x HR) as (s' & -> & HR'). simpl.
      rewrite last_snoc, length_app. simpl.
      replace (length xs + 1 - 1)%nat with (length xs) by lia.
      rewrite take_app_length. by exists s'.
  - destruct vs as [|v vs]; [by exists s|].
    destruct (Z.to_nat c) as [|n] eqn:Hc.
    + by rewrite (Unshift_cap0 s c xs v vs HR) by lia.
    + destruct (Unshift_window s c xs (v :: vs) HR) as (s' & -> & HR');
        [lia|].
      rewrite Hc in HR'. by exists s'.
  - destruct xs as [|x xs].
    + rewrite Shift_empty by (by apply Rep_length in HR). by exists s.
    + destruct (Shift_front s c x xs HR) as (s' & -> & HR'). simpl.
      rewrite drop_0. by exists s'.
  - destruct (Map_Rep (pure_fn f) c xs () s HR) as (s' & -> & HR').
    rewrite RingB_Laws.thread_pure in HR'. by exists s'.
  - destruct (MapR_Rep (pure_fn f) c xs () s HR) as (s' & -> & HR').
    rewrite RingB_Laws.thread_rev_pure in HR'. by exists s'.
Qed.

Lemma run_refines s c xs ks :
  Rep s c xs →
  match deque_run (Z.to_nat c) ks xs with
  | None => run ks s = None
  | Some (os, xs') => ∃ s', run ks s = Some (os, s') ∧ Rep s' c xs'
  end.
Proof.
  revert s xs. induction ks as [|k ks IH]; intros s xs HR; simpl.
  - by exists s.
  - pose proof (step_refines s c xs k HR) as Hk.
    destruct (deque_step (Z.to_nat c) k xs) as [[o xs1]|]; simpl.
    + destruct Hk as (s1 & -> & HR1). simpl.
      specialize (IH s1 xs1 HR1).
      destruct (deque_run (Z.to_nat c) ks xs1) as [[os xs2]|]; simpl.
      * destruct IH as (s2 & -> & HR2). by exists s2.
      * by rewrite IH.
    + by rewrite Hk.
Qed.

(** X22: revision A is a bounded deque.  From every reachable buffer,
    any sequence of calls of [Push], [Pop], [Unshift], [Shift], [Map] and
    [MapR] (of a pure function) panics when the list model of capacity
    [Capacity()] does and only then, and otherwise returns the same
    strings and ends with the same live elements as the model run from the
    buffer's live elements. *)
Theorem run_is_deque (ks : list cmd) (s : StRingBuffer) :
  reachable s →
  ('(out, s') ← run ks s; Some (out, live s'))
  = deque_run (Z.to_nat (Capacity s)) ks (live s).
Proof.
  intros (c & xs & HR)%reachable_Rep.
  rewrite (Rep_Capacity _ _ _ HR), (Rep_live _ _ _ HR).
  pose proof (run_refines s c xs ks HR) as H.
  destruct (deque_run (Z.to_nat c) ks xs) as [[os xs']|].
  - destruct H as (s' & -> & HR'). simpl. by rewrite (Rep_live _ _ _ HR').
  - by rewrite H.
Qed.

Lemma run_is_deque_witness :
  ('(out, s') ← run [CPush ["1"; "2"; "3"; "4"]; CPop; CUnshift ["0"];
                     CMap (λ x, x +:+ "!")%string; CShift; CPop]
                  (mk 0 0 [""; ""; ""] 0);
   Some (out, live s'))
  = Some (["4"; "0!"; "3!"], ["2!"]).
Proof.
  apply (run_is_deque
           [CPush ["1"; "2"; "3"; "4"]; CPop; CUnshift ["0"];
            CMap (λ x, x +:+ "!")%string; CShift; CPop]
           (mk 0 0 [""; ""; ""] 0)).
  apply (reach_New 3). reflexivity.
Defined.

(** ** The helper [mod] *)



End RingA_More.

(** * Revision B: further laws *)

Module RingB_More.
Import RingB RingB_Laws.

(** ** The methods write inside the window of [lines] only *)

Lemma same_outside_refl sl h : same_outside sl h h.
Proof. by split_and!. Qed.

Lemma same_outside_trans sl h1 h2 h3 :
  same_outside sl h1 h2 → same_outside sl h2 h3 → same_outside sl h1 h3.
Proof.
  intros (E1 & F1 & G1 & L1) (E2 & F2 & G2 & L2). split_and!.
  - congruence.
  - intros a Ha. rewrite F2, F1 by done. done.
  - intros j Hj. rewrite G2, G1 by done. done.
  - congruence.
Qed.

Lemma assign_outside sl i v h h' :
  assign sl i v h = Some h' → same_outside sl h h'.
Proof.
  unfold assign.
  destruct (Z.leb_spec 0 i); [|done].
  destruct (Z.ltb_spec i (slice_len sl)); [|done]. simpl.
  intros [= <-]. split_and!.
  - apply length_alter.
  - intros a Ha. by apply list_lookup_alter_ne.
  - intros j Hj. rewrite list_lookup_alter_eq.
    destruct (h !! arr sl) as [a0|]; simpl; [|done].
    apply list_lookup_insert_ne. unfold slice_len in *. lia.
  - rewrite list_lookup_alter_eq.
    destruct (h !! arr sl) as [a0|]; simpl; [|done]. apply length_insert.
Qed.

Lemma Push1_outside v s h s' h' :
  Push1 v s h = Some (s', h') →
  lines s' = lines s ∧ same_outside (lines s) h h'.
Proof.
  unfold Push1. intros H.
  destruct (Full s); simplify_option_eq; eauto using assign_outside.
Qed.

Lemma Unshift1_outside v s h s' h' :
  Unshift1 v s h = Some (s', h') →
  lines s' = lines s ∧ same_outside (lines s) h h'.
Proof.
  unfold Unshift1. intros H.
  destruct (Full s); simplify_option_eq; eauto using assign_outside.
Qed.

Lemma Pop_outside s h r s' h' :
  Pop s h = Some (r, s', h') →
  lines s' = lines s ∧ same_outside (lines s) h h'.
Proof.
  unfold Pop. intros H.
  destruct (Empty s); simplify_option_eq;
    eauto using assign_outside, same_outside_refl.
Qed.

Lemma Shift_outside s h r s' h' :
  Shift s h = Some (r, s', h') →
  lines s' = lines s ∧ same_outside (lines s) h h'.
Proof.
  unfold Shift. intros H.
  destruct (Empty s); simplify_option_eq;
    eauto using assign_outside, same_outside_refl.
Qed.

Lemma Push_outside vs s h s' h' :
  Push vs s h = Some (s', h') →
  lines s' = lines s ∧ same_outside (lines s) h h'.
Proof.
  revert s h. induction vs as [|v vs IH]; intros s h H; simpl in H.
  - injection H as <- <-. eauto using same_outside_refl.
  - destruct (Push1 v s h) as [[s1 h1]|] eqn:H1; [simpl in H|done].
    apply Push1_outside in H1 as [E1 F1]. apply IH in H as [E F].
    rewrite E1 in *. eauto using same_outside_trans.
Qed.

Lemma Unshift_outside vs s h s' h' :
  Unshift vs s h = Some (s', h') →
  lines s' = lines s ∧ same_outside (lines s) h h'.
Proof.
  revert s h. induction vs as [|v vs IH]; intros s h H; simpl in H.
  - injection H as <- <-. eauto using same_outside_refl.
  - destruct (Unshift1 v s h) as [[s1 h1]|] eqn:H1; [simpl in H|done].
    apply Unshift1_outside in H1 as [E1 F1]. apply IH in H as [E F].
    rewrite E1 in *. eauto using same_outside_trans.
Qed.

Lemma Map_loop_outside {W} (f : closure W) l w s h w' s' h' :
  Map_loop f l w s h = Some (w', s', h') →
  lines s' = lines s ∧ same_outside (lines s) h h'.
Proof.
  revert w s h. induction l as [|l IH]; intros w s h H; simpl in H.
  - injection H as _ <- <-. eauto using same_outside_refl.
  - destruct (Shift s h) as [[[x s1] h1]|] eqn:H1; [simpl in H|done].
    destruct (f x w) as [y w1].
    destruct (Push1 y s1 h1) as [[s2 h2]|] eqn:H2; [simpl in H|done].
    apply Shift_outside in H1 as [E1 F1].
    apply Push1_outside in H2 as [E2 F2]. apply IH in H as [E F].
    rewrite E2, E1 in *. eauto using same_outside_trans.
Qed.

Lemma MapR_loop_outside {W} (f : closure W) l w s h w' s' h' :
  MapR_loop f l w s h = Some (w', s', h') →
  lines s' = lines s ∧ same_outside (lines s) h h'.
Proof.
  revert w s h. induction l as [|l IH]; intros w s h H; simpl in H.
  - injection H as _ <- <-. eauto using same_outside_refl.
  - destruct (Pop s h) as [[[x s1] h1]|] eqn:H1; [simpl in H|done].
    destruct (f x w) as [y w1].
    destruct (Unshift1 y s1 h1) as [[s2 h2]|] eqn:H2; [simpl in H|done].
    apply Pop_outside in H1 as [E1 F1].
    apply Unshift1_outside in H2 as [E2 F2]. apply IH in H as [E F].
    rewrite E2, E1 in *. eauto using same_outside_trans.
Qed.

Lemma call_outside s h s' h' :
  call (s, h) (s', h') → lines s' = lines s ∧ same_outside (lines s) h h'.
Proof.
  inversion 1; subst.
  - by eapply Push_outside.
  - by eapply Pop_outside.
  - by eapply Unshift_outside.
  - by eapply Shift_outside.
  - by eapply Map_loop_outside.
  - by eapply MapR_loop_outside.
Qed.

Lemma calls_outside σ σ' :
  rtc call σ σ' →
  lines σ'.1 = lines σ.1 ∧ same_outside (lines σ.1) σ.2 σ'.2.
Proof.
  induction 1 as [[s h]|[s h] [s1 h1] [s2 h2] H1 _ [E F]]; simpl in *.
  - eauto using same_outside_refl.
  - apply call_outside in H1 as [E1 F1]. rewrite E1 in *.
    eauto using same_outside_trans.
Qed.

(** X17: the methods never allocate, never re-slice [lines], and write
    only inside the window of [lines].  After any number of calls of
    [Push], [Pop], [Unshift], [Shift], [Map] and [MapR] (on any buffer,
    reachable or not) the store has the same arrays of the same lengths,
    the field [lines] is the same slice, every other array is unchanged,
    and so are the elements of the buffer's own array outside the
    window. *)
Theorem calls_write_inside_lines (s s' : StRingBuffer) (h h' : heap) :
  rtc call (s, h) (s', h') →
  lines s' = lines s ∧ Capacity s' = Capacity s ∧
  same_outside (lines s) h h'.
Proof.
  intros H. apply calls_outside in H as [E F]. simpl in *.
  unfold Capacity. by rewrite E.
Qed.

Lemma calls_write_inside_lines_witness :
  lines (mk 1 1 (mkslice 0 1 2 2) 2) = lines (mk 0 0 (mkslice 0 1 2 2) 2) ∧
  Capacity (mk 1 1 (mkslice 0 1 2 2) 2)
  = Capacity (mk 0 0 (mkslice 0 1 2 2) 2) ∧
  same_outside (lines (mk 0 0 (mkslice 0 1 2 2) 2))
    [["a"; "b"; "c"; "d"]; ["z"]] [["a"; "x"; "c"; "d"]; ["z"]].
Proof.
  apply calls_write_inside_lines.
  apply rtc_once. apply (call_Push ["x"]). reflexivity.
Defined.

(** ** [Slice] and [Unslice] against later calls *)

Lemma Rep_valid s h c xs : Rep s h c xs → valid h (lines s).
Proof. by intros ([? _ _ _] & _). Qed.

(** X18: a slice [Slice()] returned is not affected by what is done to
    the buffer afterwards: after any number of calls of [Push], [Pop],
    [Unshift], [Shift], [Map] and [MapR] it still holds the live elements
    of the moment of the call. *)
Theorem Slice_unaffected_by_later_calls (s s' : StRingBuffer)
    (h h1 h2 : heap) (sl : slice) :
  reachable s h → Slice s h = Some (sl, h1) →
  rtc call (s, h1) (s', h2) →
  read h2 sl = live s h ∧ read h1 sl = live s h.
Proof.
  intros (c & xs & HR)%reachable_Rep_B HS Hcalls.
  rewrite (Slice_Rep s h c xs HR) in HS. injection HS as <- <-.
  rewrite (Rep_live_B _ _ _ _ HR).
  pose proof (valid_arr_lt _ _ (Rep_valid _ _ _ _ HR)) as Hlt.
  apply calls_outside in Hcalls as [_ (_ & F & _)]. simpl in F.
  assert (E : read (h ++ [xs]) (mkslice (length h) 0 (length xs) (length xs))
              = xs).
  { unfold read. simpl. rewrite lookup_app_r, Nat.sub_diag by lia.
    simpl. by apply take_ge. }
  split; [|done]. rewrite <- E at 2. unfold read. simpl.
  rewrite F by lia. done.
Qed.

Lemma Slice_unaffected_by_later_calls_witness :
  read [["d"; "b"; "c"]; ["a"; "b"]] (mkslice 1 0 2 2)
  = live (mk 0 2 (mkslice 0 0 3 3) 2) [["a"; "b"; ""]] ∧
  read [["a"; "b"; ""]; ["a"; "b"]] (mkslice 1 0 2 2)
  = live (mk 0 2 (mkslice 0 0 3 3) 2) [["a"; "b"; ""]].
Proof.
  apply (Slice_unaffected_by_later_calls
           (mk 0 2 (mkslice 0 0 3 3) 2) (mk 1 1 (mkslice 0 0 3 3) 3)
           [["a"; "b"; ""]]).
  - apply (reach_Push ["a"; "b"] (mk 0 0 (mkslice 0 0 3 3) 0) [[""; ""; ""]]).
    + apply (reach_New 3 []). reflexivity.
    + reflexivity.
  - reflexivity.
  - apply rtc_once. apply (call_Push ["c"; "d"]). reflexivity.
Defined.

(** X19: [Unslice] does not copy.  The buffer it returns has the
    caller's slice as its storage, so a write of the buffer is a write of
    that slice: after [Unslice(l)] on a slice that is not empty,
    [Push(v)] evicts the first element, and the caller's [l[0]] is [v]. *)
Theorem Unslice_shares_storage (h : heap) (sl : slice) (v : string) :
  valid h sl → 0 < slice_len sl →
  ∃ s s' h', Unslice sl = Some s ∧ lines s = sl ∧
             Push [v] s h = Some (s', h') ∧
             live s' h' = drop 1 (read h sl) ++ [v] ∧
             read h' sl = <[0%nat := v]> (read h sl).
Proof.
  intros Hv Hpos.
  destruct (Unslice_nonempty h sl Hv Hpos) as (s & HU & HR & Hl).
  pose proof (len_read _ _ Hv) as Hr.
  destruct (read h sl) as [|x xs] eqn:E; [unfold len in Hr; simpl in Hr; lia|].
  destruct (Push1_full_B s h _ x xs v HR) as (s' & h' & HP & HR' & _);
    [done|].
  exists s, s', h'. split_and!; try done.
  - simpl. by rewrite HP.
  - by apply Rep_live_B in HR'.
  - pose proof max_len_small.
    assert (Hmax : slice_len sl <= max_len) by (by destruct Hv as (_&_&_&_&?)).
    revert HP. unfold Unslice, mod_ in HU. simpl in HU.
    rewrite int_rem_add_mod in HU by lia. simpl in HU.
    injection HU as <-. unfold Push1, Full, set_end, set_start. simpl.
    rewrite Z.eqb_refl. rewrite Z.mod_same by lia.
    rewrite (mod_succ_B (mk _ _ sl _)) by (simpl; lia). simpl.
    destruct (assign_ok sl 0 v h Hv) as (h1 & -> & Hr1 & _); [lia|]. simpl.
    rewrite (mod_succ_B (mk _ _ sl _)) by (simpl; lia). simpl.
    intros [= _ <-]. by rewrite Hr1, E.
Qed.

Lemma Unslice_shares_storage_witness :
  ∃ s s' h', Unslice (mkslice 0 1 2 3) = Some s ∧
             lines s = mkslice 0 1 2 3 ∧
             Push ["x"] s [["a"; "b"; "c"; "d"]] = Some (s', h') ∧
             live s' h' = ["c"; "x"] ∧
             read h' (mkslice 0 1 2 3) = ["x"; "c"].
Proof.
  apply (Unslice_shares_storage [["a"; "b"; "c"; "d"]] (mkslice 0 1 2 3) "x").
  - exists ["a"; "b"; "c"; "d"]. unfold slice_len, max_len. simpl.
    split_and!; (reflexivity || lia).
  - reflexivity.
Defined.

(** X20: on every slice that is not empty, [Unslice] returns a buffer
    that is [Full], whose [Capacity] is the length of the slice and whose
    live elements are the elements of the slice, in order; [Shift()] on
    it returns the first element and [Pop()] the last. *)
Theorem Unslice_nonempty_is_full (h : heap) (sl : slice) :
  valid h sl → 0 < slice_len sl →
  ∃ s, Unslice sl = Some s ∧
       Full s = true ∧ Capacity s = slice_len sl ∧ Length s = slice_len sl ∧
       live s h = read h sl ∧
       (∃ s' h', Shift s h = Some (default "" (head (read h sl)), s', h')) ∧
       (∃ s' h', Pop s h = Some (default "" (last (read h sl)), s', h')).
Proof.
  intros Hv Hpos.
  destruct (Unslice_full h sl Hv Hpos) as (s & H & Hl & HF & HC & HL & HS & HP).
  exists s. split_and!; try done.
  unfold Unslice in H. destruct (mod_ _ _); [|done]. simpl in H.
  by injection H as <-.
Qed.

Lemma Unslice_nonempty_is_full_witness :
  ∃ s, Unslice (mkslice 0 1 2 3) = Some s ∧
       Full s = true ∧ Capacity s = 2 ∧ Length s = 2 ∧
       live s [["a"; "b"; "c"; "d"]] = ["b"; "c"] ∧
       (∃ s' h', Shift s [["a"; "b"; "c"; "d"]] = Some ("b", s', h')) ∧
       (∃ s' h', Pop s [["a"; "b"; "c"; "d"]] = Some ("c", s', h')).
Proof.
  apply (Unslice_nonempty_is_full [["a"; "b"; "c"; "d"]] (mkslice 0 1 2 3)).
  - exists ["a"; "b"; "c"; "d"]. unfold slice_len, max_len. simpl.
    split_and!; (reflexivity || lia).
  - reflexivity.
Defined.

(** X21: [Slice] and [Unslice] are inverse on what is not empty.  For a
    reachable buffer with a live element, [Unslice(b.Slice())] is a full
    buffer with the same live elements, and its [Slice()] holds them
    again; for a slice that is not empty, [Unslice(l).Slice()] is a new
    slice with the elements of [l]. *)
Theorem Slice_Unslice_round_trip :
  (∀ s h, reachable s h → live s h ≠ [] →
     ∃ sl h1 s1 sl2 h2,
       Slice s h = Some (sl, h1) ∧ Unslice sl = Some s1 ∧
       Full s1 = true ∧ live s1 h1 = live s h ∧
       Slice s1 h1 = Some (sl2, h2) ∧ read h2 sl2 = live s h) ∧
  (∀ h sl, valid h sl → 0 < slice_len sl →
     ∃ s sl2 h2,
       Unslice sl = Some s ∧ Slice s h = Some (sl2, h2) ∧
       arr sl2 = length h ∧ read h2 sl2 = read h sl).
Proof.
  assert (Hfresh : ∀ (h : heap) xs,
    read (h ++ [xs]) (mkslice (length h) 0 (length xs) (length xs)) = xs).
  { intros h xs. unfold read. simpl.
    rewrite lookup_app_r, Nat.sub_diag by lia. simpl. by apply take_ge. }
  split.
  - intros s h Hreach Hne.
    destruct (Unslice_Slice s h Hreach Hne) as (sl & h1 & s1 & HS & HU & HF & HL).
    assert (Hr1 : reachable s1 h1).
    { apply (reach_Unslice sl); [|done].
      apply reachable_Rep_B in Hreach as (c & xs & HR).
      rewrite (Slice_Rep s h c xs HR) in HS. injection HS as <- <-.
      exists xs. unfold slice_len. simpl.
      rewrite lookup_app_r, Nat.sub_diag by lia.
      pose proof (Rep_le_B _ _ _ _ HR).
      assert (c <= max_len).
      { destruct HR as ([(a & _ & _ & _ & ?) _ _ _] & <- & _). done. }
      split_and!; try done. unfold len in *. lia. }
    apply reachable_Rep_B in Hr1 as (c1 & xs1 & HR1).
    exists sl, h1, s1. eexists _, _.
    rewrite (Slice_Rep s1 h1 c1 xs1 HR1).
    split_and!; try done.
    rewrite Hfresh, <- HL. symmetry. by apply Rep_live_B in HR1.
  - intros h sl Hv Hpos.
    destruct (Unslice_nonempty h sl Hv Hpos) as (s & HU & HR & _).
    exists s. eexists _, _. rewrite (Slice_Rep s h _ _ HR).
    split_and!; try done.
Qed.

Lemma Slice_Unslice_round_trip_witness :
  ∃ s sl2 h2,
    Unslice (mkslice 0 1 2 3) = Some s ∧
    Slice s [["a"; "b"; "c"; "d"]] = Some (sl2, h2) ∧
    arr sl2 = 1%nat ∧ read h2 sl2 = ["b"; "c"].
Proof.
  apply (proj2 Slice_Unslice_round_trip
           [["a"; "b"; "c"; "d"]] (mkslice 0 1 2 3)).
  - exists ["a"; "b"; "c"; "d"]. unfold slice_len, max_len. simpl.
    split_and!; (reflexivity || lia).
  - reflexivity.
Defined.

(** ** The buffer is a bounded deque *)

Lemma Push1_window_B s h c xs v :
  Rep s h c xs → 0 < c →
  ∃ s' h', Push1 v s h = Some (s', h') ∧
           Rep s' h' c (keep_last (Z.to_nat c) (xs ++ [v])).
Proof.
  intros HR Hc. pose proof (Rep_le_B _ _ _ _ HR) as Hle.
  destruct (decide (len xs < c)) as [Hlt|Hge].
  - destruct (Push1_grow_B s h c xs v HR Hlt) as (s' & h' & H & HR' & _).
    exists s', h'. split; [done|]. rewrite RingA_More.keep_last_short; [done|].
    rewrite length_app. simpl. nat_len.
  - destruct xs as [|x xs]; [unfold len in *; simpl in *; lia|].
    destruct (Push1_full_B s h c x xs v HR) as (s' & h' & H & HR' & _); [lia|].
    exists s', h'. split; [done|]. unfold keep_last.
    rewrite length_app. simpl.
    replace (S (length xs + 1) - Z.to_nat c)%nat with 1%nat
      by (unfold len in *; simpl in *; lia).
    done.
Qed.

Lemma Push_window_B s h c xs vs :
  Rep s h c xs → 0 < c →
  ∃ s' h', Push vs s h = Some (s', h') ∧
           Rep s' h' c (keep_last (Z.to_nat c) (xs ++ vs)).
Proof.
  intros HR Hc. revert s h xs HR.
  induction vs as [|v vs IH]; intros s h xs HR; simpl.
  - exists s, h. split; [done|].
    rewrite app_nil_r, RingA_More.keep_last_short; [done|].
    pose proof (Rep_le_B _ _ _ _ HR). nat_len.
  - destruct (Push1_window_B s h c xs v HR Hc) as (s1 & h1 & -> & HR1). simpl.
    destruct (IH s1 h1 _ HR1) as (s' & h' & -> & HR'). exists s', h'.
    split; [done|].
    by rewrite RingA_More.keep_last_app, <- app_assoc in HR'.
Qed.

Lemma Unshift1_window_B s h c xs v :
  Rep s h c xs → 0 < c →
  ∃ s' h', Unshift1 v s h = Some (s', h') ∧
           Rep s' h' c (keep_first (Z.to_nat c) (v :: xs)).
Proof.
  intros HR Hc. pose proof (Rep_le_B _ _ _ _ HR) as Hle.
  destruct (decide (len xs < c)) as [Hlt|Hge].
  - destruct (Unshift1_grow_B s h c xs v HR Hlt) as (s' & h' & H & HR' & _).
    exists s', h'. split; [done|]. unfold keep_first.
    rewrite take_ge; [done|]. simpl. nat_len.
  - destruct xs as [|x xs _] using rev_ind;
      [unfold len in *; simpl in *; lia|].
    rewrite len_app_1 in *.
    destruct (Unshift1_full_B s h c xs x v HR) as (s' & h' & H & HR' & _);
      [rewrite len_app_1; lia|].
    exists s', h'. split; [done|]. unfold keep_first.
    replace (Z.to_nat c) with (S (length xs)) by nat_len.
    simpl. by rewrite take_app_length.
Qed.

Lemma Unshift_window_B s h c xs vs :
  Rep s h c xs → 0 < c →
  ∃ s' h', Unshift vs s h = Some (s', h') ∧
           Rep s' h' c (keep_first (Z.to_nat c) (reverse vs ++ xs)).
Proof.
  intros HR Hc. revert s h xs HR.
  induction vs as [|v vs IH]; intros s h xs HR; simpl.
  - exists s, h. split; [done|]. unfold keep_first. rewrite take_ge; [done|].
    pose proof (Rep_le_B _ _ _ _ HR). nat_len.
  - destruct (Unshift1_window_B s h c xs v HR Hc) as (s1 & h1 & -> & HR1).
    simpl. destruct (IH s1 h1 _ HR1) as (s' & h' & -> & HR').
    exists s', h'. split; [done|].
    rewrite RingA_More.keep_first_app in HR'.
    by rewrite reverse_cons, <- app_assoc.
Qed.

Lemma step_refines_B s h c xs k :
  Rep s h c xs →
  match deque_step (Z.to_nat c) k xs with
  | None => step_cmd k s h = None
  | Some (o, xs') =>
      ∃ s' h', step_cmd k s h = Some (o, s', h') ∧ Rep s' h' c xs'
  end.
Proof.
  intros HR. pose proof (Rep_le_B _ _ _ _ HR) as Hle.
  pose proof (len_nonneg xs) as Hnn.
  destruct k as [vs| |vs| |f|f]; simpl.
  - destruct vs as [|v vs]; [by exists s, h|].
    destruct (Z.to_nat c) as [|n] eqn:Hc.
    + assert (c = 0) as -> by lia. apply Rep_cap0_B in HR as [? ?].
      simpl. by rewrite Push1_cap0_B.
    + destruct (Push_window_B s h c xs (v :: vs) HR) as (s' & h' & -> & HR');
        [lia|].
      rewrite Hc in HR'. by exists s', h'.
  - destruct xs as [|x xs _] using rev_ind.
    + rewrite Pop_empty_B by (by apply Rep_length_B in HR). by exists s, h.
    + destruct (Pop_back_B s h c xs x HR) as (s' & h' & -> & HR' & _). simpl.
      rewrite last_snoc, length_app. simpl.
      replace (length xs + 1 - 1)%nat with (length xs) by lia.
      rewrite take_app_length. by exists s', h'.
  - destruct vs as [|v vs]; [by exists s, h|].
    destruct (Z.to_nat c) as [|n] eqn:Hc.
    + assert (c = 0) as -> by lia. apply Rep_cap0_B in HR as [? ?].
      simpl. by rewrite Unshift1_cap0_B.
    + destruct (Unshift_window_B s h c xs (v :: vs) HR)
        as (s' & h' & -> & HR'); [lia|].
      rewrite Hc in HR'. by exists s', h'.
  - destruct xs as [|x xs].
    + rewrite Shift_empty_B by (by apply Rep_length_B in HR). by exists s, h.
    + destruct (Shift_front_B s h c x xs HR) as (s' & h' & -> & HR' & _).
      simpl. rewrite drop_0. by exists s', h'.
  - destruct (Map_Rep_B (pure_fn f) c xs () s h HR) as (s' & h' & -> & HR' & _).
    rewrite thread_pure in HR'. by exists s', h'.
  - destruct (MapR_Rep_B (pure_fn f) c xs () s h HR)
      as (s' & h' & -> & HR' & _).
    rewrite thread_rev_pure in HR'. by exists s', h'.
Qed.

Lemma run_refines_B s h c xs ks :
  Rep s h c xs →
  match deque_run (Z.to_nat c) ks xs with
  | None => run ks s h = None
  | Some (os, xs') => ∃ s' h', run ks s h = Some (os, s', h') ∧ Rep s' h' c xs'
  end.
Proof.
  revert s h xs. induction ks as [|k ks IH]; intros s h xs HR; simpl.
  - by exists s, h.
  - pose proof (step_refines_B s h c xs k HR) as Hk.
    destruct (deque_step (Z.to_nat c) k xs) as [[o xs1]|]; simpl.
    + destruct Hk as (s1 & h1 & -> & HR1). simpl.
      specialize (IH s1 h1 xs1 HR1).
      destruct (deque_run (Z.to_nat c) ks xs1) as [[os xs2]|]; simpl.
      * destruct IH as (s2 & h2 & -> & HR2). by exists s2, h2.
      * by rewrite IH.
    + by rewrite Hk.
Qed.

Lemma Rep_Capacity_B s h c xs : Rep s h c xs → Capacity s = c.
Proof. by intros (_ & ? & _). Qed.

(** X23: revision B is the same bounded deque.  From every reachable
    buffer (built by [NewStRingBuffer] or by [Unslice]), any sequence of
    calls of [Push], [Pop], [Unshift], [Shift], [Map] and [MapR] (of a
    pure function) panics when the list model of capacity [Capacity()]
    does and only then, and otherwise returns the same strings and ends
    with the same live elements as the model. *)
Theorem run_is_deque_B (ks : list cmd) (s : StRingBuffer) (h : heap) :
  reachable s h →
  ('(out, s', h') ← run ks s h; Some (out, live s' h'))
  = deque_run (Z.to_nat (Capacity s)) ks (live s h).
Proof.
  intros (c & xs & HR)%reachable_Rep_B.
  rewrite (Rep_Capacity_B _ _ _ _ HR), (Rep_live_B _ _ _ _ HR).
  pose proof (run_refines_B s h c xs ks HR) as H.
  destruct (deque_run (Z.to_nat c) ks xs) as [[os xs']|].
  - destruct H as (s' & h' & -> & HR'). simpl.
    by rewrite (Rep_live_B _ _ _ _ HR').
  - by rewrite H.
Qed.

Lemma run_is_deque_B_witness :
  ('(out, s', h') ← run [CPush ["1"; "2"; "3"; "4"]; CPop; CUnshift ["0"];
                         CMap (λ x, x +:+ "!")%string; CShift; CPop]
                      (mk 0 0 (mkslice 0 0 3 3) 0) [[""; ""; ""]];
   Some (out, live s' h'))
  = Some (["4"; "0!"; "3!"], ["2!"]).
Proof.
  apply (run_is_deque_B
           [CPush ["1"; "2"; "3"; "4"]; CPop; CUnshift ["0"];
            CMap (λ x, x +:+ "!")%string; CShift; CPop]
           (mk 0 0 (mkslice 0 0 3 3) 0) [[""; ""; ""]]).
  apply (reach_New 3 []). reflexivity.
Defined.

(** ** The invariant of the cursors *)

(** X26: every reachable buffer of revision B has its storage inside
    the store, [0 <= Length() <= Capacity()], as many live elements as
    [Length()] says, both cursors inside the storage when there is one,
    and [end] lying [Length()] slots after [start], modulo the capacity. *)
Theorem reachable_invariant_B (s : StRingBuffer) (h : heap) :
  reachable s h →
  valid h (lines s) ∧
  0 <= Length s <= Capacity s ∧ len (live s h) = Length s ∧
  (0 < Capacity s →
     0 <= start s < Capacity s ∧ 0 <= end_ s < Capacity s) ∧
  end_ s = (start s + Length s) mod Capacity s ∧
  (Empty s = true ↔ live s h = []) ∧
  (Full s = true ↔ len (live s h) = Capacity s).
Proof.
  intros (c & xs & HR)%reachable_Rep_B.
  pose proof (Rep_length_B _ _ _ _ HR) as HL.
  pose proof (Rep_Capacity_B _ _ _ _ HR) as HC.
  pose proof (Rep_le_B _ _ _ _ HR) as Hle. pose proof (len_nonneg xs).
  rewrite (Rep_live_B _ _ _ _ HR).
  destruct HR as ([Hv Hlen Hst He] & Hc & Hl).
  unfold Length, Capacity in *. rewrite HL, Hc in *.
  split_and!; try done; try lia.
  - intros Hpos. split; [lia|]. rewrite He. by apply Z.mod_pos_bound.
  - unfold Empty. rewrite HL, Z.eqb_eq. unfold len.
    destruct xs; simpl; split; (done || lia).
  - unfold Full. by rewrite HL, Hc, Z.eqb_eq.
Qed.

Lemma reachable_invariant_B_witness :
  valid [["d"; "b"; "c"]] (lines (mk 1 1 (mkslice 0 0 3 3) 3)) ∧
  0 <= Length (mk 1 1 (mkslice 0 0 3 3) 3)
    <= Capacity (mk 1 1 (mkslice 0 0 3 3) 3) ∧
  len (live (mk 1 1 (mkslice 0 0 3 3) 3) [["d"; "b"; "c"]])
  = Length (mk 1 1 (mkslice 0 0 3 3) 3) ∧
  (0 < Capacity (mk 1 1 (mkslice 0 0 3 3) 3) →
     0 <= start (mk 1 1 (mkslice 0 0 3 3) 3)
       < Capacity (mk 1 1 (mkslice 0 0 3 3) 3) ∧
     0 <= end_ (mk 1 1 (mkslice 0 0 3 3) 3)
       < Capacity (mk 1 1 (mkslice 0 0 3 3) 3)) ∧
  end_ (mk 1 1 (mkslice 0 0 3 3) 3)
  = (start (mk 1 1 (mkslice 0 0 3 3) 3)
     + Length (mk 1 1 (mkslice 0 0 3 3) 3))
      mod Capacity (mk 1 1 (mkslice 0 0 3 3) 3) ∧
  (Empty (mk 1 1 (mkslice 0 0 3 3) 3) = true
     ↔ live (mk 1 1 (mkslice 0 0 3 3) 3) [["d"; "b"; "c"]] = []) ∧
  (Full (mk 1 1 (mkslice 0 0 3 3) 3) = true
     ↔ len (live (mk 1 1 (mkslice 0 0 3 3) 3) [["d"; "b"; "c"]])
       = Capacity (mk 1 1 (mkslice 0 0 3 3) 3)).
Proof.
  apply (reachable_invariant_B (mk 1 1 (mkslice 0 0 3 3) 3) [["d"; "b"; "c"]]).
  apply (reach_Push ["a"; "b"; "c"; "d"]
           (mk 0 0 (mkslice 0 0 3 3) 0) [[""; ""; ""]]).
  - apply (reach_New 3 []). reflexivity.
  - reflexivity.
Defined.

End RingB_More.

(** * The two revisions against each other *)

Module Revisions.

(** X24: the two revisions cannot be told apart by their methods.  A
    reachable buffer of revision A and one of revision B that have the
    same capacity and the same live elements answer every sequence of
    calls alike: both panic or neither does, the strings returned are the
    same, and so are the live elements at the end. *)
Theorem revisions_agree (ks : list cmd) (sA : RingA.StRingBuffer)
    (sB : RingB.StRingBuffer) (h : list (list string)) :
  RingA.reachable sA → RingB.reachable sB h →
  RingA.Capacity sA = RingB.Capacity sB →
  RingA.live sA = RingB.live sB h →
  ('(out, s') ← RingA.run ks sA; Some (out, RingA.live s'))
  = ('(out, s', h') ← RingB.run ks sB h; Some (out, RingB.live s' h')).
Proof.
  intros (c & xs & HA)%RingA_Laws.reachable_Rep
         (c' & xs' & HB)%RingB_Laws.reachable_Rep_B.
  rewrite (RingA_More.Rep_Capacity _ _ _ HA),
    (RingB_More.Rep_Capacity_B _ _ _ _ HB),
    (RingA_Laws.Rep_live _ _ _ HA), (RingB_Laws.Rep_live_B _ _ _ _ HB).
  intros <- <-.
  pose proof (RingA_More.run_refines sA c xs ks HA) as H1.
  pose proof (RingB_More.run_refines_B sB h c xs ks HB) as H2.
  destruct (deque_run (Z.to_nat c) ks xs) as [[os ys]|].
  - destruct H1 as (s1 & -> & HR1). destruct H2 as (s2 & h2 & -> & HR2).
    simpl. by rewrite (RingA_Laws.Rep_live _ _ _ HR1),
      (RingB_Laws.Rep_live_B _ _ _ _ HR2).
  - by rewrite H1, H2.
Qed.

Lemma revisions_agree_witness :
  ('(out, s') ← RingA.run [CPush ["1"; "2"; "3"; "4"]; CPop; CShift]
                  (RingA.mk 0 0 [""; ""; ""] 0);
   Some (out, RingA.live s'))
  = ('(out, s', h') ← RingB.run [CPush ["1"; "2"; "3"; "4"]; CPop; CShift]
                        (RingB.mk 0 0 (RingB.mkslice 0 0 3 3) 0)
                        [[""; ""; ""]];
     Some (out, RingB.live s' h')).
Proof.
  apply (revisions_agree [CPush ["1"; "2"; "3"; "4"]; CPop; CShift]
           (RingA.mk 0 0 [""; ""; ""] 0)
           (RingB.mk 0 0 (RingB.mkslice 0 0 3 3) 0) [[""; ""; ""]]).
  - apply (RingA.reach_New 3). reflexivity.
  - apply (RingB.reach_New 3 []). reflexivity.
  - reflexivity.
  - reflexivity.
Defined.

End Revisions.
